(** * The inlining heuristic of the optimizing compiler

    A shallow embedding of [src/compiler/js-inlining-heuristic.cc]: the
    candidate collector ([Reduce]), the backlog drain ([Finalize]), the
    dispatch builder ([TryReuseDispatch], [CreateOrReuseDispatch]), the
    snapshot-tree renaming ([DuplicateStateValuesAndRename],
    [DuplicateFrameStateAndRename]), the substitution driver
    ([InlineCandidate]) and the backlog comparator ([CandidateCompare]).

    Node pointers are node ids; the graph is the list of its nodes indexed by
    id.  Stateful code is written in a state-and-failure monad: a computation
    that has no result stands for undefined behaviour of the source (a null
    handle dereferenced, an array index out of range) or for a traversal that
    does not come back within the given fuel.  Debug-only assertions (DCHECK)
    and tracing (TRACE, PrintCandidates) have no effect on the state and are
    left out.  A value of type [int] is the integer it denotes, within
    [kMinInt] and [kMaxInt], and the additions of the source on [int]
    ([cumulative_count_ += ...], [total_size += ...] and the sum of [Finalize])
    wrap around in two's complement, as the compiled code has them
    ([add_int]). *)

From Stdlib Require Import ZArith QArith Lia Lqa Sorted.
From stdpp Require Import base option list gmap.

(** ** State-and-failure monad *)

Definition SM (St A : Type) : Type := St -> option (A * St).

Definition ret {St A : Type} (a : A) : SM St A := fun s => Some (a, s).

Definition bind {St A B : Type} (m : SM St A) (k : A -> SM St B) : SM St B :=
  fun s => match m s with
           | Some (a, s') => k a s'
           | None => None
           end.

Definition fail {St A : Type} : SM St A := fun _ => None.

(** A read of the state that may be undefined. *)
Definition rd {St A : Type} (f : St -> option A) : SM St A :=
  fun s => match f s with
           | Some a => Some (a, s)
           | None => None
           end.

Definition gets {St A : Type} (f : St -> A) : SM St A := fun s => Some (f s, s).

Definition modify {St : Type} (f : St -> St) : SM St unit := fun s => Some (tt, f s).

Declare Scope sm_scope.
Delimit Scope sm_scope with sm.
Notation "x <- c1 ;; c2" := (bind c1 (fun x => c2))
  (at level 100, c1 at next level, right associativity) : sm_scope.
Notation "c1 ;; c2" := (bind c1 (fun _ => c2))
  (at level 100, right associativity) : sm_scope.
Open Scope sm_scope.

(** An optional value, undefined when absent. *)
Definition lift {St A : Type} (o : option A) : SM St A := rd (fun _ => o).

(** [for (int i = first; i < first + count; ++i) acc = body(i, acc)] *)
Fixpoint for_fold {St A : Type} (first count : nat) (body : nat -> A -> SM St A)
    (acc : A) : SM St A :=
  match count with
  | O => ret acc
  | S count' => acc' <- body first acc ;; for_fold (S first) count' body acc'
  end.

(** [for (int i = first; i < first + count; ++i) body(i)] *)
Fixpoint for_loop {St : Type} (first count : nat) (body : nat -> SM St unit) : SM St unit :=
  match count with
  | O => ret tt
  | S count' => body first ;; for_loop (S first) count' body
  end.

(** ** Machine integers *)

(** [int] is a 32-bit two's-complement integer. *)
Definition kMinInt : Z := (-2147483648)%Z.
Definition kMaxInt : Z := 2147483647%Z.

Definition in_int_range (z : Z) : Prop := (kMinInt <= z <= kMaxInt)%Z.

(** The [int] that a sum or a conversion leaves: the value reduced modulo
    [2^32] into the range of [int]. *)
Definition to_int (z : Z) : Z := ((z + 2147483648) mod 4294967296 - 2147483648)%Z.

(** [x + y] on [int]. *)
Definition add_int (x y : Z) : Z := to_int (x + y).

Arguments to_int : simpl never.
Arguments add_int : simpl never.

(** ** Heap objects *)

(** Modelled from the spec: the function descriptor (objects.h is not part of
    the source).  It exposes built-in-ness, user-code-ness, the presence of a
    bytecode array and its length, and the force-inline flag.  A bytecode
    array is represented by its length, an [int] that is never negative. *)
Record SharedFunctionInfo := mkSharedFunctionInfo {
  HasBuiltinFunctionId : bool;
  IsUserJavaScript : bool;
  bytecode_array : option N;
  force_inline : bool
}.

Definition HasBytecodeArray (shared : SharedFunctionInfo) : bool :=
  match bytecode_array shared with Some _ => true | None => false end.

(** [shared->bytecode_array()->length()] *)
Definition bytecode_length (shared : SharedFunctionInfo) : option Z :=
  Z.of_N <$> bytecode_array shared.

(** A closure: identified by its address, it carries its shared descriptor. *)
Record JSFunction := mkJSFunction {
  function_address : nat;
  shared : SharedFunctionInfo
}.

Inductive HeapObject :=
| JSFunctionObject (function : JSFunction)
| OtherHeapObject (address : nat).

(** [Handle<T>]: a null handle is [None]. *)
Abbreviation Handle A := (option A) (only parsing).

#[global] Instance SharedFunctionInfo_eq_dec : EqDecision SharedFunctionInfo.
Proof. solve_decision. Defined.
#[global] Instance JSFunction_eq_dec : EqDecision JSFunction.
Proof. solve_decision. Defined.
#[global] Instance HeapObject_eq_dec : EqDecision HeapObject.
Proof. solve_decision. Defined.

(** Modelled from the spec: the call-site frequency (js-operator.h is not part
    of the source): either a known estimate or the unknown marker.  A known
    value is a finite floating-point number, embedded as the rational it
    denotes, so that [<] and [>] are exact; two known values can be equal
    without being the same representation. *)
Inductive CallFrequency :=
| UnknownFrequency
| KnownFrequency (value : Q).

Definition IsUnknown (f : CallFrequency) : bool :=
  match f with UnknownFrequency => true | KnownFrequency _ => false end.

Definition IsKnown (f : CallFrequency) : bool := negb (IsUnknown f).

(** [frequency.value()], defined on known frequencies only. *)
Definition frequency_value (f : CallFrequency) : option Q :=
  match f with UnknownFrequency => None | KnownFrequency v => Some v end.

Definition Qltb (x y : Q) : bool :=
  match Qcompare x y with Lt => true | _ => false end.

Definition Qgtb (x y : Q) : bool := Qltb y x.

(** Truncation toward zero, which [static_cast<int>(x)] performs on a double
    whose truncation fits an [int]. *)
Definition Qtruncate (x : Q) : Z := Z.quot (Qnum x) (Z.pos (Qden x)).

(** ** Operators and nodes *)

Inductive IrOpcode :=
| kJSCall | kJSConstruct | kJSCreateClosure | kHeapConstant
| kPhi | kEffectPhi | kMerge | kCheckpoint | kFrameState | kStateValues
| kReferenceEqual | kBranch | kIfTrue | kIfFalse | kIfSuccess | kIfException
| kDead | kStart | kParameter | kOtherOpcode.

#[global] Instance IrOpcode_eq_dec : EqDecision IrOpcode.
Proof. solve_decision. Defined.

(** Modelled from the spec: [IrOpcode::IsInlineeOpcode] (opcodes.h is not part
    of the source) holds of the call-shaped operators, the direct call and
    the constructor call. *)
Definition IsInlineeOpcode (opcode : IrOpcode) : bool :=
  match opcode with kJSCall | kJSConstruct => true | _ => false end.

Inductive FrameStateType :=
| kInterpretedFunction | kArgumentsAdaptor | kConstructStub
| kGetterStub | kSetterStub | kBuiltinContinuation.

(** Modelled from the spec: [FrameStateFunctionInfo::IsJSFunctionType]
    (frame-states.h is not part of the source) holds of a genuine JS-function
    activation, as opposed to a synthetic frame. *)
Definition IsJSFunctionType (type : FrameStateType) : bool :=
  match type with kInterpretedFunction => true | _ => false end.

Inductive OperatorParameter :=
| NoParameter
| HeapConstantParameter (value : HeapObject)
| CreateClosureParameters (shared_info : SharedFunctionInfo)
| CallParameters (frequency : CallFrequency)
| ConstructParameters (frequency : CallFrequency)
| FrameStateInfo (type : FrameStateType).

(** Modelled from the spec: an operator fixes the arrangement of the input
    edges of its nodes: value inputs first, then the context, the frame
    state, the effect inputs and the control inputs. *)
Record Operator := mkOperator {
  opcode : IrOpcode;
  ValueInputCount : nat;
  ContextInputCount : nat;
  FrameStateInputCount : nat;
  EffectInputCount : nat;
  ControlInputCount : nat;
  parameter : OperatorParameter
}.

Abbreviation NodeId := nat (only parsing).

(** Modelled from the spec: a node has an operator, input edges, and a mark
    set by [Kill] that invalidates it. *)
Record Node := mkNode {
  op : Operator;
  inputs : list NodeId;
  dead : bool
}.

(** The graph owns the nodes; the id of a node is its index. *)
Abbreviation Graph := (list Node).

Definition G : Type -> Type := SM Graph.

(** *** Reading the graph *)

(** Modelled from the spec: the accessors of a node (node.h and
    node-properties.h are not part of the source).  A node that is not in the
    graph has no operator and no inputs: the source never holds such a
    pointer. *)

Definition op_of (node : NodeId) (g : Graph) : option Operator :=
  op <$> g !! node.

Definition opcode_of (node : NodeId) (g : Graph) : option IrOpcode :=
  opcode <$> op_of node g.

Definition InputCount (node : NodeId) (g : Graph) : option nat :=
  (fun n => length (inputs n)) <$> g !! node.

Definition InputAt (node : NodeId) (index : nat) (g : Graph) : option NodeId :=
  g !! node ≫= fun n => inputs n !! index.

Definition IsDead (node : NodeId) (g : Graph) : option bool :=
  dead <$> g !! node.

(** Modelled from the spec: the use edges of [node] are the input slots
    [(from, index)] that hold it, and its use count is their number. *)
Definition uses_in (from : NodeId) (n : Node) (node : NodeId) : list (NodeId * nat) :=
  omap id (imap (fun index input =>
                   if decide (input = node) then Some (from, index) else None)
                (inputs n)).

Definition use_edges (node : NodeId) (g : Graph) : list (NodeId * nat) :=
  concat (imap (fun from n => uses_in from n node) g).

Definition UseCount (node : NodeId) (g : Graph) : nat := length (use_edges node g).

(** Modelled from the spec: [NodeProperties] finds the frame state, the first
    effect and the first control among the inputs by the counts of the
    operator. *)
Definition FirstFrameStateIndex (o : Operator) : nat :=
  ValueInputCount o + ContextInputCount o.
Definition FirstEffectIndex (o : Operator) : nat :=
  FirstFrameStateIndex o + FrameStateInputCount o.
Definition FirstControlIndex (o : Operator) : nat :=
  FirstEffectIndex o + EffectInputCount o.

Definition GetValueInput (node : NodeId) (index : nat) (g : Graph) : option NodeId :=
  InputAt node index g.

Definition GetFrameStateInput (node : NodeId) (g : Graph) : option NodeId :=
  op_of node g ≫= fun o => InputAt node (FirstFrameStateIndex o) g.

Definition GetEffectInput (node : NodeId) (g : Graph) : option NodeId :=
  op_of node g ≫= fun o => InputAt node (FirstEffectIndex o) g.

Definition GetControlInput (node : NodeId) (g : Graph) : option NodeId :=
  op_of node g ≫= fun o => InputAt node (FirstControlIndex o) g.

Definition kFrameStateLocalsInput : nat := 1.
Definition kFrameStateStackInput : nat := 2.

(** *** Changing the graph *)

(** Modelled from the spec: the graph mutations (graph.h and node.h are not
    part of the source).  A new node takes the next id; a clone is a new node
    with the operator and the inputs of the original; an input is replaced in
    place; [Kill] marks the node dead. *)

Definition NewNode (o : Operator) (new_inputs : list NodeId) : G NodeId :=
  fun g => Some (length g, g ++ [mkNode o new_inputs false]).

Definition CloneNode (node : NodeId) : G NodeId :=
  n <- rd (fun g => g !! node) ;;
  NewNode (op n) (inputs n).

Definition ReplaceInput (node : NodeId) (index : nat) (new_to : NodeId) : G unit :=
  fun g => match g !! node with
           | Some n =>
               if decide (index < length (inputs n)) then
                 Some (tt, <[node := mkNode (op n) (<[index := new_to]> (inputs n)) (dead n)]> g)
               else None
           | None => None
           end.

Definition Kill (node : NodeId) : G unit :=
  fun g => match g !! node with
           | Some n => Some (tt, <[node := mkNode (op n) (inputs n) true]> g)
           | None => None
           end.

(** Writing a slot of a fixed-size local array. *)
Definition array_set {A : Type} (index : nat) (x : A) (array : list A) : option (list A) :=
  if decide (index < length array) then Some (<[index := x]> array) else None.

(** Modelled from the spec: the canonical nodes of the graph owner
    ([jsgraph()->Dead()], [jsgraph()->HeapConstant(function)]; js-graph.h is
    not part of the source) are looked up in the graph and created on first
    use. *)
Definition find_node (P : Node -> bool) (g : Graph) : option NodeId :=
  fst <$> list_find (fun n => P n = true) g.

Definition leaf_operator (code : IrOpcode) (p : OperatorParameter) : Operator :=
  mkOperator code 0 0 0 0 0 p.

Definition is_dead_node (n : Node) : bool :=
  bool_decide (opcode (op n) = kDead).

Definition Dead : G NodeId :=
  fun g => match find_node is_dead_node g with
           | Some node => Some (node, g)
           | None => NewNode (leaf_operator kDead NoParameter) [] g
           end.

Definition is_heap_constant (value : HeapObject) (n : Node) : bool :=
  match parameter (op n) with
  | HeapConstantParameter v =>
      bool_decide (opcode (op n) = kHeapConstant ∧ v = value)
  | _ => false
  end.

Definition HeapConstant (function : Handle JSFunction) : G NodeId :=
  fun g => match function with
           | None => None
           | Some f =>
               match find_node (is_heap_constant (JSFunctionObject f)) g with
               | Some node => Some (node, g)
               | None =>
                   NewNode (leaf_operator kHeapConstant
                              (HeapConstantParameter (JSFunctionObject f))) [] g
               end
           end.

(** ** The heuristic: configuration, candidates, state *)

Inductive Mode := kGeneralInlining | kRestrictedInlining | kStressInlining.

(** Modelled from the spec: the outcome of a reducer (graph-reducer.h is not
    part of the source) is no change, or a replacement node. *)
Inductive Reduction :=
| NoChange
| Replace (replacement : NodeId).

Definition Changed (r : Reduction) : bool :=
  match r with NoChange => false | Replace _ => true end.

(** The configuration surface and the external collaborators.  The flags are
    not defined in the source file and are taken as parameters, and so are the
    inliner, [ReplaceWithValue] of the reducer framework and
    [NodeProperties::IsExceptionalCall].  [times_reserve_inline_budget_scale_factor]
    is the floating-point product
    [total_size * FLAG_reserve_inline_budget_scale_factor], a finite double.
    The conversion to [int] of a double whose truncation does not fit an
    [int] is not defined by the language: [out_of_range_int] is what the
    platform makes of it. *)
Record Config := mkConfig {
  FLAG_max_inlined_bytecode_size : Z;
  FLAG_max_inlined_bytecode_size_small : Z;
  FLAG_max_inlined_bytecode_size_absolute : Z;
  FLAG_max_inlined_bytecode_size_cumulative : Z;
  FLAG_max_inlining_levels : Z;
  FLAG_min_inlining_frequency : Q;
  FLAG_polymorphic_inlining : bool;
  times_reserve_inline_budget_scale_factor : Z -> Q;
  out_of_range_int : Q -> Z;
  kMaxCallPolymorphism : nat;
  mode_ : Mode;
  inliner_ReduceJSCall : NodeId -> Graph -> Graph * Reduction;
  ReplaceWithValue : NodeId -> NodeId -> NodeId -> NodeId -> Graph -> Graph;
  IsExceptionalCall : NodeId -> Graph -> option NodeId
}.

(** [static_cast<int>(x)] of a finite double. *)
Definition static_cast_int (cfg : Config) (x : Q) : Z :=
  if bool_decide (in_int_range (Qtruncate x)) then Qtruncate x
  else out_of_range_int cfg x.

(** Modelled from the spec: [struct Candidate] (js-inlining-heuristic.h is not
    part of the source): the call node, the array of up to
    [kMaxCallPolymorphism] targets with the parallel array of their
    inlinability, the shared descriptor of an unresolved closure, the number
    of targets, the frequency and the total size. *)
Record Candidate := mkCandidate {
  functions : list (Handle JSFunction);
  can_inline_function : list bool;
  shared_info : Handle SharedFunctionInfo;
  num_functions : nat;
  node : NodeId;
  frequency : CallFrequency;
  total_size : Z
}.

Definition with_functions (c : Candidate) (n : nat) (fs : list (Handle JSFunction))
    (sh : Handle SharedFunctionInfo) : Candidate :=
  mkCandidate fs (can_inline_function c) sh n (node c) (frequency c) (total_size c).

Definition with_can_inline_function (c : Candidate) (flags : list bool) : Candidate :=
  mkCandidate (functions c) flags (shared_info c) (num_functions c) (node c)
    (frequency c) (total_size c).

Definition with_total_size (c : Candidate) (size : Z) : Candidate :=
  mkCandidate (functions c) (can_inline_function c) (shared_info c) (num_functions c)
    (node c) (frequency c) size.

Definition with_frequency (c : Candidate) (f : CallFrequency) : Candidate :=
  mkCandidate (functions c) (can_inline_function c) (shared_info c) (num_functions c)
    (node c) f (total_size c).

(** [JSInliningHeuristic::CandidateCompare::operator()]: [true] when [left]
    is ordered before [right], that is when [left] has priority.  The test
    [left.node->id() > right.node->id()] reads [Nat.ltb (node right) (node left)]. *)
Definition CandidateCompare (left right : Candidate) : bool :=
  match frequency right with
  | UnknownFrequency =>
      match frequency left with
      | UnknownFrequency => Nat.ltb (node right) (node left)
      | KnownFrequency _ => true
      end
  | KnownFrequency right_value =>
      match frequency left with
      | UnknownFrequency => false
      | KnownFrequency left_value =>
          if Qgtb left_value right_value then true
          else if Qltb left_value right_value then false
          else Nat.ltb (node right) (node left)
      end
  end.

(** Modelled from the spec: the backlog [candidates_] is a
    [std::set<Candidate, CandidateCompare>]: its elements are kept in the
    order of the comparator, [begin()] is the first of them, and an element
    equivalent to one already present (neither is ordered before the other)
    is not inserted. *)
Fixpoint set_insert (c : Candidate) (set : list Candidate) : list Candidate :=
  match set with
  | [] => [c]
  | x :: rest =>
      if CandidateCompare c x then c :: x :: rest
      else if CandidateCompare x c then x :: set_insert c rest
      else x :: rest
  end.

(** A request made to the external inliner: the call node handed over, the
    target being inlined there, and whether the inliner reported a change.
    The target is the descriptor whose bytecode length the source adds to
    [cumulative_count_] after the request: [shared] of lines 507-510 for a
    candidate with one target, [functions[i]->shared()] of lines 572 and 582
    for the call of branch [i]. *)
Record InlinerCall := mkInlinerCall {
  inlined_call : NodeId;
  inlined_target : Handle SharedFunctionInfo;
  inlined_changed : bool
}.

(** The state of the pass: the graph, the members of the heuristic, and the
    history of the requests made to [inliner_]. *)
Record JSInliningHeuristic := mkHeuristic {
  graph : Graph;
  seen_ : gset NodeId;
  candidates_ : list Candidate;
  cumulative_count_ : Z;
  inliner_calls : list InlinerCall
}.

Definition M : Type -> Type := SM JSInliningHeuristic.

Definition set_graph (g : Graph) (h : JSInliningHeuristic) : JSInliningHeuristic :=
  mkHeuristic g (seen_ h) (candidates_ h) (cumulative_count_ h) (inliner_calls h).

Definition set_seen (seen : gset NodeId) (h : JSInliningHeuristic) : JSInliningHeuristic :=
  mkHeuristic (graph h) seen (candidates_ h) (cumulative_count_ h) (inliner_calls h).

Definition set_candidates (cs : list Candidate) (h : JSInliningHeuristic)
    : JSInliningHeuristic :=
  mkHeuristic (graph h) (seen_ h) cs (cumulative_count_ h) (inliner_calls h).

Definition set_cumulative_count (count : Z) (h : JSInliningHeuristic)
    : JSInliningHeuristic :=
  mkHeuristic (graph h) (seen_ h) (candidates_ h) count (inliner_calls h).

(** A graph computation run on the graph of the pass. *)
Definition on_graph {A : Type} (m : G A) : M A :=
  fun h => match m (graph h) with
           | Some (a, g') => Some (a, set_graph g' h)
           | None => None
           end.

(** [inliner_.ReduceJSCall(node)], recorded in the history. *)
Definition ReduceJSCall (cfg : Config) (call : NodeId)
    (target : Handle SharedFunctionInfo) : M Reduction :=
  fun h =>
    let '(g', reduction) := inliner_ReduceJSCall cfg call (graph h) in
    Some (reduction,
          mkHeuristic g' (seen_ h) (candidates_ h) (cumulative_count_ h)
            (inliner_calls h ++ [mkInlinerCall call target (Changed reduction)])).

(** [cumulative_count_ += size] *)
Definition add_cumulative_count (size : Z) : M unit :=
  modify (fun h => set_cumulative_count (add_int (cumulative_count_ h) size) h).

(** ** Target collection *)

(** [HeapObjectMatcher m(node)]: [m.HasValue()] holds for a heap constant,
    whose value is then [m.Value()]. *)
Definition HeapObjectMatcher (node : NodeId) (g : Graph) : option (option HeapObject) :=
  n ← g !! node;
  if decide (opcode (op n) = kHeapConstant) then
    match parameter (op n) with
    | HeapConstantParameter v => Some (Some v)
    | _ => None
    end
  else Some None.

(** The loop of [CollectFunctions] over the inputs of a phi; [false] is the
    early [return 0]. *)
Fixpoint CollectFunctions_phi (node : NodeId) (n remaining : nat)
    (fs : list (Handle JSFunction)) (g : Graph)
    : option (bool * list (Handle JSFunction)) :=
  match remaining with
  | O => Some (true, fs)
  | S remaining' =>
      input ← InputAt node n g;
      m ← HeapObjectMatcher input g;
      match m with
      | Some (JSFunctionObject f) =>
          fs' ← array_set n (Some f) fs;
          CollectFunctions_phi node (S n) remaining' fs' g
      | _ => Some (false, fs)
      end
  end.

(** [CollectFunctions]: the number of targets, with the arrays it fills. *)
Definition CollectFunctions (node : NodeId) (fs : list (Handle JSFunction))
    (functions_size : nat) (sh : Handle SharedFunctionInfo) (g : Graph)
    : option (nat * list (Handle JSFunction) * Handle SharedFunctionInfo) :=
  n ← g !! node;
  m ← HeapObjectMatcher node g;
  match m with
  | Some (JSFunctionObject f) =>
      fs' ← array_set 0 (Some f) fs;
      Some (1, fs', sh)
  | _ =>
      if decide (opcode (op n) = kPhi) then
        let value_input_count := ValueInputCount (op n) in
        if decide (functions_size < value_input_count) then Some (0, fs, sh)
        else
          '(complete, fs') ← CollectFunctions_phi node 0 value_input_count fs g;
          Some (if complete : bool then value_input_count else 0, fs', sh)
      else if decide (opcode (op n) = kJSCreateClosure) then
        match parameter (op n) with
        | CreateClosureParameters p =>
            fs' ← array_set 0 None fs;
            Some (1, fs', Some p)
        | _ => None
        end
      else Some (0, fs, sh)
  end.

Definition CanInlineFunction (cfg : Config) (sh : SharedFunctionInfo) : bool :=
  if HasBuiltinFunctionId sh then false
  else if negb (IsUserJavaScript sh) then false
  else match bytecode_array sh with
       | None => false
       | Some len =>
           if (Z.of_N len >? FLAG_max_inlined_bytecode_size cfg)%Z then false else true
       end.

Definition IsSmallInlineFunction (cfg : Config) (sh : SharedFunctionInfo) : bool :=
  match bytecode_array sh with
  | Some len => (Z.of_N len <=? FLAG_max_inlined_bytecode_size_small cfg)%Z
  | None => false
  end.

(** The descriptor of target [i] of a candidate:
    [functions[i].is_null() ? shared_info : handle(functions[i]->shared())]. *)
Definition target_shared (c : Candidate) (i : nat) : option (Handle SharedFunctionInfo) :=
  f ← functions c !! i;
  match f with
  | None => Some (shared_info c)
  | Some function => Some (Some (shared function))
  end.

(** ** Snapshot trees: collecting and renaming the uses of a node *)

(** [struct NodeAndIndex]: an input slot, the using node and the index. *)
Definition NodeAndIndex : Type := (NodeId * nat)%type.

(** The loop of [CollectStateValuesOwnedUses] over the inputs of
    [state_values]; [rec] is the recursive call on a nested state-values
    input.  The buffer [uses_buffer] with its counter [*use_count] is the list
    [uses], whose length is the counter. *)
Fixpoint CollectStateValuesOwnedUses_loop
    (rec : NodeId -> list NodeAndIndex -> option (bool * list NodeAndIndex))
    (node state_values : NodeId) (i remaining : nat)
    (uses : list NodeAndIndex) (max_uses : nat) (g : Graph)
    : option (bool * list NodeAndIndex) :=
  match remaining with
  | O => Some (true, uses)
  | S remaining' =>
      input ← InputAt state_values i g;
      code ← opcode_of input g;
      if decide (code = kStateValues) then
        '(collected, uses') ← rec input uses;
        if collected : bool then
          CollectStateValuesOwnedUses_loop rec node state_values (S i) remaining'
            uses' max_uses g
        else Some (false, uses')
      else if decide (input = node) then
        if decide (max_uses ≤ length uses) then Some (false, uses)
        else
          CollectStateValuesOwnedUses_loop rec node state_values (S i) remaining'
            (uses ++ [(state_values, i)]) max_uses g
      else
        CollectStateValuesOwnedUses_loop rec node state_values (S i) remaining'
          uses max_uses g
  end.

Fixpoint CollectStateValuesOwnedUses (fuel : nat) (node state_values : NodeId)
    (uses : list NodeAndIndex) (max_uses : nat) (g : Graph)
    : option (bool * list NodeAndIndex) :=
  match fuel with
  | O => None
  | S fuel' =>
      if decide (1 < UseCount state_values g) then Some (true, uses)
      else
        count ← InputCount state_values g;
        CollectStateValuesOwnedUses_loop
          (fun input uses' => CollectStateValuesOwnedUses fuel' node input uses' max_uses g)
          node state_values 0 count uses max_uses g
  end.

Inductive StateCloneMode := kCloneState | kChangeInPlace.

(** [if (!copy) copy = graph()->CloneNode(original)] *)
Definition copy_or_clone (copy : option NodeId) (original : NodeId) : G NodeId :=
  match copy with
  | Some c => ret c
  | None => CloneNode original
  end.

(** The loop of [DuplicateStateValuesAndRename] over the inputs of
    [state_values]; [rec] is the recursive call on a nested state-values
    input.  An input equal to [from] is processed to [from], as the source
    has it. *)
Fixpoint DuplicateStateValuesAndRename_loop (rec : NodeId -> G NodeId)
    (state_values from to : NodeId) (i remaining : nat) (copy : option NodeId)
    : G (option NodeId) :=
  match remaining with
  | O => ret copy
  | S remaining' =>
      input <- rd (InputAt state_values i) ;;
      code <- rd (opcode_of input) ;;
      processed <- (if decide (code = kStateValues) then rec input
                    else if decide (input = from) then ret from
                    else ret input) ;;
      copy' <- (if decide (processed ≠ input) then
                  c <- copy_or_clone copy state_values ;;
                  ReplaceInput c i processed ;;
                  ret (Some c)
                else ret copy) ;;
      DuplicateStateValuesAndRename_loop rec state_values from to (S i) remaining' copy'
  end.

Fixpoint DuplicateStateValuesAndRename (fuel : nat) (state_values from to : NodeId)
    (mode : StateCloneMode) : G NodeId :=
  match fuel with
  | O => fail
  | S fuel' =>
      use_count <- gets (UseCount state_values) ;;
      if decide (1 < use_count) then ret state_values
      else
        let copy := match mode with
                    | kChangeInPlace => Some state_values
                    | kCloneState => None
                    end in
        count <- rd (InputCount state_values) ;;
        copy' <- DuplicateStateValuesAndRename_loop
                   (fun input => DuplicateStateValuesAndRename fuel' input from to mode)
                   state_values from to 0 count copy ;;
        ret (default state_values copy')
  end.

Definition CollectFrameStateUniqueUses (fuel : nat) (node frame_state : NodeId)
    (uses : list NodeAndIndex) (max_uses : nat) (g : Graph)
    : option (bool * list NodeAndIndex) :=
  if decide (1 < UseCount frame_state g) then Some (true, uses)
  else
    stack ← InputAt frame_state kFrameStateStackInput g;
    '(collected, uses') ←
      (if decide (stack = node) then
         if decide (max_uses ≤ length uses) then Some (false, uses)
         else Some (true, uses ++ [(frame_state, kFrameStateStackInput)])
       else Some (true, uses));
    if collected : bool then
      locals ← InputAt frame_state kFrameStateLocalsInput g;
      CollectStateValuesOwnedUses fuel node locals uses' max_uses g
    else Some (false, uses').

Definition DuplicateFrameStateAndRename (fuel : nat) (frame_state from to : NodeId)
    (mode : StateCloneMode) : G NodeId :=
  use_count <- gets (UseCount frame_state) ;;
  if decide (1 < use_count) then ret frame_state
  else
    let copy := match mode with
                | kChangeInPlace => Some frame_state
                | kCloneState => None
                end in
    stack <- rd (InputAt frame_state kFrameStateStackInput) ;;
    copy1 <- (if decide (stack = from) then
                c <- copy_or_clone copy frame_state ;;
                ReplaceInput c kFrameStateStackInput to ;;
                ret (Some c)
              else ret copy) ;;
    locals <- rd (InputAt frame_state kFrameStateLocalsInput) ;;
    new_locals <- DuplicateStateValuesAndRename fuel locals from to mode ;;
    copy2 <- (if decide (new_locals ≠ locals) then
                c <- copy_or_clone copy1 frame_state ;;
                ReplaceInput c kFrameStateLocalsInput new_locals ;;
                ret (Some c)
              else ret copy1) ;;
    ret (default frame_state copy2).

(** ** The dispatch builder *)

(** Modelled from the spec: the operators built by [common()] and
    [simplified()] (common-operator.h and simplified-operator.h are not part
    of the source), with the counts of their inputs. *)
Definition ReferenceEqual : Operator := mkOperator kReferenceEqual 2 0 0 0 0 NoParameter.
Definition Branch : Operator := mkOperator kBranch 1 0 0 0 1 NoParameter.
Definition IfTrue : Operator := mkOperator kIfTrue 0 0 0 0 1 NoParameter.
Definition IfFalse : Operator := mkOperator kIfFalse 0 0 0 0 1 NoParameter.
Definition IfSuccess : Operator := mkOperator kIfSuccess 0 0 0 0 1 NoParameter.
Definition IfException : Operator := mkOperator kIfException 0 0 0 1 1 NoParameter.
Definition Merge (n : nat) : Operator := mkOperator kMerge 0 0 0 0 n NoParameter.
Definition EffectPhi (n : nat) : Operator := mkOperator kEffectPhi 0 0 0 n 1 NoParameter.
Definition Phi (n : nat) : Operator := mkOperator kPhi n 0 0 0 1 NoParameter.

(** The local arrays the dispatch builder fills: [if_successes], [calls] and
    the input array [inputs] of the cloned calls.  The arrays have a fixed
    size; a slot that has not been written yet holds an arbitrary node, and
    every slot is written before it is read. *)
Record Dispatch := mkDispatch {
  if_successes : list NodeId;
  calls : list NodeId;
  call_inputs : list NodeId
}.

(** [a - b] as an array index: undefined when negative. *)
Definition index_minus (a b : nat) : option nat :=
  if decide (b ≤ a) then Some (a - b) else None.

Definition kMaxUses : nat := 8.

(** The check of [TryReuseDispatch] that every use edge of [callee] is the
    target slot of the call or one of the collected uses. *)
Definition uses_accounted (node callee : NodeId) (replaceable_uses : list NodeAndIndex)
    (g : Graph) : bool :=
  forallb (fun edge : NodeAndIndex =>
             bool_decide (edge = (node, 0))
             || existsb (fun use => bool_decide (use = edge)) replaceable_uses)
    (use_edges callee g).

Definition clone_mode (i num_calls : nat) : StateCloneMode :=
  if decide (i = num_calls - 1) then kChangeInPlace else kCloneState.

(** One iteration of the cloning loop of [TryReuseDispatch]. *)
Definition TryReuseDispatch_clone (fuel : nat) (node callee merge effect_phi : NodeId)
    (checkpoint checkpoint_state : option NodeId) (frame_state : NodeId)
    (num_calls input_count : nat) (i : nat) (arrays : Dispatch) : G Dispatch :=
  target <- rd (InputAt callee i) ;;
  effect <- rd (InputAt effect_phi i) ;;
  control <- rd (InputAt merge i) ;;
  effect' <- match checkpoint with
             | Some cp =>
                 state <- lift checkpoint_state ;;
                 new_checkpoint_state <-
                   DuplicateFrameStateAndRename fuel state callee target
                     (clone_mode i num_calls) ;;
                 cp_op <- rd (op_of cp) ;;
                 NewNode cp_op [new_checkpoint_state; effect; control]
             | None => ret effect
             end ;;
  new_lazy_frame_state <-
    DuplicateFrameStateAndRename fuel frame_state callee target (clone_mode i num_calls) ;;
  inputs0 <- lift (array_set 0 target (call_inputs arrays)) ;;
  i3 <- lift (index_minus input_count 3) ;;
  inputs1 <- lift (array_set i3 new_lazy_frame_state inputs0) ;;
  i2 <- lift (index_minus input_count 2) ;;
  inputs2 <- lift (array_set i2 effect' inputs1) ;;
  i1 <- lift (index_minus input_count 1) ;;
  inputs3 <- lift (array_set i1 control inputs2) ;;
  node_op <- rd (op_of node) ;;
  call <- NewNode node_op (take input_count inputs3) ;;
  if_successes' <- lift (array_set i call (if_successes arrays)) ;;
  calls' <- lift (array_set i call (calls arrays)) ;;
  ret (mkDispatch if_successes' calls' inputs3).

(** The part of [TryReuseDispatch] after the checkpoint has been looked up:
    the remaining checks, then the cloning. *)
Definition TryReuseDispatch_from (fuel : nat) (node callee merge : NodeId)
    (checkpoint : option NodeId) (effect : NodeId) (num_calls input_count : nat)
    (arrays : Dispatch) : G (bool * Dispatch) :=
  code <- rd (opcode_of effect) ;;
  if decide (code ≠ kEffectPhi) then ret (false, arrays) else
  effect_control <- rd (GetControlInput effect) ;;
  if decide (effect_control ≠ merge) then ret (false, arrays) else
  let effect_phi := effect in
  collected2 <-
    match checkpoint with
    | Some cp =>
        state <- rd (InputAt cp 0) ;;
        r <- rd (CollectFrameStateUniqueUses fuel callee state [] kMaxUses) ;;
        ret (r.1, r.2, Some state)
    | None => ret (true, [], None)
    end ;;
  let '(ok2, uses2, checkpoint_state) := collected2 in
  if negb ok2 then ret (false, arrays) else
  frame_state <- rd (GetFrameStateInput node) ;;
  collected3 <- rd (CollectFrameStateUniqueUses fuel callee frame_state uses2 kMaxUses) ;;
  let '(ok3, replaceable_uses) := collected3 in
  if negb ok3 then ret (false, arrays) else
  accounted <- gets (uses_accounted node callee replaceable_uses) ;;
  if negb accounted then ret (false, arrays) else
  arrays' <- for_fold 0 num_calls
               (TryReuseDispatch_clone fuel node callee merge effect_phi checkpoint
                  checkpoint_state frame_state num_calls input_count)
               arrays ;;
  i1 <- lift (index_minus input_count 1) ;;
  dead1 <- Dead ;;
  ReplaceInput node i1 dead1 ;;
  dead2 <- Dead ;;
  ReplaceInput callee num_calls dead2 ;;
  dead3 <- Dead ;;
  ReplaceInput effect_phi num_calls dead3 ;;
  match checkpoint with
  | Some cp => dead4 <- Dead ;; ReplaceInput cp 2 dead4
  | None => ret tt
  end ;;
  Kill merge ;;
  ret (true, arrays').

Definition TryReuseDispatch (fuel : nat) (node callee : NodeId) (candidate : Candidate)
    (arrays : Dispatch) (input_count : nat) : G (bool * Dispatch) :=
  let num_calls := num_functions candidate in
  merge <- rd (GetControlInput callee) ;;
  node_control <- rd (GetControlInput node) ;;
  if decide (node_control ≠ merge) then ret (false, arrays) else
  effect <- rd (GetEffectInput node) ;;
  code <- rd (opcode_of effect) ;;
  if decide (code = kCheckpoint) then
    let checkpoint := effect in
    checkpoint_control <- rd (GetControlInput checkpoint) ;;
    if decide (checkpoint_control ≠ merge) then ret (false, arrays) else
    effect' <- rd (GetEffectInput effect) ;;
    TryReuseDispatch_from fuel node callee merge (Some checkpoint) effect'
      num_calls input_count arrays
  else
    TryReuseDispatch_from fuel node callee merge None effect
      num_calls input_count arrays.

(** One iteration of the loop of [CreateOrReuseDispatch] that rebuilds the
    dispatch; the state of the loop is [fallthrough_control] and the arrays. *)
Definition CreateDispatch_step (node callee : NodeId) (candidate : Candidate)
    (input_count : nat) (i : nat) (st : NodeId * Dispatch) : G (NodeId * Dispatch) :=
  let num_calls := num_functions candidate in
  let '(fallthrough_control, arrays) := st in
  function <- lift (functions candidate !! i) ;;
  target <- HeapConstant function ;;
  branched <-
    (if decide (i ≠ num_calls - 1) then
       check <- NewNode ReferenceEqual [callee; target] ;;
       branch <- NewNode Branch [check; fallthrough_control] ;;
       if_false <- NewNode IfFalse [branch] ;;
       if_true <- NewNode IfTrue [branch] ;;
       if_successes' <- lift (array_set i if_true (if_successes arrays)) ;;
       ret (if_false, if_successes')
     else
       if_successes' <- lift (array_set i fallthrough_control (if_successes arrays)) ;;
       ret (fallthrough_control, if_successes')) ;;
  let '(fallthrough_control', if_successes1) := branched in
  inputs0 <- lift (array_set 0 target (call_inputs arrays)) ;;
  i1 <- lift (index_minus input_count 1) ;;
  if_success <- lift (if_successes1 !! i) ;;
  inputs1 <- lift (array_set i1 if_success inputs0) ;;
  node_op <- rd (op_of node) ;;
  call <- NewNode node_op (take input_count inputs1) ;;
  if_successes2 <- lift (array_set i call if_successes1) ;;
  calls' <- lift (array_set i call (calls arrays)) ;;
  ret (fallthrough_control', mkDispatch if_successes2 calls' inputs1).

Definition CreateOrReuseDispatch (fuel : nat) (node callee : NodeId)
    (candidate : Candidate) (arrays : Dispatch) (input_count : nat) : G Dispatch :=
  reused <- TryReuseDispatch fuel node callee candidate arrays input_count ;;
  if reused.1 then ret reused.2
  else
    fallthrough_control <- rd (GetControlInput node) ;;
    let num_calls := num_functions candidate in
    final <- for_fold 0 num_calls
               (CreateDispatch_step node callee candidate input_count)
               (fallthrough_control, reused.2) ;;
    ret final.2.

(** ** Inline substitution *)

(** The body of the last loop of [InlineCandidate]: the cloned call site [i]
    is handed to the inliner when inlining is forced, or when its target can
    be inlined and the cumulative count is below the cumulative cap. *)
Definition InlineCandidate_call (cfg : Config) (force_inline : bool)
    (candidate : Candidate) (calls_array : list NodeId) (i : nat) : M unit :=
  function <- lift (functions candidate !! i) ;;
  call <- lift (calls_array !! i) ;;
  decision <-
    (if force_inline then ret true
     else
       can_inline <- lift (can_inline_function candidate !! i) ;;
       count <- gets cumulative_count_ ;;
       ret (can_inline && (count <? FLAG_max_inlined_bytecode_size_cumulative cfg)%Z)) ;;
  if decision : bool then
    reduction <- ReduceJSCall cfg call (shared <$> function) ;;
    if Changed reduction then
      on_graph (Kill call) ;;
      f <- lift function ;;
      size <- lift (bytecode_length (shared f)) ;;
      add_cumulative_count size
    else ret tt
  else ret tt.

(** The exception projections of the cloned calls, joined and substituted
    for the exception projection of the original call. *)
Definition InlineCandidate_exceptions (cfg : Config) (if_exception : NodeId)
    (num_calls : nat) (arrays : Dispatch) : M Dispatch :=
  let if_exceptions := replicate (kMaxCallPolymorphism cfg + 1) 0 in
  projected <-
    on_graph
      (for_fold 0 num_calls
         (fun i (acc : list NodeId * list NodeId) =>
            call <- lift (calls arrays !! i) ;;
            if_success <- NewNode IfSuccess [call] ;;
            if_exc <- NewNode IfException [call; call] ;;
            successes <- lift (array_set i if_success acc.1) ;;
            exceptions <- lift (array_set i if_exc acc.2) ;;
            ret (successes, exceptions))
         (if_successes arrays, if_exceptions)) ;;
  let '(successes, exceptions) := projected in
  exception_control <- on_graph (NewNode (Merge num_calls) (take num_calls exceptions)) ;;
  exceptions' <- lift (array_set num_calls exception_control exceptions) ;;
  exception_effect <-
    on_graph (NewNode (EffectPhi num_calls) (take (num_calls + 1) exceptions')) ;;
  exception_value <-
    on_graph (NewNode (Phi num_calls) (take (num_calls + 1) exceptions')) ;;
  on_graph (modify (ReplaceWithValue cfg if_exception exception_value exception_effect
                      exception_control)) ;;
  ret (mkDispatch successes (calls arrays) (call_inputs arrays)).

Definition InlineCandidate (cfg : Config) (fuel : nat) (candidate : Candidate)
    (force_inline : bool) : M Reduction :=
  let num_calls := num_functions candidate in
  let node := node candidate in
  if decide (num_calls = 1) then
    sh <- lift (target_shared candidate 0) ;;
    reduction <- ReduceJSCall cfg node sh ;;
    (if Changed reduction then
       size <- lift (sh ≫= bytecode_length) ;;
       add_cumulative_count size
     else ret tt) ;;
    ret reduction
  else
    let arrays0 := mkDispatch (replicate (kMaxCallPolymorphism cfg) 0)
                     (replicate (kMaxCallPolymorphism cfg + 1) 0) [] in
    callee <- on_graph (rd (GetValueInput node 0)) ;;
    input_count <- on_graph (rd (InputCount node)) ;;
    node_inputs <- on_graph (rd (fun g => inputs <$> g !! node)) ;;
    arrays1 <- on_graph
                 (CreateOrReuseDispatch fuel node callee candidate
                    (mkDispatch (if_successes arrays0) (calls arrays0) node_inputs)
                    input_count) ;;
    if_exception <- gets (fun h => IsExceptionalCall cfg node (graph h)) ;;
    arrays2 <- match if_exception with
               | Some projection =>
                   InlineCandidate_exceptions cfg projection num_calls arrays1
               | None => ret arrays1
               end ;;
    control <- on_graph (NewNode (Merge num_calls)
                           (take num_calls (if_successes arrays2))) ;;
    calls' <- lift (array_set num_calls control (calls arrays2)) ;;
    effect <- on_graph (NewNode (EffectPhi num_calls) (take (num_calls + 1) calls')) ;;
    value <- on_graph (NewNode (Phi num_calls) (take (num_calls + 1) calls')) ;;
    on_graph (modify (ReplaceWithValue cfg node value effect control)) ;;
    for_loop 0 num_calls (InlineCandidate_call cfg force_inline candidate calls') ;;
    ret (Replace value).

(** ** The candidate collector *)

(** The flags gathered by the loop of [Reduce] over the targets. *)
Record TargetSummary := mkTargetSummary {
  can_inline : bool;
  all_force_inline : bool;
  small_inline : bool
}.

(** One iteration of the loop of [Reduce] over the targets of a candidate. *)
Definition Reduce_target (cfg : Config) (i : nat) (acc : Candidate * TargetSummary)
    : option (Candidate * TargetSummary) :=
  let '(candidate, summary) := acc in
  handle ← target_shared candidate i;
  sh ← handle;
  let force := if negb (force_inline sh) then false else all_force_inline summary in
  flags ← array_set i (CanInlineFunction cfg sh) (can_inline_function candidate);
  let candidate1 := with_can_inline_function candidate flags in
  '(can, candidate2) ←
    (if CanInlineFunction cfg sh then
       size ← bytecode_length sh;
       Some (true, with_total_size candidate1 (add_int (total_size candidate1) size))
     else Some (can_inline summary, candidate1));
  let small := if negb (IsSmallInlineFunction cfg sh) then false else small_inline summary in
  Some (candidate2, mkTargetSummary can force small).

Fixpoint Reduce_targets (cfg : Config) (i remaining : nat)
    (acc : Candidate * TargetSummary) : option (Candidate * TargetSummary) :=
  match remaining with
  | O => Some acc
  | S remaining' =>
      acc' ← Reduce_target cfg i acc;
      Reduce_targets cfg (S i) remaining' acc'
  end.

(** The walk of [Reduce] along the chain of frame states: [true] when the
    number of JS-function frames exceeds [FLAG_max_inlining_levels].  The
    counter [level] goes up by one for a frame state of the chain and is
    compared with the limit before the walk goes on: with a limit below
    [kMaxInt] it stays within [int], and its increment is not wrapped. *)
Fixpoint inlining_level_exceeded (cfg : Config) (fuel : nat) (frame_state : NodeId)
    (level : Z) (g : Graph) : option bool :=
  match fuel with
  | O => None
  | S fuel' =>
      code ← opcode_of frame_state g;
      if decide (code = kFrameState) then
        o ← op_of frame_state g;
        match parameter o with
        | FrameStateInfo type =>
            if IsJSFunctionType type then
              if (level + 1 >? FLAG_max_inlining_levels cfg)%Z then Some true
              else
                next ← GetFrameStateInput frame_state g;
                inlining_level_exceeded cfg fuel' next (level + 1)%Z g
            else
              next ← GetFrameStateInput frame_state g;
              inlining_level_exceeded cfg fuel' next level g
        | _ => None
        end
      else Some false
  end.

(** [CallParametersOf(node->op()).frequency()] for a call,
    [ConstructParametersOf(node->op()).frequency()] otherwise. *)
Definition call_frequency (node : NodeId) (g : Graph) : option CallFrequency :=
  o ← op_of node g;
  if decide (opcode o = kJSCall) then
    match parameter o with CallParameters f => Some f | _ => None end
  else
    match parameter o with ConstructParameters f => Some f | _ => None end.

(** The end of [Reduce], reached in general mode: the frequency threshold,
    the immediate inlining of small functions, the backlog. *)
Definition Reduce_general (cfg : Config) (fuel : nat) (candidate : Candidate)
    (small : bool) : M Reduction :=
  if match frequency candidate with
     | KnownFrequency value => Qltb value (FLAG_min_inlining_frequency cfg)
     | UnknownFrequency => false
     end
  then ret NoChange
  else
    count <- gets cumulative_count_ ;;
    if small && (count <=? FLAG_max_inlined_bytecode_size_absolute cfg)%Z then
      InlineCandidate cfg fuel candidate true
    else
      modify (fun h => set_candidates (set_insert candidate (candidates_ h)) h) ;;
      ret NoChange.

Definition Reduce (cfg : Config) (fuel : nat) (node : NodeId) : M Reduction :=
  code <- on_graph (rd (opcode_of node)) ;;
  if negb (IsInlineeOpcode code) then ret NoChange else
  seen <- gets seen_ ;;
  if decide (node ∈ seen) then ret NoChange else
  modify (fun h => set_seen ({[node]} ∪ seen_ h) h) ;;
  callee <- on_graph (rd (InputAt node 0)) ;;
  let candidate0 :=
    mkCandidate (replicate (kMaxCallPolymorphism cfg) None)
      (replicate (kMaxCallPolymorphism cfg) false) None 0 node UnknownFrequency 0 in
  collected <- on_graph (rd (CollectFunctions callee (functions candidate0)
                               (kMaxCallPolymorphism cfg) (shared_info candidate0))) ;;
  let '(num, fs, sh) := collected in
  let candidate1 := with_functions candidate0 num fs sh in
  if decide (num = 0) then ret NoChange
  else if bool_decide (1 < num) && negb (FLAG_polymorphic_inlining cfg) then ret NoChange
  else
    summarized <- lift (Reduce_targets cfg 0 num
                          (with_total_size candidate1 0, mkTargetSummary false true true)) ;;
    let '(candidate2, summary) := summarized in
    if all_force_inline summary then InlineCandidate cfg fuel candidate2 true
    else if negb (can_inline summary) then ret NoChange
    else
      frame_state <- on_graph (rd (GetFrameStateInput node)) ;;
      exceeded <- on_graph (rd (inlining_level_exceeded cfg fuel frame_state 0)) ;;
      if exceeded : bool then ret NoChange
      else
        f <- on_graph (rd (call_frequency node)) ;;
        let candidate3 := with_frequency candidate2 f in
        match mode_ cfg with
        | kRestrictedInlining => ret NoChange
        | kStressInlining => InlineCandidate cfg fuel candidate3 false
        | kGeneralInlining => Reduce_general cfg fuel candidate3 (small_inline summary)
        end.

(** ** The backlog drain *)

(** The [while] loop of [Finalize]; every iteration erases the first element
    of the backlog, so [rounds] iterations suffice for a backlog of at most
    [rounds] elements. *)
Fixpoint Finalize_loop (cfg : Config) (fuel : nat) (rounds : nat) : M unit :=
  match rounds with
  | O => cs <- gets candidates_ ;;
         match cs with [] => ret tt | _ :: _ => fail end
  | S rounds' =>
      cs <- gets candidates_ ;;
      match cs with
      | [] => ret tt
      | candidate :: rest =>
          modify (set_candidates rest) ;;
          let size_of_candidate :=
            times_reserve_inline_budget_scale_factor cfg (total_size candidate) in
          count <- gets cumulative_count_ ;;
          let total := add_int count (static_cast_int cfg size_of_candidate) in
          if (total >? FLAG_max_inlined_bytecode_size_cumulative cfg)%Z then
            Finalize_loop cfg fuel rounds'
          else
            is_dead <- on_graph (rd (IsDead (node candidate))) ;;
            if negb is_dead then
              reduction <- InlineCandidate cfg fuel candidate false ;;
              if Changed reduction then ret tt
              else Finalize_loop cfg fuel rounds'
            else Finalize_loop cfg fuel rounds'
      end
  end.

Definition Finalize (cfg : Config) (fuel : nat) : M unit :=
  cs <- gets candidates_ ;;
  match cs with
  | [] => ret tt
  | _ :: _ => Finalize_loop cfg fuel (length cs)
  end.

(** * Concrete instances

    A small graph with a monomorphic call, one with a polymorphic call, and
    configurations to run the heuristic on them. *)

Module Example.

Definition descriptor (size : N) : SharedFunctionInfo :=
  mkSharedFunctionInfo false true (Some size) false.

Definition F0 : JSFunction := mkJSFunction 100 (descriptor 50).
Definition F1 : JSFunction := mkJSFunction 101 (descriptor 10).
Definition F2 : JSFunction := mkJSFunction 102 (descriptor 1).

Definition JSCall (f : CallFrequency) : Operator :=
  mkOperator kJSCall 2 1 1 1 1 (CallParameters f).
Definition FrameState : Operator :=
  mkOperator kFrameState 5 0 1 0 0 (FrameStateInfo kInterpretedFunction).
Definition StateValues (n : nat) : Operator :=
  mkOperator kStateValues n 0 0 0 0 NoParameter.

Definition start : Node := mkNode (leaf_operator kStart NoParameter) [] false.
Definition constant (f : JSFunction) : Node :=
  mkNode (leaf_operator kHeapConstant (HeapConstantParameter (JSFunctionObject f)))
    [] false.

(** A call (node 4) of the constant function [f] (node 1), with its frame
    state (node 3) over empty state values (node 2). *)
Definition mono_graph (f : JSFunction) (freq : CallFrequency) : Graph :=
  [ start;
    constant f;
    mkNode (StateValues 0) [] false;
    mkNode FrameState [2; 2; 2; 0; 1; 0] false;
    mkNode (JSCall freq) [1; 0; 0; 3; 0; 0] false ].

(** A call (node 8) whose callee is the phi (node 4) of the constants
    [F0] and [F1] at the merge (node 3); the frame state of the call (node 7)
    holds the phi on its stack slot and in [uses] slots of its locals
    (node 6).  [call_control] is the control input of the call. *)
Definition poly_graph (uses : nat) (call_control : nat) : Graph :=
  [ start;
    constant F0;
    constant F1;
    mkNode (Merge 2) [0; 0] false;
    mkNode (Phi 2) [1; 2; 3] false;
    mkNode (EffectPhi 2) [0; 0; 3] false;
    mkNode (StateValues uses) (replicate uses 4) false;
    mkNode FrameState [0; 6; 4; 0; 0; 0] false;
    mkNode (JSCall UnknownFrequency) [4; 0; 0; 7; 5; call_control] false ].

Definition poly_candidate : Candidate :=
  mkCandidate [Some F0; Some F1; None; None] [true; true; false; false] None 2 8
    UnknownFrequency 60.

Definition poly_arrays : Dispatch :=
  mkDispatch (replicate 4 0) (replicate 5 0) [4; 0; 0; 7; 5; 0].

(** An inliner that substitutes every call it is given, and one that
    substitutes none. *)
Definition accepting (call : nat) (g : Graph) : Graph * Reduction := (g, Replace call).
Definition refusing (call : nat) (g : Graph) : Graph * Reduction := (g, NoChange).

(** The flags of the examples; a double out of the range of [int] is
    converted to [kMinInt]. *)
Definition config (small absolute cumulative : Z) (scale : Q)
    (inliner : nat -> Graph -> Graph * Reduction) : Config :=
  mkConfig 500 small absolute cumulative 5 1 true
    (fun size => (inject_Z size * scale)%Q) (fun _ => kMinInt) 4 kGeneralInlining inliner
    (fun _ _ _ _ g => g) (fun _ _ => None).

(** A call (node 4) whose callee is a phi (node 3) with five value inputs. *)
Definition wide_graph : Graph :=
  [ start;
    constant F0;
    mkNode (Merge 5) [0; 0; 0; 0; 0] false;
    mkNode (Phi 5) [1; 1; 1; 1; 1; 2] false;
    mkNode (JSCall UnknownFrequency) [3; 0; 0; 0; 0; 2] false ].

(** The candidate [Reduce] builds for the call of [mono_graph f freq]. *)
Definition mono_candidate (f : JSFunction) (freq : CallFrequency) (size : Z)
    : Candidate :=
  mkCandidate [Some f; None; None; None] [true; false; false; false] None 1 4 freq size.

(** Two calls under one frame state: node 4 calls [F0] with frequency 9,
    node 6 calls [F1] with frequency 1. *)
Definition two_calls_graph : Graph :=
  [ start;
    constant F0;
    mkNode (StateValues 0) [] false;
    mkNode FrameState [2; 2; 2; 0; 1; 0] false;
    mkNode (JSCall (KnownFrequency 9)) [1; 0; 0; 3; 0; 0] false;
    constant F1;
    mkNode (JSCall (KnownFrequency 1)) [5; 0; 0; 3; 0; 0] false ].

Definition initial (g : Graph) : JSInliningHeuristic := mkHeuristic g ∅ [] 0 [].

End Example.

(** * Properties *)

(** ** The backlog comparator *)

Lemma Qltb_lt (x y : Q) : Qltb x y = true <-> (x < y)%Q.
Proof.
  unfold Qltb. rewrite Qlt_alt. destruct (x ?= y)%Q; split; congruence.
Qed.

(** The comparator on two known frequencies is a three-way comparison of the
    values, with the node id as the tie-break. *)
Lemma CandidateCompare_known (a b : Candidate) (va vb : Q) :
  frequency a = KnownFrequency va ->
  frequency b = KnownFrequency vb ->
  CandidateCompare a b =
    match (va ?= vb)%Q with
    | Gt => true
    | Lt => false
    | Eq => Nat.ltb (node b) (node a)
    end.
Proof.
  intros Ha Hb. unfold CandidateCompare, Qgtb, Qltb. rewrite Ha, Hb.
  rewrite <- (Qcompare_antisym va vb). destruct (va ?= vb)%Q; reflexivity.
Qed.

Lemma CandidateCompare_unknown (a b : Candidate) :
  frequency a = UnknownFrequency ->
  frequency b = UnknownFrequency ->
  CandidateCompare a b = Nat.ltb (node b) (node a).
Proof. intros Ha Hb. unfold CandidateCompare. rewrite Ha, Hb. reflexivity. Qed.

Lemma CandidateCompare_known_unknown (a b : Candidate) (va : Q) :
  frequency a = KnownFrequency va ->
  frequency b = UnknownFrequency ->
  CandidateCompare a b = true /\ CandidateCompare b a = false.
Proof. intros Ha Hb. unfold CandidateCompare. rewrite Ha, Hb. auto. Qed.

(** Neither candidate is ordered before the other. *)
Definition equivalent (a b : Candidate) : Prop :=
  CandidateCompare a b = false /\ CandidateCompare b a = false.

Ltac compare_frequencies :=
  repeat match goal with
  | H : context [CandidateCompare ?a ?b],
    Ha : frequency ?a = KnownFrequency _, Hb : frequency ?b = KnownFrequency _ |- _ =>
      rewrite (CandidateCompare_known a b _ _ Ha Hb) in H
  | Ha : frequency ?a = KnownFrequency _, Hb : frequency ?b = KnownFrequency _
    |- context [CandidateCompare ?a ?b] =>
      rewrite (CandidateCompare_known a b _ _ Ha Hb)
  | H : context [CandidateCompare ?a ?b],
    Ha : frequency ?a = UnknownFrequency, Hb : frequency ?b = UnknownFrequency |- _ =>
      rewrite (CandidateCompare_unknown a b Ha Hb) in H
  | Ha : frequency ?a = UnknownFrequency, Hb : frequency ?b = UnknownFrequency
    |- context [CandidateCompare ?a ?b] =>
      rewrite (CandidateCompare_unknown a b Ha Hb)
  | H : context [CandidateCompare ?a ?b],
    Ha : frequency ?a = KnownFrequency _, Hb : frequency ?b = UnknownFrequency |- _ =>
      rewrite (proj1 (CandidateCompare_known_unknown a b _ Ha Hb)) in H
  | H : context [CandidateCompare ?b ?a],
    Ha : frequency ?a = KnownFrequency _, Hb : frequency ?b = UnknownFrequency |- _ =>
      rewrite (proj2 (CandidateCompare_known_unknown a b _ Ha Hb)) in H
  | Ha : frequency ?a = KnownFrequency _, Hb : frequency ?b = UnknownFrequency
    |- context [CandidateCompare ?a ?b] =>
      rewrite (proj1 (CandidateCompare_known_unknown a b _ Ha Hb))
  | Ha : frequency ?a = KnownFrequency _, Hb : frequency ?b = UnknownFrequency
    |- context [CandidateCompare ?b ?a] =>
      rewrite (proj2 (CandidateCompare_known_unknown a b _ Ha Hb))
  end.

Ltac order_values :=
  repeat match goal with
  | H : context [(?x ?= ?y)%Q] |- _ => destruct (Qcompare_spec x y)
  | |- context [(?x ?= ?y)%Q] => destruct (Qcompare_spec x y)
  end;
  repeat match goal with
  | H : Nat.ltb _ _ = true |- _ => apply Nat.ltb_lt in H
  | H : Nat.ltb _ _ = false |- _ => apply Nat.ltb_ge in H
  | |- Nat.ltb _ _ = true => apply Nat.ltb_lt
  | |- Nat.ltb _ _ = false => apply Nat.ltb_ge
  end;
  try congruence; try lia; try lra.

Lemma CandidateCompare_irreflexive (a : Candidate) : CandidateCompare a a = false.
Proof.
  destruct (frequency a) eqn:Ha.
  - rewrite (CandidateCompare_unknown a a Ha Ha). apply Nat.ltb_irrefl.
  - rewrite (CandidateCompare_known a a _ _ Ha Ha). order_values.
Qed.

Lemma CandidateCompare_transitive (a b c : Candidate) :
  CandidateCompare a b = true -> CandidateCompare b c = true ->
  CandidateCompare a c = true.
Proof.
  intros Hab Hbc.
  destruct (frequency a) eqn:Ha, (frequency b) eqn:Hb, (frequency c) eqn:Hc;
    compare_frequencies; order_values.
Qed.

Lemma equivalent_transitive (a b c : Candidate) :
  equivalent a b -> equivalent b c -> equivalent a c.
Proof.
  intros [Hab Hba] [Hbc Hcb]. unfold equivalent.
  destruct (frequency a) eqn:Ha, (frequency b) eqn:Hb, (frequency c) eqn:Hc;
    compare_frequencies; try discriminate; split; order_values.
Qed.

(** Equivalent candidates are candidates of the same call node. *)
Lemma equivalent_node (a b : Candidate) : equivalent a b -> node a = node b.
Proof.
  intros [Hab Hba].
  destruct (frequency a) eqn:Ha, (frequency b) eqn:Hb;
    compare_frequencies; try discriminate; order_values.
Qed.

(** C1: the backlog comparator is a strict weak ordering (irreflexive,
    transitive, with a transitive equivalence); a known frequency is ordered
    before an unknown one; of two known frequencies the higher value is
    ordered first; two unknown frequencies, or two equal known values, are
    ordered by the larger node id first. *)
Theorem CandidateCompare_strict_weak_ordering :
  (forall a, CandidateCompare a a = false) /\
  (forall a b c, CandidateCompare a b = true -> CandidateCompare b c = true ->
                 CandidateCompare a c = true) /\
  (forall a b c, equivalent a b -> equivalent b c -> equivalent a c) /\
  (forall a b, IsKnown (frequency a) = true -> IsUnknown (frequency b) = true ->
               CandidateCompare a b = true /\ CandidateCompare b a = false) /\
  (forall a b va vb,
      frequency a = KnownFrequency va -> frequency b = KnownFrequency vb ->
      (vb < va)%Q -> CandidateCompare a b = true /\ CandidateCompare b a = false) /\
  (forall a b,
      (frequency a = UnknownFrequency /\ frequency b = UnknownFrequency) \/
      (exists va vb, frequency a = KnownFrequency va /\ frequency b = KnownFrequency vb
                     /\ (va == vb)%Q) ->
      CandidateCompare a b = Nat.ltb (node b) (node a)).
Proof.
  split; [exact CandidateCompare_irreflexive|].
  split; [exact CandidateCompare_transitive|].
  split; [exact equivalent_transitive|].
  split; [|split].
  - intros a b Ha Hb.
    destruct (frequency a) eqn:Ea; [discriminate|].
    destruct (frequency b) eqn:Eb; [|discriminate].
    eapply CandidateCompare_known_unknown; eauto.
  - intros a b va vb Ha Hb Hlt. compare_frequencies. split; order_values.
  - intros a b [[Ha Hb]|(va & vb & Ha & Hb & Heq)]; compare_frequencies.
    + reflexivity.
    + order_values.
Qed.

(** ** Reasoning on monadic code *)

Lemma bind_Some {St A B : Type} (m : SM St A) (k : A -> SM St B) s b s' :
  bind m k s = Some (b, s') <-> exists a s1, m s = Some (a, s1) /\ k a s1 = Some (b, s').
Proof.
  unfold bind. destruct (m s) as [[a s1]|]; split.
  - intros H. exists a, s1. auto.
  - intros (a' & s1' & Heq & H). congruence.
  - discriminate.
  - intros (a' & s1' & Heq & H). discriminate.
Qed.

Lemma ret_Some {St A : Type} (a b : A) (s s' : St) :
  ret a s = Some (b, s') <-> b = a /\ s' = s.
Proof. unfold ret. split; [intros [= <- <-]; auto | intros [-> ->]; auto]. Qed.

Lemma rd_Some {St A : Type} (f : St -> option A) (a : A) (s s' : St) :
  rd f s = Some (a, s') <-> f s = Some a /\ s' = s.
Proof.
  unfold rd. destruct (f s); split; try discriminate.
  - intros [= <- <-]; auto.
  - intros [[= ->] ->]; auto.
  - intros [? _]; discriminate.
Qed.

Lemma lift_Some {St A : Type} (o : option A) (a : A) (s s' : St) :
  lift o s = Some (a, s') <-> o = Some a /\ s' = s.
Proof. unfold lift. apply rd_Some. Qed.

Lemma gets_Some {St A : Type} (f : St -> A) (a : A) (s s' : St) :
  gets f s = Some (a, s') <-> a = f s /\ s' = s.
Proof. unfold gets. split; [intros [= <- <-]; auto | intros [-> ->]; auto]. Qed.

Lemma modify_Some {St : Type} (f : St -> St) (u : unit) (s s' : St) :
  modify f s = Some (u, s') <-> s' = f s.
Proof. unfold modify. destruct u. split; [intros [= <-]; auto | intros ->; auto]. Qed.

Lemma on_graph_Some {A : Type} (m : G A) (a : A) (h h' : JSInliningHeuristic) :
  on_graph m h = Some (a, h') <->
  exists g', m (graph h) = Some (a, g') /\ h' = set_graph g' h.
Proof.
  unfold on_graph. destruct (m (graph h)) as [[a' g']|]; split.
  - intros [= <- <-]. eauto.
  - intros (g'' & [= <- <-] & ->). reflexivity.
  - discriminate.
  - intros (g'' & [=] & _).
Qed.

(** Inversion of a monadic computation that has a result. *)
Ltac sm_inv :=
  repeat match goal with
  | H : bind _ _ _ = Some _ |- _ =>
      apply bind_Some in H; destruct H as (? & ? & ? & H)
  | H : ret _ _ = Some _ |- _ => apply ret_Some in H; destruct H as [? ?]
  | H : rd _ _ = Some _ |- _ => apply rd_Some in H; destruct H as [? ?]
  | H : lift _ _ = Some _ |- _ => apply lift_Some in H; destruct H as [? ?]
  | H : gets _ _ = Some _ |- _ => apply gets_Some in H; destruct H as [? ?]
  | H : modify _ _ = Some _ |- _ => apply modify_Some in H
  | H : on_graph _ _ = Some _ |- _ =>
      apply on_graph_Some in H; destruct H as (? & ? & ?)
  | H : fail _ = Some _ |- _ => discriminate H
  | H : (if ?c then _ else _) _ = Some _ |- _ => destruct c eqn:?
  | H : (match ?x with Some _ => _ | None => _ end) _ = Some _ |- _ => destruct x eqn:?
  | H : (let '(_, _) := ?x in _) _ = Some _ |- _ => destruct x eqn:?
  | H : (_, _) = (_, _) |- _ => inversion H; clear H
  end; simplify_eq.

(** ** A declined reuse leaves the graph as it was *)

Lemma TryReuseDispatch_from_false fuel node callee merge checkpoint effect
    num_calls input_count arrays g arrays' g' :
  TryReuseDispatch_from fuel node callee merge checkpoint effect num_calls
    input_count arrays g = Some ((false, arrays'), g') ->
  g' = g /\ arrays' = arrays.
Proof.
  unfold TryReuseDispatch_from. intros H.
  sm_inv; auto; try discriminate.
Qed.

Lemma TryReuseDispatch_false fuel node callee candidate arrays input_count g arrays' g' :
  TryReuseDispatch fuel node callee candidate arrays input_count g
    = Some ((false, arrays'), g') ->
  g' = g /\ arrays' = arrays.
Proof.
  unfold TryReuseDispatch. intros H.
  apply bind_Some in H. destruct H as (merge & g1 & H1 & H).
  apply rd_Some in H1. destruct H1 as [_ ->].
  apply bind_Some in H. destruct H as (ctl & g1 & H1 & H).
  apply rd_Some in H1. destruct H1 as [_ ->].
  destruct (decide (ctl ≠ merge)).
  { apply ret_Some in H. destruct H as [[= <-] ->]. auto. }
  apply bind_Some in H. destruct H as (effect & g1 & H1 & H).
  apply rd_Some in H1. destruct H1 as [_ ->].
  apply bind_Some in H. destruct H as (code & g1 & H1 & H).
  apply rd_Some in H1. destruct H1 as [_ ->].
  destruct (decide (code = kCheckpoint)).
  - apply bind_Some in H. destruct H as (cc & g1 & H1 & H).
    apply rd_Some in H1. destruct H1 as [_ ->].
    destruct (decide (cc ≠ merge)).
    { apply ret_Some in H. destruct H as [[= <-] ->]. auto. }
    apply bind_Some in H. destruct H as (effect' & g1 & H1 & H).
    apply rd_Some in H1. destruct H1 as [_ ->].
    eapply TryReuseDispatch_from_false; eauto.
  - eapply TryReuseDispatch_from_false; eauto.
Qed.

(** ** The rebuilt dispatch *)

Lemma NewNode_Some o ins g n g' :
  NewNode o ins g = Some (n, g') <-> n = length g /\ g' = g ++ [mkNode o ins false].
Proof. unfold NewNode. split; [intros [= <- <-]; auto | intros [-> ->]; auto]. Qed.

Lemma lookup_emitted (g : Graph) (x : Node) (rest : list Node) :
  (g ++ x :: rest) !! length g = Some x.
Proof. apply list_lookup_middle. reflexivity. Qed.

Lemma lookup_kept (g new : Graph) (n : NodeId) (x : Node) :
  g !! n = Some x -> (g ++ new) !! n = Some x.
Proof. intros H. apply lookup_app_l_Some. exact H. Qed.

(** [target] is the constant node of the closure [f]. *)
Definition heap_constant_node (g : Graph) (target : NodeId) (f : JSFunction) : Prop :=
  exists n, g !! target = Some n /\ opcode (op n) = kHeapConstant
            /\ parameter (op n) = HeapConstantParameter (JSFunctionObject f).

Definition count_opcode (code : IrOpcode) (nodes : list Node) : nat :=
  length (filter (fun n => opcode (op n) = code) nodes).

Lemma count_opcode_app code l1 l2 :
  count_opcode code (l1 ++ l2) = count_opcode code l1 + count_opcode code l2.
Proof. unfold count_opcode. rewrite filter_app, length_app. reflexivity. Qed.

Lemma find_node_Some P g n :
  find_node P g = Some n -> exists x, g !! n = Some x /\ P x = true.
Proof.
  unfold find_node. destruct (list_find _ g) as [[i x]|] eqn:E; [|discriminate].
  intros [= <-]. apply list_find_Some in E. destruct E as (? & ? & _). eauto.
Qed.

Lemma is_heap_constant_true v x :
  is_heap_constant v x = true ->
  opcode (op x) = kHeapConstant /\ parameter (op x) = HeapConstantParameter v.
Proof.
  unfold is_heap_constant. destruct (parameter (op x)); try discriminate.
  intros H. apply bool_decide_eq_true in H. destruct H as [? ->]. auto.
Qed.

Lemma HeapConstant_Some f g target g' :
  HeapConstant (Some f) g = Some (target, g') ->
  exists new, g' = g ++ new /\ heap_constant_node g' target f
              /\ Forall (fun n => opcode (op n) = kHeapConstant) new.
Proof.
  unfold HeapConstant.
  destruct (find_node _ g) as [n|] eqn:E.
  - intros [= <- <-]. exists []. rewrite app_nil_r. split; [reflexivity|]. split; [|constructor].
    apply find_node_Some in E. destruct E as (x & Hx & HP).
    apply is_heap_constant_true in HP. exists x. tauto.
  - intros H. apply NewNode_Some in H. destruct H as [-> ->].
    eexists. split; [reflexivity|]. split.
    + eexists. split; [apply lookup_emitted|]. simpl. auto.
    + repeat constructor.
Qed.

Lemma count_opcode_heap_constants code new :
  code <> kHeapConstant ->
  Forall (fun n => opcode (op n) = kHeapConstant) new ->
  count_opcode code new = 0.
Proof.
  intros Hne H. unfold count_opcode. induction H as [|x l Hx _ IH]; [reflexivity|].
  rewrite filter_cons. destruct (decide _) as [e|]; [congruence|]. exact IH.
Qed.

Lemma array_set_Some {A} i (x : A) l l' :
  array_set i x l = Some l' <-> i < length l /\ l' = <[i := x]> l.
Proof.
  unfold array_set. destruct (decide _); split.
  - intros [= <-]. auto.
  - intros [_ ->]. reflexivity.
  - discriminate.
  - intros [? _]. lia.
Qed.

Lemma index_minus_Some a b c : index_minus a b = Some c <-> b <= a /\ c = a - b.
Proof.
  unfold index_minus. destruct (decide _); split.
  - intros [= <-]. auto.
  - intros [_ ->]. reflexivity.
  - discriminate.
  - intros [? _]. lia.
Qed.

Lemma bind_eval {St A B : Type} (m : SM St A) (k : A -> SM St B) s a s1 :
  m s = Some (a, s1) -> bind m k s = k a s1.
Proof. unfold bind. intros ->. reflexivity. Qed.

Lemma HeapConstant_total f g :
  exists target new, HeapConstant (Some f) g = Some (target, g ++ new)
     /\ heap_constant_node (g ++ new) target f
     /\ Forall (fun n => opcode (op n) = kHeapConstant) new.
Proof.
  destruct (HeapConstant (Some f) g) as [[t g']|] eqn:E.
  - destruct (HeapConstant_Some _ _ _ _ E) as (new & -> & ? & ?). eauto.
  - unfold HeapConstant in E. destruct (find_node _ g); discriminate.
Qed.

Section RebuildDispatch.
Context (node callee : NodeId) (candidate : Candidate) (nd : Node).

(** The original call with its target operand and its control input
    rewritten. *)
Definition specialized_call (target control : NodeId) : Node :=
  mkNode (op nd)
    (<[length (inputs nd) - 1 := control]> (<[0 := target]> (inputs nd))) false.

(** The dispatch built for [targets], probing from [control]: every target
    but the last is compared with the callee and branched on, its call
    hangs off the true edge and the probing goes on from the false edge;
    the call of the last target hangs off the control reached. *)
Fixpoint dispatch_chain (g : Graph) (targets : list JSFunction) (control : NodeId)
    (cs : list NodeId) : Prop :=
  match targets, cs with
  | [], [] => True
  | f :: targets', call :: cs' =>
      exists target call_control next_control,
        heap_constant_node g target f /\
        g !! call = Some (specialized_call target call_control) /\
        match targets' with
        | [] => call_control = control
        | _ :: _ =>
            exists check branch,
              g !! check = Some (mkNode ReferenceEqual [callee; target] false) /\
              g !! branch = Some (mkNode Branch [check; control] false) /\
              g !! next_control = Some (mkNode IfFalse [branch] false) /\
              g !! call_control = Some (mkNode IfTrue [branch] false)
        end /\
        dispatch_chain g targets' next_control cs'
  | _, _ => False
  end.

Lemma heap_constant_node_kept g new target f :
  heap_constant_node g target f -> heap_constant_node (g ++ new) target f.
Proof. intros (n & H & ?). exists n. split; [apply lookup_kept; exact H|auto]. Qed.

Lemma dispatch_chain_kept g new targets control cs :
  dispatch_chain g targets control cs -> dispatch_chain (g ++ new) targets control cs.
Proof.
  revert control cs. induction targets as [|f targets IH]; intros control [|call cs]; simpl; auto.
  intros (target & cc & nc & Hh & Hc & Hm & Hrest).
  exists target, cc, nc. split; [apply heap_constant_node_kept; exact Hh|].
  split; [apply lookup_kept; exact Hc|]. split; [|apply IH; exact Hrest].
  destruct targets; [exact Hm|].
  destruct Hm as (check & branch & H1 & H2 & H3 & H4).
  exists check, branch. repeat split; apply lookup_kept; assumption.
Qed.

Hypothesis Hnode_op : IsInlineeOpcode (opcode (op nd)) = true.
Hypothesis Hinputs : 1 <= length (inputs nd).

(** The arrays during the loop: the input array differs from the inputs of
    the original call at most in its first and in its last slot. *)
Definition inputs_in_step (current : list NodeId) : Prop :=
  length current = length (inputs nd) /\
  forall j, 0 < j < length (inputs nd) - 1 -> current !! j = inputs nd !! j.

Lemma inputs_in_step_set current target control :
  inputs_in_step current ->
  <[length (inputs nd) - 1 := control]> (<[0 := target]> current)
  = <[length (inputs nd) - 1 := control]> (<[0 := target]> (inputs nd))
  /\ inputs_in_step (<[length (inputs nd) - 1 := control]> (<[0 := target]> current)).
Proof.
  intros [Hlen Hmid]. split.
  - apply list_eq. intros j. rewrite !list_lookup_insert, !length_insert, Hlen.
    repeat case_decide; try reflexivity.
    destruct (decide (j < length (inputs nd))).
    + apply Hmid. lia.
    + rewrite !lookup_ge_None_2; [reflexivity| |]; lia.
  - split.
    + rewrite !length_insert. exact Hlen.
    + intros j Hj. rewrite !list_lookup_insert_ne by lia. apply Hmid. exact Hj.
Qed.

Lemma specialized_call_opcode code target control :
  IsInlineeOpcode code = false ->
  count_opcode code [specialized_call target control] = 0.
Proof.
  intros Hc. unfold count_opcode. rewrite filter_cons. simpl.
  destruct (decide _) as [e|]; [|reflexivity].
  rewrite e in Hnode_op. congruence.
Qed.

(** An iteration of the rebuilding loop for a target that is not the last. *)
Lemma CreateDispatch_step_probe i f fallthrough arrays g :
  g !! node = Some nd ->
  functions candidate !! i = Some (Some f) ->
  i <> num_functions candidate - 1 ->
  i < length (if_successes arrays) -> i < length (calls arrays) ->
  inputs_in_step (call_inputs arrays) ->
  exists target hc,
    heap_constant_node (g ++ hc) target f /\
    Forall (fun n => opcode (op n) = kHeapConstant) hc /\
    let base := length (g ++ hc) in
    let if_true := base + 3 in
    CreateDispatch_step node callee candidate (length (inputs nd)) i (fallthrough, arrays) g
    = Some ((base + 2,
             mkDispatch (<[i := base + 4]> (<[i := if_true]> (if_successes arrays)))
               (<[i := base + 4]> (calls arrays))
               (<[length (inputs nd) - 1 := if_true]> (<[0 := target]> (call_inputs arrays)))),
            (g ++ hc) ++ [mkNode ReferenceEqual [callee; target] false;
                          mkNode Branch [base; fallthrough] false;
                          mkNode IfFalse [base + 1] false;
                          mkNode IfTrue [base + 1] false;
                          specialized_call target if_true]).
Proof.
  intros Hnode Hf Hi Hs Hc Hin.
  destruct (HeapConstant_total f g) as (target & hc & HC & Hh & Hall).
  exists target, hc. split; [exact Hh|]. split; [exact Hall|]. intros base if_true.
  destruct (inputs_in_step_set _ target if_true Hin) as [Heq [Hlen' _]].
  destruct Hin as [Hlen _].
  unfold CreateDispatch_step. cbv beta iota zeta. rewrite Hf.
  unfold lift at 1. rewrite (bind_eval _ _ _ (Some f) g) by reflexivity.
  rewrite (bind_eval _ _ _ _ _ HC).
  destruct (decide (i ≠ num_functions candidate - 1)) as [_|]; [|contradiction].
  unfold bind, NewNode, lift, rd, ret, array_set, index_minus, op_of.
  rewrite !length_app. simpl.
  destruct (decide (i < length (if_successes arrays))); [|lia]. 
  destruct (decide (0 < length (call_inputs arrays))); [|lia].
  destruct (decide (1 <= length (inputs nd))); [|lia].
  rewrite list_lookup_insert_eq by lia.
  rewrite length_insert.
  destruct (decide (length (inputs nd) - 1 < length (call_inputs arrays))); [|lia].
  rewrite !lookup_app_l_Some with (x := nd); [| rewrite <- !app_assoc; apply lookup_kept; exact Hnode].
  simpl. rewrite length_insert.
  destruct (decide (i < length (if_successes arrays))); [|lia]. 
  destruct (decide (i < length (calls arrays))); [|lia].
  rewrite firstn_all2 by (rewrite !length_insert; lia).
  subst base if_true. unfold specialized_call. rewrite <- Heq.
  rewrite !length_app, <- !app_assoc, <- !Nat.add_assoc. simpl. reflexivity.
Qed.

(** The iteration for the last target. *)
Lemma CreateDispatch_step_last i f fallthrough arrays g :
  g !! node = Some nd ->
  functions candidate !! i = Some (Some f) ->
  i = num_functions candidate - 1 ->
  i < length (if_successes arrays) -> i < length (calls arrays) ->
  inputs_in_step (call_inputs arrays) ->
  exists target hc,
    heap_constant_node (g ++ hc) target f /\
    Forall (fun n => opcode (op n) = kHeapConstant) hc /\
    let base := length (g ++ hc) in
    CreateDispatch_step node callee candidate (length (inputs nd)) i (fallthrough, arrays) g
    = Some ((fallthrough,
             mkDispatch (<[i := base]> (<[i := fallthrough]> (if_successes arrays)))
               (<[i := base]> (calls arrays))
               (<[length (inputs nd) - 1 := fallthrough]>
                  (<[0 := target]> (call_inputs arrays)))),
            (g ++ hc) ++ [specialized_call target fallthrough]).
Proof.
  intros Hnode Hf Hi Hs Hc Hin.
  destruct (HeapConstant_total f g) as (target & hc & HC & Hh & Hall).
  exists target, hc. split; [exact Hh|]. split; [exact Hall|]. intros base.
  destruct (inputs_in_step_set _ target fallthrough Hin) as [Heq [Hlen' _]].
  destruct Hin as [Hlen _].
  unfold CreateDispatch_step. cbv beta iota zeta. rewrite Hf.
  unfold lift at 1. rewrite (bind_eval _ _ _ (Some f) g) by reflexivity.
  rewrite (bind_eval _ _ _ _ _ HC).
  destruct (decide (i ≠ num_functions candidate - 1)) as [|_]; [contradiction|].
  unfold bind, NewNode, lift, rd, ret, array_set, index_minus, op_of.
  simpl.
  destruct (decide (i < length (if_successes arrays))); [|lia].
  destruct (decide (0 < length (call_inputs arrays))); [|lia].
  destruct (decide (1 <= length (inputs nd))); [|lia].
  rewrite list_lookup_insert_eq by lia.
  rewrite length_insert.
  destruct (decide (length (inputs nd) - 1 < length (call_inputs arrays))); [|lia].
  rewrite !lookup_app_l_Some with (x := nd); [|exact Hnode].
  simpl. rewrite length_insert.
  destruct (decide (i < length (if_successes arrays))); [|lia].
  destruct (decide (i < length (calls arrays))); [|lia].
  rewrite firstn_all2 by (rewrite !length_insert; lia).
  subst base. unfold specialized_call. rewrite <- Heq. reflexivity.
Qed.

Lemma take_S_eq {A} n (l1 l2 : list A) :
  take (S n) l1 = take (S n) l2 -> take n l1 = take n l2 /\ l1 !! n = l2 !! n.
Proof.
  intros H. split.
  - assert (E : take n (take (S n) l1) = take n (take (S n) l2)) by (rewrite H; reflexivity).
    rewrite !take_take in E. replace (n `min` S n) with n in E by lia. exact E.
  - assert (E : take (S n) l1 !! n = take (S n) l2 !! n) by (rewrite H; reflexivity).
    rewrite !lookup_take in E. destruct (decide (n < S n)); [exact E|lia].
Qed.

Lemma take_drop_S {A} k i (l : list A) x :
  l !! i = Some x -> take (S k) (drop i l) = x :: take k (drop (S i) l).
Proof. intros H. rewrite (drop_S _ _ _ H). reflexivity. Qed.

Lemma lookup_emitted_at (g : Graph) (emitted : list Node) (k : nat) (x : Node) :
  emitted !! k = Some x -> (g ++ emitted) !! (length g + k) = Some x.
Proof. intros H. rewrite lookup_app_r by lia. rewrite <- H. f_equal. lia. Qed.

(** The rebuilding loop, started at target [i] with the control
    [fallthrough], builds the dispatch of the remaining targets. *)
Lemma CreateDispatch_loop targets : forall i fallthrough arrays g,
  i + length targets = num_functions candidate ->
  g !! node = Some nd ->
  (forall j f, targets !! j = Some f -> functions candidate !! (i + j) = Some (Some f)) ->
  i + length targets <= length (if_successes arrays) ->
  i + length targets <= length (calls arrays) ->
  inputs_in_step (call_inputs arrays) ->
  exists final arrays' new,
    for_fold i (length targets)
      (CreateDispatch_step node callee candidate (length (inputs nd)))
      (fallthrough, arrays) g = Some ((final, arrays'), g ++ new) /\
    dispatch_chain (g ++ new) targets fallthrough
      (take (length targets) (drop i (calls arrays'))) /\
    take (length targets) (drop i (if_successes arrays'))
      = take (length targets) (drop i (calls arrays')) /\
    take i (calls arrays') = take i (calls arrays) /\
    take i (if_successes arrays') = take i (if_successes arrays) /\
    length (calls arrays') = length (calls arrays) /\
    length (if_successes arrays') = length (if_successes arrays) /\
    count_opcode kReferenceEqual new = length targets - 1 /\
    count_opcode kBranch new = length targets - 1.
Proof.
  induction targets as [|f rest IH]; intros i fallthrough arrays g HN Hnode Hfs Hs Hc Hin.
  - exists fallthrough, arrays, []. rewrite app_nil_r. simpl.
    rewrite !take_0. repeat split; reflexivity.
  - change (for_fold i (length (f :: rest)) ?b ?a)
      with (bind (b i a) (fun acc' => for_fold (S i) (length rest) b acc')).
    assert (Hf : functions candidate !! i = Some (Some f)).
    { specialize (Hfs 0 f eq_refl). rewrite Nat.add_0_r in Hfs. exact Hfs. }
    destruct rest as [|f' rest']; simpl length in HN, Hs, Hc.
    + (* the last target *)
      destruct (CreateDispatch_step_last i f fallthrough arrays g Hnode Hf)
        as (target & hc & Hh & Hall & Hstep);
        [clear -HN; lia|clear -Hs; lia|clear -Hc; lia|exact Hin|].
      simpl in Hstep. rewrite (bind_eval _ _ _ _ _ Hstep). simpl.
      eexists _, _, _. rewrite <- app_assoc. split; [reflexivity|]. simpl.
      rewrite (take_drop_S 0 i (<[i:=_]> (calls arrays)) (length (g ++ hc)))
        by (rewrite list_lookup_insert_eq; [reflexivity|lia]).
      rewrite (take_drop_S 0 i (<[i:=_]> (<[i:=_]> (if_successes arrays))) (length (g ++ hc)))
        by (rewrite list_lookup_insert_eq; [reflexivity|rewrite length_insert; lia]).
      rewrite !take_0.
      split.
      { exists target, fallthrough, fallthrough.
        split; [rewrite app_assoc; apply heap_constant_node_kept; exact Hh|].
        split; [|auto].
        rewrite app_assoc. apply lookup_emitted. }
      split; [reflexivity|].
      rewrite !take_insert_ge by lia. rewrite !length_insert.
      repeat split; try reflexivity.
      * rewrite count_opcode_app, specialized_call_opcode by reflexivity.
        rewrite count_opcode_heap_constants; [reflexivity|discriminate|exact Hall].
      * rewrite count_opcode_app, specialized_call_opcode by reflexivity.
        rewrite count_opcode_heap_constants; [reflexivity|discriminate|exact Hall].
    + (* a target that is probed *)
      destruct (CreateDispatch_step_probe i f fallthrough arrays g Hnode Hf)
        as (target & hc & Hh & Hall & Hstep);
        [clear -HN; lia|clear -Hs; lia|clear -Hc; lia|exact Hin|].
      cbv zeta in Hstep. rewrite (bind_eval _ _ _ _ _ Hstep).
      set (base := length (g ++ hc)) in *.
      set (emitted := [mkNode ReferenceEqual [callee; target] false;
                       mkNode Branch [base; fallthrough] false;
                       mkNode IfFalse [base + 1] false;
                       mkNode IfTrue [base + 1] false;
                       specialized_call target (base + 3)]) in *.
      set (arrays1 := mkDispatch _ _ _) in *.
      set (g1 := (g ++ hc) ++ emitted).
      destruct (IH (S i) (base + 2) arrays1 g1)
        as (final & arrays' & new & Hloop & Hchain & Hsame & Hcalls & Hifs & Hlc & Hli & Hre & Hbr).
      { simpl in *. lia. }
      { unfold g1. rewrite <- app_assoc. apply lookup_kept. exact Hnode. }
      { intros j f0 Hj. specialize (Hfs (S j) f0 Hj).
        replace (S i + j) with (i + S j) by lia. exact Hfs. }
      { unfold arrays1. simpl. rewrite !length_insert. simpl in *. lia. }
      { unfold arrays1. simpl. rewrite !length_insert. simpl in *. lia. }
      { unfold arrays1. simpl. apply inputs_in_step_set. exact Hin. }
      apply take_S_eq in Hcalls. destruct Hcalls as [Hcalls Hcall].
      apply take_S_eq in Hifs. destruct Hifs as [Hifs Hif].
      unfold arrays1 in Hcalls, Hcall, Hifs, Hif, Hlc, Hli. simpl in Hcalls, Hcall, Hifs, Hif, Hlc, Hli.
      rewrite !length_insert in Hlc. rewrite !length_insert in Hli.
      rewrite list_lookup_insert_eq in Hcall by lia.
      rewrite list_lookup_insert_eq in Hif by (rewrite length_insert; lia).
      rewrite !take_insert_ge in Hcalls by lia. rewrite !take_insert_ge in Hifs by lia.
      exists final, arrays', ((hc ++ emitted) ++ new).
      assert (Hg : g ++ (hc ++ emitted) ++ new = g1 ++ new)
        by (unfold g1; rewrite <- !app_assoc; reflexivity).
      rewrite Hg.
      split; [exact Hloop|].
      change (length (f :: f' :: rest')) with (S (length (f' :: rest'))).
      rewrite (take_drop_S _ i (calls arrays') _ Hcall).
      rewrite (take_drop_S _ i (if_successes arrays') _ Hif).
      split.
      { simpl. exists target, (base + 3), (base + 2).
        split; [apply heap_constant_node_kept; unfold g1; apply heap_constant_node_kept; exact Hh|].
        split; [apply lookup_kept; apply (lookup_emitted_at (g ++ hc) emitted 4); reflexivity|].
        split; [|exact Hchain].
        exists base, (base + 1).
        split; [apply lookup_kept; rewrite <- (Nat.add_0_r base);
                apply (lookup_emitted_at (g ++ hc) emitted 0); reflexivity|].
        split; [apply lookup_kept; apply (lookup_emitted_at (g ++ hc) emitted 1); reflexivity|].
        split; [apply lookup_kept; apply (lookup_emitted_at (g ++ hc) emitted 2); reflexivity|].
        apply lookup_kept; apply (lookup_emitted_at (g ++ hc) emitted 3); reflexivity. }
      split; [f_equal; exact Hsame|].
      split; [exact Hcalls|]. split; [exact Hifs|].
      split; [exact Hlc|]. split; [exact Hli|].
      rewrite !count_opcode_app, Hre, Hbr.
      rewrite (count_opcode_heap_constants kReferenceEqual hc) by (try discriminate; exact Hall).
      rewrite (count_opcode_heap_constants kBranch hc) by (try discriminate; exact Hall).
      change emitted with ([mkNode ReferenceEqual [callee; target] false;
                       mkNode Branch [base; fallthrough] false;
                       mkNode IfFalse [base + 1] false;
                       mkNode IfTrue [base + 1] false] ++
                       [specialized_call target (base + 3)]).
      rewrite !count_opcode_app, !specialized_call_opcode by reflexivity.
      simpl. split; lia.
Qed.
End RebuildDispatch.

Lemma GetControlInput_inputs node g nd control :
  g !! node = Some nd -> GetControlInput node g = Some control -> 1 <= length (inputs nd).
Proof.
  unfold GetControlInput, op_of, InputAt. intros ->. simpl.
  intros H. apply lookup_lt_Some in H. lia.
Qed.

(** C8: when the reuse is declined, the rebuilt dispatch of a candidate with
    N targets is a chain that compares the callee with the constant of each
    of the targets 0 to N-2 and branches on it, the true edge being the
    control of the call of that target and the false edge the control of the
    next probe; the call of the last target hangs off the last control, and
    N-1 comparisons and N-1 branches are emitted in all.  Each specialized
    call is the original call with only its target operand and its control
    input rewritten. *)
Theorem CreateOrReuseDispatch_rebuilds fuel node callee candidate arrays g nd targets
    fallthrough declined g0 :
  TryReuseDispatch fuel node callee candidate arrays (length (inputs nd)) g
    = Some ((false, declined), g0) ->
  g !! node = Some nd ->
  IsInlineeOpcode (opcode (op nd)) = true ->
  call_inputs arrays = inputs nd ->
  GetControlInput node g = Some fallthrough ->
  length targets = num_functions candidate ->
  (forall i f, targets !! i = Some f -> functions candidate !! i = Some (Some f)) ->
  num_functions candidate <= length (if_successes arrays) ->
  num_functions candidate <= length (calls arrays) ->
  exists arrays' new,
    CreateOrReuseDispatch fuel node callee candidate arrays (length (inputs nd)) g
      = Some (arrays', g ++ new) /\
    dispatch_chain callee nd (g ++ new) targets fallthrough
      (take (num_functions candidate) (calls arrays')) /\
    take (num_functions candidate) (if_successes arrays')
      = take (num_functions candidate) (calls arrays') /\
    count_opcode kReferenceEqual new = num_functions candidate - 1 /\
    count_opcode kBranch new = num_functions candidate - 1.
Proof.
  intros Hdecl Hnode Hop Hin Hctl Hlen Hfs Hs Hc.
  destruct (TryReuseDispatch_false _ _ _ _ _ _ _ _ _ Hdecl) as [-> ->].
  destruct (CreateDispatch_loop node callee candidate nd Hop
              (GetControlInput_inputs _ _ _ _ Hnode Hctl) targets 0 fallthrough arrays g)
    as (final & arrays' & new & Hloop & Hchain & Hsame & _ & _ & _ & _ & Hre & Hbr).
  { simpl. exact Hlen. }
  { exact Hnode. }
  { exact Hfs. }
  { simpl. lia. }
  { simpl. lia. }
  { rewrite Hin. split; [reflexivity|auto]. }
  exists arrays', new. rewrite drop_0 in *. rewrite Hlen in *.
  split; [|auto].
  unfold CreateOrReuseDispatch. rewrite (bind_eval _ _ _ _ _ Hdecl). simpl.
  rewrite (bind_eval _ _ _ fallthrough g) by (unfold rd; rewrite Hctl; reflexivity).
  rewrite (bind_eval _ _ _ _ _ Hloop). reflexivity.
Qed.

(** ** Declining the reuse *)

(** C10: whenever [TryReuseDispatch] declines, for whichever reason (the
    collected uses exceeding [kMaxUses] included), it has changed neither the
    graph nor the arrays, so that the rebuilding in [CreateOrReuseDispatch]
    starts from the graph and the arrays of the entry. *)
Theorem TryReuseDispatch_declines_untouched fuel node callee candidate arrays
    input_count g declined g' :
  TryReuseDispatch fuel node callee candidate arrays input_count g
    = Some ((false, declined), g') ->
  g' = g /\ declined = arrays /\
  CreateOrReuseDispatch fuel node callee candidate arrays input_count g
  = (fallthrough_control <- rd (GetControlInput node) ;;
     final <- for_fold 0 (num_functions candidate)
                (CreateDispatch_step node callee candidate input_count)
                (fallthrough_control, arrays) ;;
     ret final.2) g.
Proof.
  intros H. destruct (TryReuseDispatch_false _ _ _ _ _ _ _ _ _ H) as [-> ->].
  split; [reflexivity|]. split; [reflexivity|].
  unfold CreateOrReuseDispatch. rewrite (bind_eval _ _ _ _ _ H). reflexivity.
Qed.

(** ** Renaming in snapshot trees *)

(** The renaming of a state-values tree hands back the tree it was given and
    leaves the graph as it was: an input equal to [from] is processed to
    [from]. *)
Lemma DuplicateStateValuesAndRename_loop_same (rec : NodeId -> G NodeId)
    state_values from to :
  (forall input g r g', rec input g = Some (r, g') -> r = input /\ g' = g) ->
  forall remaining i copy g copy' g',
    DuplicateStateValuesAndRename_loop rec state_values from to i remaining copy g
      = Some (copy', g') ->
    copy' = copy /\ g' = g.
Proof.
  intros Hrec. induction remaining as [|remaining IH]; intros i copy g copy' g' H; simpl in H.
  - apply ret_Some in H. tauto.
  - apply bind_Some in H. destruct H as (input & g1 & H1 & H).
    apply rd_Some in H1. destruct H1 as [_ ->].
    apply bind_Some in H. destruct H as (code & g1 & H1 & H).
    apply rd_Some in H1. destruct H1 as [_ ->].
    apply bind_Some in H. destruct H as (processed & g1 & H1 & H).
    assert (processed = input /\ g1 = g) as [-> ->].
    { destruct (decide (code = kStateValues)); [apply Hrec; exact H1|].
      destruct (decide (input = from)); apply ret_Some in H1; destruct H1; subst; auto. }
    apply bind_Some in H. destruct H as (copy1 & g1 & H2 & H).
    destruct (decide (input ≠ input)); [congruence|].
    apply ret_Some in H2. destruct H2 as [-> ->].
    apply IH in H. exact H.
Qed.

Lemma DuplicateStateValuesAndRename_same fuel : forall state_values from to mode g r g',
  DuplicateStateValuesAndRename fuel state_values from to mode g = Some (r, g') ->
  r = state_values /\ g' = g.
Proof.
  induction fuel as [|fuel IH]; intros state_values from to mode g r g' H; simpl in H.
  - discriminate.
  - apply bind_Some in H. destruct H as (uc & g1 & H1 & H).
    apply gets_Some in H1. destruct H1 as [-> ->].
    destruct (decide (1 < UseCount state_values g)).
    { apply ret_Some in H. tauto. }
    apply bind_Some in H. destruct H as (count & g1 & H1 & H).
    apply rd_Some in H1. destruct H1 as [_ ->].
    apply bind_Some in H. destruct H as (copy' & g1 & H1 & H).
    apply DuplicateStateValuesAndRename_loop_same in H1.
    2:{ intros input g0 r0 g0' H0. eapply IH. exact H0. }
    destruct H1 as [-> ->]. apply ret_Some in H. destruct H as [-> ->].
    split; [|reflexivity]. destruct mode; reflexivity.
Qed.

Lemma ReplaceInput_Some node index new_to g u g' :
  ReplaceInput node index new_to g = Some (u, g') <->
  exists n, g !! node = Some n /\ index < length (inputs n) /\
            g' = <[node := mkNode (op n) (<[index := new_to]> (inputs n)) (dead n)]> g.
Proof.
  unfold ReplaceInput. destruct (g !! node) as [n|]; [|split; [discriminate|intros (? & [=] & _)]].
  destruct (decide _); split.
  - intros [= <-]. eauto.
  - intros (n' & [= <-] & _ & ->). destruct u. reflexivity.
  - discriminate.
  - intros (n' & [= <-] & ? & _). lia.
Qed.

Lemma CloneNode_Some node g c g' :
  CloneNode node g = Some (c, g') <->
  exists n, g !! node = Some n /\ c = length g /\ g' = g ++ [mkNode (op n) (inputs n) false].
Proof.
  unfold CloneNode. rewrite bind_Some. split.
  - intros (n & g1 & H1 & H). apply rd_Some in H1. destruct H1 as [H1 ->].
    apply NewNode_Some in H. destruct H as [-> ->]. eauto.
  - intros (n & H & -> & ->). exists n, g. split; [apply rd_Some; auto|reflexivity].
Qed.

(** C7: the renaming of a frame state never changes a node whose use count
    exceeds one, so that what another user of such a node observes is
    unchanged; a node it does change in place has a use count of exactly one
    (the frame state renamed is an input of the call or of the checkpoint),
    and otherwise the renamed frame state is a clone, appended to the graph,
    of the original, which stays as it was. *)
Theorem DuplicateFrameStateAndRename_spares_shared fuel frame_state from to mode g
    result g' :
  1 <= UseCount frame_state g ->
  DuplicateFrameStateAndRename fuel frame_state from to mode g = Some (result, g') ->
  (forall n nd, g !! n = Some nd -> 1 < UseCount n g -> g' !! n = Some nd) /\
  (forall n nd, g !! n = Some nd -> g' !! n <> Some nd ->
                UseCount n g = 1 /\ mode = kChangeInPlace) /\
  (result <> frame_state ->
   exists original,
     g !! frame_state = Some original /\ result = length g /\
     g' = g ++ [mkNode (op original)
                  (<[kFrameStateStackInput := to]> (inputs original)) false]).
Proof.
  intros Hused H. unfold DuplicateFrameStateAndRename in H.
  apply bind_Some in H. destruct H as (uc & g1 & H1 & H).
  apply gets_Some in H1. destruct H1 as [-> ->].
  destruct (decide (1 < UseCount frame_state g)) as [Hshared|Hown].
  { apply ret_Some in H. destruct H as [-> ->].
    split; [auto|]. split; [intros; congruence|congruence]. }
  apply bind_Some in H. destruct H as (stack & g1 & H1 & H).
  apply rd_Some in H1. destruct H1 as [Hstack ->].
  apply bind_Some in H. destruct H as (copy1 & g1 & Hcopy & H).
  apply bind_Some in H. destruct H as (locals & g2 & H2 & H).
  apply rd_Some in H2. destruct H2 as [Hlocals ->].
  apply bind_Some in H. destruct H as (new_locals & g2 & H2 & H).
  apply DuplicateStateValuesAndRename_same in H2. destruct H2 as [-> ->].
  apply bind_Some in H. destruct H as (copy2 & g2 & H2 & H).
  destruct (decide (locals ≠ locals)); [congruence|].
  apply ret_Some in H2. destruct H2 as [-> ->].
  apply ret_Some in H. destruct H as [-> ->].
  destruct (decide (stack = from)) as [->|Hne].
  - apply bind_Some in Hcopy. destruct Hcopy as (c & g2 & Hc & Hcopy).
    apply bind_Some in Hcopy. destruct Hcopy as (u & g3 & Hr & Hcopy).
    apply ret_Some in Hcopy. destruct Hcopy as [-> ->].
    apply ReplaceInput_Some in Hr. destruct Hr as (nc & Hnc & Hlt & ->).
    destruct mode; simpl in Hc.
    + (* the frame state is cloned *)
      apply CloneNode_Some in Hc. destruct Hc as (original & Ho & -> & ->).
      rewrite lookup_emitted in Hnc. injection Hnc as <-. cbn [op inputs dead] in *.
      assert (Hg : <[length g := mkNode (op original)
                      (<[kFrameStateStackInput := to]> (inputs original)) false]>
                     (g ++ [mkNode (op original) (inputs original) false])
                   = g ++ [mkNode (op original)
                             (<[kFrameStateStackInput := to]> (inputs original)) false]).
      { rewrite insert_app_r_alt by lia. rewrite Nat.sub_diag. reflexivity. }
      rewrite Hg.
      split; [intros; apply lookup_kept; assumption|].
      split.
      * intros m nd Hm Hchanged. exfalso. apply Hchanged. apply lookup_kept. exact Hm.
      * intros _. exists original. auto.
    + (* the frame state is changed in place *)
      apply ret_Some in Hc. destruct Hc as [-> ->].
      split.
      * intros m nd Hm Hshared. destruct (decide (m = frame_state)) as [->|Hm'].
        { lia. }
        rewrite list_lookup_insert_ne by congruence. exact Hm.
      * split; [|simpl; congruence].
        intros m nd Hm Hchanged. destruct (decide (m = frame_state)) as [->|Hm'].
        { split; [lia|reflexivity]. }
        exfalso. apply Hchanged. rewrite list_lookup_insert_ne by congruence. exact Hm.
  - apply ret_Some in Hcopy. destruct Hcopy as [-> ->].
    split; [auto|]. split; [intros; congruence|].
    destruct mode; simpl; congruence.
Qed.

(** ** Arithmetic on [int] *)

Lemma to_int_in_range z : in_int_range z -> to_int z = z.
Proof.
  unfold in_int_range, kMinInt, kMaxInt, to_int. intros Hz.
  rewrite Z.mod_small by lia. lia.
Qed.

Lemma to_int_range z : in_int_range (to_int z).
Proof.
  unfold in_int_range, kMinInt, kMaxInt, to_int.
  pose proof (Z.mod_pos_bound (z + 2147483648) 4294967296). lia.
Qed.

Lemma to_int_idemp z : to_int (to_int z) = to_int z.
Proof. apply to_int_in_range, to_int_range. Qed.

Lemma to_int_0 : to_int 0 = 0%Z.
Proof. reflexivity. Qed.

Lemma to_int_add_l x y : to_int (to_int x + y) = to_int (x + y).
Proof.
  unfold to_int. f_equal.
  replace ((x + 2147483648) mod 4294967296 - 2147483648 + y + 2147483648)%Z
    with ((x + 2147483648) mod 4294967296 + y)%Z by lia.
  rewrite Zplus_mod_idemp_l. f_equal. lia.
Qed.

Lemma to_int_add_same x y z : to_int x = to_int y -> to_int (x + z) = to_int (y + z).
Proof. intros H. rewrite <- (to_int_add_l x), <- (to_int_add_l y), H. reflexivity. Qed.

Lemma add_int_in_range x y : in_int_range (x + y) -> add_int x y = (x + y)%Z.
Proof. apply to_int_in_range. Qed.

Lemma add_int_range x y : in_int_range (add_int x y).
Proof. apply to_int_range. Qed.

Lemma add_int_0_r x : in_int_range x -> add_int x 0 = x.
Proof. intros Hx. unfold add_int. rewrite Z.add_0_r. apply to_int_in_range, Hx. Qed.

Lemma static_cast_int_in_range cfg x :
  in_int_range (Qtruncate x) -> static_cast_int cfg x = Qtruncate x.
Proof. intros Hx. unfold static_cast_int. rewrite bool_decide_eq_true_2; auto. Qed.

(** ** The members of the heuristic across its operations *)

(** The count after a request: the bytecode length of the target is added
    on [int] when the inliner reported a change, nothing otherwise (lines
    513 and 582). *)
Definition charge (count : Z) (call : InlinerCall) : Z :=
  if inlined_changed call then
    match inlined_target call ≫= bytecode_length with
    | Some size => add_int count size
    | None => count
    end
  else count.

(** The count after a sequence of requests. *)
Definition charged (count : Z) (requests : list InlinerCall) : Z :=
  foldl charge count requests.

(** A request that reported a change has a target with bytecode. *)
Definition sized (call : InlinerCall) : Prop :=
  inlined_changed call = true ->
  exists size, inlined_target call ≫= bytecode_length = Some size.

(** The size of a request: the bytecode length of the target when the
    inliner reported a change, nothing otherwise. *)
Definition inlined_size (call : InlinerCall) : Z :=
  if inlined_changed call then
    match inlined_target call ≫= bytecode_length with
    | Some size => size
    | None => 0%Z
    end
  else 0%Z.

Definition total_inlined_size (requests : list InlinerCall) : Z :=
  foldr (fun call sum => (inlined_size call + sum)%Z) 0%Z requests.

Lemma total_inlined_size_app l1 l2 :
  total_inlined_size (l1 ++ l2) = (total_inlined_size l1 + total_inlined_size l2)%Z.
Proof. induction l1 as [|x l1 IH]; simpl; [reflexivity|]. rewrite IH. lia. Qed.

Lemma inlined_size_nonneg call : (0 <= inlined_size call)%Z.
Proof.
  unfold inlined_size, bytecode_length.
  destruct (inlined_changed call); [|lia].
  destruct (inlined_target call) as [sh|]; simpl; [|lia].
  destruct (bytecode_array sh); simpl; lia.
Qed.

Lemma total_inlined_size_nonneg requests : (0 <= total_inlined_size requests)%Z.
Proof.
  induction requests as [|x l IH]; simpl; [lia|].
  pose proof (inlined_size_nonneg x). lia.
Qed.

Lemma charged_app count l1 l2 :
  charged count (l1 ++ l2) = charged (charged count l1) l2.
Proof. apply foldl_app. Qed.

(** While the sum stays within [int], the count after the requests is the
    count before plus their sizes. *)
Lemma charged_in_range requests : forall count,
  (kMinInt <= count)%Z ->
  (count + total_inlined_size requests <= kMaxInt)%Z ->
  charged count requests = (count + total_inlined_size requests)%Z.
Proof.
  induction requests as [|x l IH]; intros count Hlow Hhigh; simpl in *; [lia|].
  pose proof (inlined_size_nonneg x) as Hx.
  pose proof (total_inlined_size_nonneg l) as Hl.
  assert (charge count x = (count + inlined_size x)%Z) as ->.
  { unfold charge, inlined_size in *. destruct (inlined_changed x); [|lia].
    destruct (inlined_target x ≫= bytecode_length) as [size|]; [|lia].
    apply add_int_in_range. unfold in_int_range. lia. }
  unfold charged in IH. rewrite IH by lia. lia.
Qed.

(** The cumulative count moves with the history of the inliner: it is
    charged with the requests added, each of which has a target with
    bytecode when it reported a change. *)
Definition budget_follows (h h' : JSInliningHeuristic) : Prop :=
  exists requests,
    inliner_calls h' = inliner_calls h ++ requests /\
    cumulative_count_ h' = charged (cumulative_count_ h) requests /\
    Forall sized requests.

(** Substitution leaves the seen-set and the backlog alone. *)
Definition substitutes (h h' : JSInliningHeuristic) : Prop :=
  budget_follows h h' /\ seen_ h' = seen_ h /\ candidates_ h' = candidates_ h.

(** Collection and draining only add to the seen-set. *)
Definition advances (h h' : JSInliningHeuristic) : Prop :=
  budget_follows h h' /\ seen_ h ⊆ seen_ h'.

Lemma budget_follows_refl h : budget_follows h h.
Proof. exists []. rewrite app_nil_r. simpl. auto. Qed.

Lemma budget_follows_trans h1 h2 h3 :
  budget_follows h1 h2 -> budget_follows h2 h3 -> budget_follows h1 h3.
Proof.
  intros (r1 & Hc1 & Hn1 & Hs1) (r2 & Hc2 & Hn2 & Hs2). exists (r1 ++ r2).
  rewrite Hc2, Hc1, Hn2, Hn1, charged_app, app_assoc.
  split; [reflexivity|]. split; [reflexivity|]. apply Forall_app; auto.
Qed.

Lemma substitutes_refl h : substitutes h h.
Proof. split; [apply budget_follows_refl|auto]. Qed.

Lemma substitutes_trans h1 h2 h3 :
  substitutes h1 h2 -> substitutes h2 h3 -> substitutes h1 h3.
Proof.
  intros (Hb1 & Hs1 & Hc1) (Hb2 & Hs2 & Hc2).
  split; [eapply budget_follows_trans; eauto|]. split; congruence.
Qed.

Lemma advances_refl h : advances h h.
Proof. split; [apply budget_follows_refl|reflexivity]. Qed.

Lemma advances_trans h1 h2 h3 : advances h1 h2 -> advances h2 h3 -> advances h1 h3.
Proof.
  intros (Hb1 & Hs1) (Hb2 & Hs2).
  split; [eapply budget_follows_trans; eauto|]. etransitivity; eauto.
Qed.

Lemma substitutes_advances h h' : substitutes h h' -> advances h h'.
Proof. intros (Hb & Hs & _). split; [exact Hb|]. rewrite Hs. reflexivity. Qed.

(** Every result of [m] is related to the state it started from. *)
Definition keeps {A : Type} (R : JSInliningHeuristic -> JSInliningHeuristic -> Prop)
    (m : M A) : Prop :=
  forall h a h', m h = Some (a, h') -> R h h'.

Section Keeps.
Context (R : JSInliningHeuristic -> JSInliningHeuristic -> Prop).
Hypothesis R_refl : forall h, R h h.
Hypothesis R_trans : forall h1 h2 h3, R h1 h2 -> R h2 h3 -> R h1 h3.

Lemma keeps_ret {A} (a : A) : keeps R (ret a).
Proof. intros h a' h' H. apply ret_Some in H. destruct H as [_ ->]. apply R_refl. Qed.

Lemma keeps_bind {A B} (m : M A) (k : A -> M B) :
  keeps R m -> (forall a, keeps R (k a)) -> keeps R (bind m k).
Proof.
  intros Hm Hk h b h' H. apply bind_Some in H. destruct H as (a & h1 & H1 & H2).
  eapply R_trans; [eapply Hm; eauto|eapply Hk; eauto].
Qed.

Lemma keeps_lift {A} (o : option A) : keeps R (lift o).
Proof. intros h a h' H. apply lift_Some in H. destruct H as [_ ->]. apply R_refl. Qed.

Lemma keeps_gets {A} (f : JSInliningHeuristic -> A) : keeps R (gets f).
Proof. intros h a h' H. apply gets_Some in H. destruct H as [_ ->]. apply R_refl. Qed.

Lemma keeps_fail {A} : keeps R (@fail _ A).
Proof. intros h a h' H. discriminate. Qed.

Lemma keeps_for_loop (body : nat -> M unit) count :
  (forall i, keeps R (body i)) -> forall first, keeps R (for_loop first count body).
Proof.
  intros Hbody. induction count as [|count IH]; intros first; simpl.
  - apply keeps_ret.
  - apply keeps_bind; [apply Hbody|intros _; apply IH].
Qed.
End Keeps.

Lemma substitutes_on_graph {A} (m : G A) : keeps substitutes (on_graph m).
Proof.
  intros h a h' H. apply on_graph_Some in H. destruct H as (g' & _ & ->).
  split; [|auto]. exists []. simpl. rewrite app_nil_r. auto.
Qed.

Lemma ReduceJSCall_Some cfg call target h reduction h' :
  ReduceJSCall cfg call target h = Some (reduction, h') <->
  reduction = (inliner_ReduceJSCall cfg call (graph h)).2 /\
  h' = mkHeuristic (inliner_ReduceJSCall cfg call (graph h)).1 (seen_ h) (candidates_ h)
         (cumulative_count_ h)
         (inliner_calls h ++ [mkInlinerCall call target (Changed reduction)]).
Proof.
  unfold ReduceJSCall. destruct (inliner_ReduceJSCall cfg call (graph h)) as [g' r]. simpl.
  split; [intros [= <- <-]; auto|intros [-> ->]; reflexivity].
Qed.

Lemma add_cumulative_count_Some size h u h' :
  add_cumulative_count size h = Some (u, h') <->
  h' = set_cumulative_count (add_int (cumulative_count_ h) size) h.
Proof.
  unfold add_cumulative_count, modify. destruct u.
  split; [intros [= <-]; reflexivity|intros ->; reflexivity].
Qed.

(** A request that reports no change adds nothing to the count. *)
Lemma substitutes_unchanged g call target h :
  substitutes h
    (mkHeuristic g (seen_ h) (candidates_ h) (cumulative_count_ h)
       (inliner_calls h ++ [mkInlinerCall call target false])).
Proof.
  split; [|auto]. exists [mkInlinerCall call target false]. simpl.
  split; [reflexivity|]. split; [reflexivity|].
  constructor; [|constructor]. intros Hchanged. discriminate.
Qed.

(** A request that reports a change adds the bytecode length of its target. *)
Lemma substitutes_changed g call sh size h :
  bytecode_length sh = Some size ->
  substitutes h
    (mkHeuristic g (seen_ h) (candidates_ h) (add_int (cumulative_count_ h) size)
       (inliner_calls h ++ [mkInlinerCall call (Some sh) true])).
Proof.
  intros Hsize. split; [|auto]. exists [mkInlinerCall call (Some sh) true].
  split; [reflexivity|]. split.
  - unfold charged, charge. simpl. rewrite Hsize. reflexivity.
  - constructor; [|constructor]. intros _. exists size. exact Hsize.
Qed.

Lemma InlineCandidate_call_substitutes cfg force candidate calls_array i :
  keeps substitutes (InlineCandidate_call cfg force candidate calls_array i).
Proof.
  intros h [] h' H. unfold InlineCandidate_call in H.
  apply bind_Some in H. destruct H as (function & h1 & H1 & H).
  apply lift_Some in H1. destruct H1 as [_ ->].
  apply bind_Some in H. destruct H as (call & h1 & H1 & H).
  apply lift_Some in H1. destruct H1 as [_ ->].
  apply bind_Some in H. destruct H as (decision & h1 & H1 & H).
  assert (h1 = h) as ->.
  { destruct force; sm_inv; reflexivity. }
  clear H1. destruct decision.
  - apply bind_Some in H. destruct H as (reduction & h1 & H1 & H).
    apply ReduceJSCall_Some in H1. destruct H1 as [Hr ->].
    destruct (Changed reduction).
    + apply bind_Some in H. destruct H as (u & h2 & H2 & H).
      apply on_graph_Some in H2. destruct H2 as (g2 & _ & ->).
      apply bind_Some in H. destruct H as (f & h2 & H2 & H).
      apply lift_Some in H2. destruct H2 as [-> ->].
      apply bind_Some in H. destruct H as (size & h2 & H2 & H).
      apply lift_Some in H2. destruct H2 as [Hsize ->].
      apply add_cumulative_count_Some in H. subst h'.
      apply (substitutes_changed g2 call (shared f) size h Hsize).
    + apply ret_Some in H. destruct H as [_ ->]. apply substitutes_unchanged.
  - apply ret_Some in H. destruct H as [_ ->]. apply substitutes_refl.
Qed.

Lemma InlineCandidate_exceptions_substitutes cfg projection num_calls arrays :
  keeps substitutes (InlineCandidate_exceptions cfg projection num_calls arrays).
Proof.
  unfold InlineCandidate_exceptions.
  repeat first
    [ apply (keeps_bind substitutes substitutes_trans)
    | apply substitutes_on_graph
    | apply (keeps_lift substitutes substitutes_refl)
    | apply (keeps_ret substitutes substitutes_refl)
    | match goal with |- keeps _ (let '(_, _) := ?x in _) => destruct x end
    | intros ? ].
Qed.

Lemma InlineCandidate_substitutes cfg fuel candidate force :
  keeps substitutes (InlineCandidate cfg fuel candidate force).
Proof.
  unfold InlineCandidate. destruct (decide (num_functions candidate = 1)).
  - intros h r h' H.
    apply bind_Some in H. destruct H as (sh & h1 & H1 & H).
    apply lift_Some in H1. destruct H1 as [_ ->].
    apply bind_Some in H. destruct H as (reduction & h1 & H1 & H).
    apply ReduceJSCall_Some in H1. destruct H1 as [Hr ->].
    apply bind_Some in H. destruct H as (u & h2 & H2 & H).
    apply ret_Some in H. destruct H as [_ ->].
    destruct (Changed reduction).
    + apply bind_Some in H2. destruct H2 as (size & h3 & H3 & H2).
      apply lift_Some in H3. destruct H3 as [Hsize ->].
      apply add_cumulative_count_Some in H2. subst h2.
      destruct sh as [sh|]; [|discriminate]. simpl in Hsize.
      apply (substitutes_changed _ (node candidate) sh size h Hsize).
    + apply ret_Some in H2. destruct H2 as [_ ->]. apply substitutes_unchanged.
  - repeat first
      [ apply (keeps_bind substitutes substitutes_trans)
      | apply substitutes_on_graph
      | apply (keeps_lift substitutes substitutes_refl)
      | apply (keeps_gets substitutes substitutes_refl)
      | apply (keeps_ret substitutes substitutes_refl)
      | apply (keeps_for_loop substitutes substitutes_refl substitutes_trans)
      | apply InlineCandidate_call_substitutes
      | apply InlineCandidate_exceptions_substitutes
      | match goal with |- keeps _ (match ?x with _ => _ end) => destruct x end
      | intros ? ].
Qed.

Lemma keeps_weaken {A} (R R' : JSInliningHeuristic -> JSInliningHeuristic -> Prop)
    (m : M A) :
  (forall h h', R h h' -> R' h h') -> keeps R m -> keeps R' m.
Proof. intros HR Hm h a h' H. apply HR. eapply Hm. exact H. Qed.

Lemma InlineCandidate_advances cfg fuel candidate force :
  keeps advances (InlineCandidate cfg fuel candidate force).
Proof.
  eapply keeps_weaken; [apply substitutes_advances|apply InlineCandidate_substitutes].
Qed.

Lemma advances_on_graph {A} (m : G A) : keeps advances (on_graph m).
Proof. eapply keeps_weaken; [apply substitutes_advances|apply substitutes_on_graph]. Qed.

Lemma advances_set_seen (f : JSInliningHeuristic -> gset nat) :
  (forall h, seen_ h ⊆ f h) -> keeps advances (modify (fun h => set_seen (f h) h)).
Proof.
  intros Hf h u h' H. apply modify_Some in H. subst h'.
  split; [|apply Hf]. exists []. simpl. rewrite app_nil_r. auto.
Qed.

Lemma advances_set_candidates (f : JSInliningHeuristic -> list Candidate) :
  keeps advances (modify (fun h => set_candidates (f h) h)).
Proof.
  intros h u h' H. apply modify_Some in H. subst h'.
  split; [|reflexivity]. exists []. simpl. rewrite app_nil_r. auto.
Qed.

Ltac keeps_advances :=
  repeat first
    [ apply (keeps_bind advances advances_trans)
    | apply advances_on_graph
    | apply (keeps_lift advances advances_refl)
    | apply (keeps_gets advances advances_refl)
    | apply (keeps_ret advances advances_refl)
    | apply (keeps_fail advances)
    | apply InlineCandidate_advances
    | assumption
    | apply advances_set_candidates
    | apply (advances_set_candidates (fun _ => _))
    | apply advances_set_seen; intros; set_solver
    | match goal with
      | H : forall x, keeps _ (?f x) |- keeps _ (?f _) => apply H
      | H : forall x y, keeps _ (?f x y) |- keeps _ (?f _ _) => apply H
      | |- keeps _ (if ?c then _ else _) => destruct c
      | |- keeps _ (match ?x with _ => _ end) => destruct x
      end
    | intros ? ].

Lemma Reduce_general_advances cfg fuel candidate small :
  keeps advances (Reduce_general cfg fuel candidate small).
Proof. unfold Reduce_general. keeps_advances. Qed.

Lemma Reduce_advances cfg fuel node : keeps advances (Reduce cfg fuel node).
Proof.
  pose proof (Reduce_general_advances cfg fuel) as Hgeneral.
  unfold Reduce. keeps_advances.
Qed.

Lemma Finalize_loop_advances cfg fuel rounds : keeps advances (Finalize_loop cfg fuel rounds).
Proof.
  induction rounds as [|rounds IH]; simpl; keeps_advances.
Qed.

Lemma Finalize_advances cfg fuel : keeps advances (Finalize cfg fuel).
Proof.
  pose proof (Finalize_loop_advances cfg fuel) as Hloop.
  unfold Finalize.
  apply (keeps_bind advances advances_trans); [apply (keeps_gets advances advances_refl)|].
  intros [|c cs]; [apply (keeps_ret advances advances_refl)|apply Hloop].
Qed.

(** ** Sequences of operations *)

Inductive Operation :=
| DoReduce (fuel : nat) (node : nat)
| DoFinalize (fuel : nat).

Definition run_operation (cfg : Config) (o : Operation) : M unit :=
  match o with
  | DoReduce fuel node => Reduce cfg fuel node ;; ret tt
  | DoFinalize fuel => Finalize cfg fuel
  end.

Fixpoint run (cfg : Config) (operations : list Operation) : M unit :=
  match operations with
  | [] => ret tt
  | o :: rest => run_operation cfg o ;; run cfg rest
  end.

Lemma run_advances cfg operations : keeps advances (run cfg operations).
Proof.
  induction operations as [|o rest IH]; simpl.
  - apply (keeps_ret advances advances_refl).
  - apply (keeps_bind advances advances_trans); [|intros _; exact IH].
    destruct o; simpl.
    + apply (keeps_bind advances advances_trans); [apply Reduce_advances|].
      intros _. apply (keeps_ret advances advances_refl).
    + apply Finalize_advances.
Qed.

(** C3: across every sequence of [Reduce] and [Finalize] operations the
    cumulative count changes only with the requests made to the inliner
    meanwhile: for each of them, in order, the bytecode length of the target
    is added on [int] when the inliner reported a change, and nothing when
    it did not; operations that make no request leave the count as it was.
    As long as the count and the lengths added stay within the range of
    [int], the count grows by exactly the sum of these lengths and never
    decreases. *)
Theorem cumulative_count_monotone cfg operations h h' :
  run cfg operations h = Some (tt, h') ->
  exists requests,
    inliner_calls h' = inliner_calls h ++ requests /\
    Forall sized requests /\
    cumulative_count_ h' = charged (cumulative_count_ h) requests /\
    ((kMinInt <= cumulative_count_ h)%Z ->
     (cumulative_count_ h + total_inlined_size requests <= kMaxInt)%Z ->
     cumulative_count_ h' = (cumulative_count_ h + total_inlined_size requests)%Z /\
     (cumulative_count_ h <= cumulative_count_ h')%Z).
Proof.
  intros H.
  destruct (run_advances cfg operations h tt h' H) as [(requests & Hc & Hn & Hs) _].
  exists requests. split; [exact Hc|]. split; [exact Hs|]. split; [exact Hn|].
  intros Hlow Hhigh. rewrite Hn, charged_in_range by assumption.
  pose proof (total_inlined_size_nonneg requests). lia.
Qed.

(** ** Dedup by the seen-set *)

Lemma set_graph_same h : set_graph (graph h) h = h.
Proof. destruct h. reflexivity. Qed.

Lemma on_graph_rd {A} (f : Graph -> option A) h a :
  f (graph h) = Some a -> on_graph (rd f) h = Some (a, h).
Proof. intros H. unfold on_graph, rd. rewrite H, set_graph_same. reflexivity. Qed.

Lemma on_graph_rd_Some {A} (f : Graph -> option A) h a h' :
  on_graph (rd f) h = Some (a, h') <-> f (graph h) = Some a /\ h' = h.
Proof.
  split.
  - intros H. apply on_graph_Some in H. destruct H as (g' & H & ->).
    apply rd_Some in H. destruct H as [H ->]. rewrite set_graph_same. auto.
  - intros [H ->]. apply on_graph_rd. exact H.
Qed.

(** A node that [Reduce] has seen is left alone. *)
Lemma Reduce_seen cfg fuel node h :
  node ∈ seen_ h -> is_Some (graph h !! node) -> Reduce cfg fuel node h = Some (NoChange, h).
Proof.
  intros Hseen [nd Hnd]. unfold Reduce.
  rewrite (bind_eval _ _ _ (opcode (op nd)) h)
    by (apply on_graph_rd; unfold opcode_of, op_of; rewrite Hnd; reflexivity).
  destruct (negb (IsInlineeOpcode (opcode (op nd)))); [reflexivity|].
  unfold bind at 1. unfold gets at 1.
  destruct (decide (node ∈ seen_ h)); [reflexivity|contradiction].
Qed.

(** A call node that [Reduce] has processed is in the seen-set. *)
Lemma Reduce_marks cfg fuel node code h r h1 :
  opcode_of node (graph h) = Some code -> IsInlineeOpcode code = true ->
  Reduce cfg fuel node h = Some (r, h1) ->
  node ∈ seen_ h1.
Proof.
  intros Hcode Hcall H. unfold Reduce in H.
  apply bind_Some in H. destruct H as (code' & h0 & H0 & H).
  apply on_graph_rd_Some in H0. destruct H0 as [H0 ->].
  rewrite Hcode in H0. injection H0 as <-. rewrite Hcall in H. simpl in H.
  apply bind_Some in H. destruct H as (seen & h0 & H0 & H).
  apply gets_Some in H0. destruct H0 as [-> ->].
  destruct (decide (node ∈ seen_ h)) as [Hin|Hout].
  { apply ret_Some in H. destruct H as [_ ->]. exact Hin. }
  apply bind_Some in H. destruct H as (u & h0 & H0 & H).
  apply modify_Some in H0. subst h0.
  pose proof (Reduce_general_advances cfg fuel) as Hgeneral.
  match type of H with
  | ?m ?s = Some _ => assert (Hrest : keeps advances m) by keeps_advances
  end.
  apply Hrest in H. destruct H as [_ Hsub]. simpl in Hsub. set_solver.
Qed.

(** C9: once [Reduce] has processed a call node, every later invocation of
    [Reduce] on it, after whatever operations, reports no change and leaves
    the state as it is: no second candidate, no second substitution. *)
Theorem Reduce_processes_once cfg fuel node code h r h1 operations h2 fuel' :
  opcode_of node (graph h) = Some code -> IsInlineeOpcode code = true ->
  Reduce cfg fuel node h = Some (r, h1) ->
  run cfg operations h1 = Some (tt, h2) ->
  is_Some (graph h2 !! node) ->
  Reduce cfg fuel' node h2 = Some (NoChange, h2).
Proof.
  intros Hcode Hcall Hfirst Hrun Hnode.
  apply Reduce_seen; [|exact Hnode].
  destruct (run_advances cfg operations h1 tt h2 Hrun) as [_ Hsub].
  apply Hsub. eapply Reduce_marks; eauto.
Qed.

(** ** The polymorphism cap *)

(** C5: when the callee of a call is a phi with more value inputs than
    [kMaxCallPolymorphism], [CollectFunctions] returns zero targets and leaves
    the array of targets as it was, and [Reduce] reports no change: the
    backlog, the history of the inliner, the cumulative count and the graph
    stay as they were. *)
Theorem phi_over_polymorphism_cap cfg fuel node code callee phi h :
  opcode_of node (graph h) = Some code -> IsInlineeOpcode code = true ->
  InputAt node 0 (graph h) = Some callee ->
  graph h !! callee = Some phi -> opcode (op phi) = kPhi ->
  kMaxCallPolymorphism cfg < ValueInputCount (op phi) ->
  (forall fs sh,
      CollectFunctions callee fs (kMaxCallPolymorphism cfg) sh (graph h) = Some (0, fs, sh)) /\
  exists h',
    Reduce cfg fuel node h = Some (NoChange, h') /\
    graph h' = graph h /\ candidates_ h' = candidates_ h /\
    inliner_calls h' = inliner_calls h /\ cumulative_count_ h' = cumulative_count_ h.
Proof.
  intros Hcode Hcall Hcallee Hphi Hop Hcap.
  assert (Hcollect : forall fs sh,
    CollectFunctions callee fs (kMaxCallPolymorphism cfg) sh (graph h) = Some (0, fs, sh)).
  { intros fs sh. unfold CollectFunctions, HeapObjectMatcher. rewrite Hphi. simpl.
    rewrite Hop. simpl.
    destruct (decide (kMaxCallPolymorphism cfg < ValueInputCount (op phi))); [reflexivity|lia]. }
  split; [exact Hcollect|].
  unfold Reduce.
  rewrite (bind_eval _ _ _ code h) by (apply on_graph_rd; exact Hcode).
  rewrite Hcall. simpl.
  unfold bind at 1. unfold gets at 1.
  destruct (decide (node ∈ seen_ h)).
  { exists h. auto. }
  unfold bind at 1. unfold modify at 1.
  rewrite (bind_eval _ _ _ callee (set_seen ({[node]} ∪ seen_ h) h))
    by (apply on_graph_rd; exact Hcallee).
  rewrite (bind_eval _ _ _ _ (set_seen ({[node]} ∪ seen_ h) h))
    by (apply on_graph_rd; apply Hcollect).
  simpl. eexists. split; [reflexivity|]. auto.
Qed.

(** ** The branches of a polymorphic substitution *)

Lemma Kill_Some node g u g' :
  Kill node g = Some (u, g') <->
  exists n, g !! node = Some n /\ g' = <[node := mkNode (op n) (inputs n) true]> g.
Proof.
  unfold Kill. destruct (g !! node) as [n|]; split.
  - intros [= <-]. eauto.
  - intros (n' & [= <-] & ->). destruct u. reflexivity.
  - discriminate.
  - intros (n' & [=] & _).
Qed.









(** One round of the loop returns when the slots it reads are there: what it
    returns in each of the three cases. *)
Lemma InlineCandidate_call_returns cfg force_inline candidate calls_array i call
    function can h :
  calls_array !! i = Some call ->
  functions candidate !! i = Some function ->
  (force_inline = true \/ can_inline_function candidate !! i = Some can) ->
  let decision :=
    force_inline
    || (can && (cumulative_count_ h <? FLAG_max_inlined_bytecode_size_cumulative cfg)%Z) in
  let outcome := inliner_ReduceJSCall cfg call (graph h) in
  let request := mkInlinerCall call (shared <$> function) (Changed outcome.2) in
  (decision = false ->
   InlineCandidate_call cfg force_inline candidate calls_array i h = Some (tt, h)) /\
  (decision = true -> Changed outcome.2 = false ->
   InlineCandidate_call cfg force_inline candidate calls_array i h
   = Some (tt, mkHeuristic outcome.1 (seen_ h) (candidates_ h) (cumulative_count_ h)
                 (inliner_calls h ++ [request]))) /\
  (decision = true -> Changed outcome.2 = true ->
   forall f size n,
     function = Some f -> bytecode_length (shared f) = Some size ->
     outcome.1 !! call = Some n ->
     let killed := <[call := mkNode (op n) (inputs n) true]> outcome.1 in
     IsDead call killed = Some true /\
     InlineCandidate_call cfg force_inline candidate calls_array i h
     = Some (tt, mkHeuristic killed (seen_ h) (candidates_ h)
                   (add_int (cumulative_count_ h) size) (inliner_calls h ++ [request]))).
Proof.
  intros Hcall Hfunction Hcan decision outcome request.
  assert (Hdecide : forall k : bool -> M unit,
    (decision0 <-
      (if force_inline then ret true
       else
         can_inline <- lift (can_inline_function candidate !! i) ;;
         count <- gets cumulative_count_ ;;
         ret (can_inline && (count <? FLAG_max_inlined_bytecode_size_cumulative cfg)%Z)) ;;
     k decision0) h = k decision h).
  { intros k. subst decision. destruct force_inline; [reflexivity|].
    destruct Hcan as [|Hcan]; [discriminate|].
    unfold bind at 1. unfold bind at 1. unfold lift, rd. rewrite Hcan. reflexivity. }
  unfold InlineCandidate_call.
  rewrite (bind_eval _ _ _ function h) by (unfold lift, rd; rewrite Hfunction; reflexivity).
  rewrite (bind_eval _ _ _ call h) by (unfold lift, rd; rewrite Hcall; reflexivity).
  rewrite Hdecide.
  assert (Hrequest : ReduceJSCall cfg call (shared <$> function) h
            = Some (outcome.2, mkHeuristic outcome.1 (seen_ h) (candidates_ h)
                                 (cumulative_count_ h) (inliner_calls h ++ [request]))).
  { apply ReduceJSCall_Some. split; reflexivity. }
  split; [|split].
  - intros ->. reflexivity.
  - intros -> Hunchanged. rewrite (bind_eval _ _ _ _ _ Hrequest), Hunchanged. reflexivity.
  - intros -> Hchanged f size n -> Hsize Hn. split.
    + unfold IsDead. rewrite list_lookup_insert_eq by (eapply lookup_lt_Some; eauto).
      reflexivity.
    + rewrite (bind_eval _ _ _ _ _ Hrequest), Hchanged.
      unfold bind, on_graph, Kill, lift, rd, add_cumulative_count, modify. simpl.
      rewrite Hn, Hsize. reflexivity.
Qed.





(** ** The collector in general mode *)

(** The candidate [Reduce] starts from. *)
Definition fresh_candidate (cfg : Config) (node : nat) : Candidate :=
  mkCandidate (replicate (kMaxCallPolymorphism cfg) None)
    (replicate (kMaxCallPolymorphism cfg) false) None 0 node UnknownFrequency 0.

(** The checks of [Reduce] that come before the handling of the general
    mode: the node is a call that has not been seen, its callee resolves to
    targets, not all of them are force-inlined and one at least can be
    inlined, the inlining depth is within the limit, and the mode is the
    general one.  [candidate] is the candidate so built and [small] tells
    whether all its targets are small. *)
Definition survives_to_general (cfg : Config) (fuel : nat) (node : nat)
    (h : JSInliningHeuristic) (candidate : Candidate) (small : bool) : Prop :=
  exists code callee num fs sh candidate2 summary frame_state f,
    opcode_of node (graph h) = Some code /\ IsInlineeOpcode code = true /\
    (node ∉ seen_ h) /\
    InputAt node 0 (graph h) = Some callee /\
    CollectFunctions callee (replicate (kMaxCallPolymorphism cfg) None)
      (kMaxCallPolymorphism cfg) None (graph h) = Some (num, fs, sh) /\
    num <> 0 /\ (1 < num -> FLAG_polymorphic_inlining cfg = true) /\
    Reduce_targets cfg 0 num
      (with_total_size (with_functions (fresh_candidate cfg node) num fs sh) 0,
       mkTargetSummary false true true) = Some (candidate2, summary) /\
    all_force_inline summary = false /\ can_inline summary = true /\
    GetFrameStateInput node (graph h) = Some frame_state /\
    inlining_level_exceeded cfg fuel frame_state 0 (graph h) = Some false /\
    call_frequency node (graph h) = Some f /\
    mode_ cfg = kGeneralInlining /\
    candidate = with_frequency candidate2 f /\ small = small_inline summary.

Lemma Reduce_reaches_general cfg fuel node h candidate small :
  survives_to_general cfg fuel node h candidate small ->
  Reduce cfg fuel node h
  = Reduce_general cfg fuel candidate small (set_seen ({[node]} ∪ seen_ h) h).
Proof.
  intros (code & callee & num & fs & sh & candidate2 & summary & frame_state & f &
          Hcode & Hcall & Hseen & Hcallee & Hcollect & Hnum & Hpoly & Htargets &
          Hforce & Hcan & Hframe & Hdepth & Hfreq & Hmode & -> & ->).
  unfold Reduce.
  rewrite (bind_eval _ _ _ code h) by (apply on_graph_rd; exact Hcode).
  rewrite Hcall. cbn [negb].
  rewrite (bind_eval _ _ _ (seen_ h) h) by reflexivity.
  destruct (decide (node ∈ seen_ h)); [contradiction|].
  set (h1 := set_seen ({[node]} ∪ seen_ h) h).
  rewrite (bind_eval _ _ _ tt h1) by reflexivity.
  rewrite (bind_eval _ _ _ callee h1) by (apply on_graph_rd; exact Hcallee).
  cbv zeta. cbn [functions shared_info].
  rewrite (bind_eval _ _ _ _ h1 (on_graph_rd _ h1 _ Hcollect)).
  cbv iota beta.
  destruct (decide (num = 0)); [contradiction|].
  assert (Hp : bool_decide (1 < num) && negb (FLAG_polymorphic_inlining cfg) = false).
  { destruct (bool_decide (1 < num)) eqn:E; [|reflexivity].
    apply bool_decide_eq_true in E. rewrite (Hpoly E). reflexivity. }
  rewrite Hp.
  unfold fresh_candidate in Htargets.
  rewrite (bind_eval _ _ _ (candidate2, summary) h1)
    by (unfold lift, rd; rewrite Htargets; reflexivity).
  cbv iota beta. rewrite Hforce, Hcan. cbn [negb].
  rewrite (bind_eval _ _ _ frame_state h1) by (apply on_graph_rd; exact Hframe).
  rewrite (bind_eval _ _ _ false h1) by (apply on_graph_rd; exact Hdepth).
  rewrite (bind_eval _ _ _ f h1) by (apply on_graph_rd; exact Hfreq).
  rewrite Hmode. reflexivity.
Qed.

Lemma Reduce_target_node cfg i acc acc' :
  Reduce_target cfg i acc = Some acc' -> node acc'.1 = node acc.1.
Proof.
  destruct acc as [candidate summary]. unfold Reduce_target. intros H.
  destruct (target_shared candidate i) as [[sh|]|]; simpl in H; try discriminate.
  destruct (array_set i _ _) as [flags|]; simpl in H; [|discriminate].
  destruct (CanInlineFunction cfg sh); simpl in H.
  - destruct (bytecode_length sh); simpl in H; [|discriminate].
    injection H as <-. reflexivity.
  - injection H as <-. reflexivity.
Qed.

Lemma Reduce_targets_node cfg remaining : forall i acc acc',
  Reduce_targets cfg i remaining acc = Some acc' -> node acc'.1 = node acc.1.
Proof.
  induction remaining as [|remaining IH]; intros i acc acc' H; simpl in H.
  - injection H as <-. reflexivity.
  - destruct (Reduce_target cfg i acc) as [acc1|] eqn:E; simpl in H; [|discriminate].
    rewrite (IH _ _ _ H). eapply Reduce_target_node. exact E.
Qed.

Lemma survives_to_general_node cfg fuel call h candidate small :
  survives_to_general cfg fuel call h candidate small -> node candidate = call.
Proof.
  intros (code & callee & num & fs & sh & candidate2 & summary & frame_state & f &
          _ & _ & _ & _ & _ & _ & _ & Htargets & _ & _ & _ & _ & _ & _ & -> & _).
  apply Reduce_targets_node in Htargets. simpl in *. exact Htargets.
Qed.

(** Insertion into the backlog keeps what was there, and adds the candidate
    unless a candidate of the same call node is there already. *)
Lemma set_insert_keeps c l x : x ∈ l -> x ∈ set_insert c l.
Proof.
  induction l as [|y l IH]; simpl; intros Hx.
  - inversion Hx.
  - destruct (CandidateCompare c y); [right; exact Hx|].
    destruct (CandidateCompare y c); [|exact Hx].
    apply elem_of_cons in Hx. destruct Hx as [->|Hx]; [left|right; auto].
Qed.

Lemma set_insert_elem c l x : x ∈ set_insert c l -> x = c \/ x ∈ l.
Proof.
  induction l as [|y l IH]; simpl; intros Hx.
  - apply list_elem_of_singleton in Hx. auto.
  - destruct (CandidateCompare c y).
    { apply elem_of_cons in Hx. tauto. }
    destruct (CandidateCompare y c); [|auto].
    apply elem_of_cons in Hx. destruct Hx as [->|Hx]; [right; left|].
    destruct (IH Hx); [auto|right; right; auto].
Qed.

Lemma set_insert_new c l :
  (forall x, x ∈ l -> node x <> node c) -> c ∈ set_insert c l.
Proof.
  induction l as [|y l IH]; simpl; intros Hl.
  - left.
  - destruct (CandidateCompare c y) eqn:E1; [left|].
    destruct (CandidateCompare y c) eqn:E2.
    + right. apply IH. intros x Hx. apply Hl. right. exact Hx.
    + exfalso. apply (Hl y); [left|].
      symmetry. apply equivalent_node. split; assumption.
Qed.

(** The frequency of the candidate is known and below the threshold. *)
Definition below_min_frequency (cfg : Config) (candidate : Candidate) : Prop :=
  exists value, frequency candidate = KnownFrequency value
                /\ (value < FLAG_min_inlining_frequency cfg)%Q.

(** C6, with the bound as the source has it: in general mode a candidate
    that survives the earlier checks is discarded when its frequency is known
    and below the minimum frequency; otherwise it is substituted at once when
    all its targets are small and the cumulative count does not exceed the
    absolute cap (the count may equal the cap); otherwise it is inserted into
    the backlog and [Reduce] reports no change. *)
Theorem Reduce_in_general_mode cfg fuel call h candidate small :
  survives_to_general cfg fuel call h candidate small ->
  let h1 := set_seen ({[call]} ∪ seen_ h) h in
  (below_min_frequency cfg candidate ->
   Reduce cfg fuel call h = Some (NoChange, h1)) /\
  (~ below_min_frequency cfg candidate -> small = true ->
   (cumulative_count_ h <= FLAG_max_inlined_bytecode_size_absolute cfg)%Z ->
   Reduce cfg fuel call h = InlineCandidate cfg fuel candidate true h1) /\
  (~ below_min_frequency cfg candidate ->
   small = false \/ (FLAG_max_inlined_bytecode_size_absolute cfg < cumulative_count_ h)%Z ->
   Reduce cfg fuel call h
   = Some (NoChange, set_candidates (set_insert candidate (candidates_ h)) h1) /\
   ((forall c, c ∈ candidates_ h -> node c ∈ seen_ h) ->
    candidate ∈ set_insert candidate (candidates_ h))).
Proof.
  intros Hsurvives h1. rewrite (Reduce_reaches_general _ _ _ _ _ _ Hsurvives).
  pose proof (survives_to_general_node _ _ _ _ _ _ Hsurvives) as Hnode.
  assert (Hfresh : call ∉ seen_ h).
  { destruct Hsurvives as (? & ? & ? & ? & ? & ? & ? & ? & ? & _ & _ & Hfresh & _).
    exact Hfresh. }
  fold h1. unfold Reduce_general.
  assert (Hbelow : below_min_frequency cfg candidate <->
    match frequency candidate with
    | KnownFrequency value => Qltb value (FLAG_min_inlining_frequency cfg)
    | UnknownFrequency => false
    end = true).
  { unfold below_min_frequency. destruct (frequency candidate) as [|v].
    - split; [intros (? & [=] & _)|discriminate].
    - rewrite Qltb_lt. split; [intros (? & [= <-] & ?); auto|eauto]. }
  split; [|split].
  - intros H. apply Hbelow in H. rewrite H. reflexivity.
  - intros H -> Hcount.
    destruct (match frequency candidate with
              | KnownFrequency value => Qltb value (FLAG_min_inlining_frequency cfg)
              | UnknownFrequency => false
              end); [exfalso; apply H, Hbelow; reflexivity|].
    rewrite (bind_eval _ _ _ (cumulative_count_ h) h1) by reflexivity.
    apply Z.leb_le in Hcount. rewrite Hcount. reflexivity.
  - intros H Hnot. split.
    + destruct (match frequency candidate with
                | KnownFrequency value => Qltb value (FLAG_min_inlining_frequency cfg)
                | UnknownFrequency => false
                end); [exfalso; apply H, Hbelow; reflexivity|].
      rewrite (bind_eval _ _ _ (cumulative_count_ h) h1) by reflexivity.
      assert (Hc : small && (cumulative_count_ h
                             <=? FLAG_max_inlined_bytecode_size_absolute cfg)%Z = false).
      { destruct Hnot as [->|Hover]; [reflexivity|].
        apply andb_false_iff. right. apply Z.leb_gt. exact Hover. }
      rewrite Hc. reflexivity.
    + intros Hseen. apply set_insert_new. intros x Hx Heq.
      apply Hfresh. apply Hseen in Hx. rewrite Heq, Hnode in Hx. exact Hx.
Qed.

(** ** Draining the backlog *)

(** The backlog is kept in the order of the comparator. *)
Definition ordered (backlog : list Candidate) : Prop :=
  StronglySorted (fun a b => CandidateCompare a b = true) backlog.

Lemma set_insert_ordered c l : ordered l -> ordered (set_insert c l).
Proof.
  unfold ordered. induction l as [|x l IH]; simpl; intros Hl.
  - repeat constructor.
  - destruct (CandidateCompare c x) eqn:E1.
    + constructor; [exact Hl|]. constructor; [exact E1|].
      apply StronglySorted_inv in Hl. destruct Hl as [_ Hx].
      eapply Forall_impl; [exact Hx|]. intros y Hy. simpl in Hy.
      eapply CandidateCompare_transitive; eauto.
    + destruct (CandidateCompare x c) eqn:E2; [|exact Hl].
      apply StronglySorted_inv in Hl. destruct Hl as [Hl Hx].
      constructor; [apply IH; exact Hl|].
      apply Forall_forall. intros y Hy. apply set_insert_elem in Hy.
      destruct Hy as [->|Hy]; [exact E2|].
      rewrite Forall_forall in Hx. apply Hx. exact Hy.
Qed.

(** The cost reserved for a candidate exceeds the cumulative cap: the
    cumulative count plus the scaled total size, converted to [int], the sum
    being taken on [int] (line 207). *)
Definition over_budget (cfg : Config) (h : JSInliningHeuristic) (candidate : Candidate)
    : Prop :=
  (FLAG_max_inlined_bytecode_size_cumulative cfg
   < add_int (cumulative_count_ h)
       (static_cast_int cfg
          (times_reserve_inline_budget_scale_factor cfg (total_size candidate))))%Z.

Lemma Finalize_unfold cfg fuel h :
  Finalize cfg fuel h = Finalize_loop cfg fuel (length (candidates_ h)) h.
Proof.
  unfold Finalize. rewrite (bind_eval _ _ _ (candidates_ h) h) by reflexivity.
  destruct (candidates_ h) as [|c cs] eqn:E; [|reflexivity].
  simpl. rewrite (bind_eval _ _ _ (candidates_ h) h) by reflexivity.
  rewrite E. reflexivity.
Qed.

Lemma Finalize_loop_step cfg fuel rounds h candidate rest :
  candidates_ h = candidate :: rest ->
  Finalize_loop cfg fuel (S rounds) h
  = let h1 := set_candidates rest h in
    if (add_int (cumulative_count_ h)
          (static_cast_int cfg
             (times_reserve_inline_budget_scale_factor cfg (total_size candidate)))
        >? FLAG_max_inlined_bytecode_size_cumulative cfg)%Z
    then Finalize_loop cfg fuel rounds h1
    else
      (is_dead <- on_graph (rd (IsDead (node candidate))) ;;
       if negb is_dead then
         reduction <- InlineCandidate cfg fuel candidate false ;;
         if Changed reduction then ret tt else Finalize_loop cfg fuel rounds
       else Finalize_loop cfg fuel rounds) h1.
Proof.
  intros E. simpl.
  rewrite (bind_eval _ _ _ (candidates_ h) h) by reflexivity. rewrite E.
  rewrite (bind_eval _ _ _ tt (set_candidates rest h)) by reflexivity.
  rewrite (bind_eval _ _ _ (cumulative_count_ h) (set_candidates rest h)) by reflexivity.
  destruct (_ >? _)%Z; reflexivity.
Qed.


(** ** The backlog of the reachable states *)

(** The backlog is ordered by the comparator, and the call node of each of
    its candidates has been seen. *)
Definition backlog_invariant (h : JSInliningHeuristic) : Prop :=
  ordered (candidates_ h) /\ forall c, c ∈ candidates_ h -> node c ∈ seen_ h.

(** The invariant is kept, with [n] being kept in the seen-set. *)
Definition keeps_backlog (n : nat) (h h' : JSInliningHeuristic) : Prop :=
  backlog_invariant h /\ n ∈ seen_ h -> backlog_invariant h' /\ n ∈ seen_ h'.

Lemma keeps_backlog_refl n h : keeps_backlog n h h.
Proof. intros H. exact H. Qed.

Lemma keeps_backlog_trans n h1 h2 h3 :
  keeps_backlog n h1 h2 -> keeps_backlog n h2 h3 -> keeps_backlog n h1 h3.
Proof. intros H1 H2 H. apply H2, H1, H. Qed.

Lemma substitutes_keeps_backlog n h h' : substitutes h h' -> keeps_backlog n h h'.
Proof.
  intros (_ & Hseen & Hcs) [[Ho Hs] Hn]. unfold backlog_invariant.
  rewrite Hseen, Hcs. auto.
Qed.

Lemma keeps_bind_lift {A B} (R : JSInliningHeuristic -> JSInliningHeuristic -> Prop)
    (o : option A) (k : A -> M B) :
  (forall a, o = Some a -> keeps R (k a)) -> keeps R (bind (lift o) k).
Proof.
  intros Hk h b h' H. apply bind_Some in H. destruct H as (a & h1 & H1 & H).
  apply lift_Some in H1. destruct H1 as [-> ->]. eapply Hk; eauto.
Qed.

Lemma Reduce_general_keeps_backlog cfg fuel candidate small :
  keeps (keeps_backlog (node candidate)) (Reduce_general cfg fuel candidate small).
Proof.
  unfold Reduce_general.
  destruct (match frequency candidate with
            | KnownFrequency value => Qltb value (FLAG_min_inlining_frequency cfg)
            | UnknownFrequency => false
            end).
  { apply keeps_ret. apply keeps_backlog_refl. }
  apply keeps_bind; [apply keeps_backlog_trans|apply keeps_gets; apply keeps_backlog_refl|].
  intros count. destruct (small && _).
  - eapply keeps_weaken; [apply substitutes_keeps_backlog|apply InlineCandidate_substitutes].
  - apply keeps_bind; [apply keeps_backlog_trans| |intros _; apply keeps_ret; apply keeps_backlog_refl].
    intros h u h' H. apply modify_Some in H. subst h'.
    intros [[Ho Hs] Hn]. split; [|exact Hn]. split; simpl.
    + apply set_insert_ordered. exact Ho.
    + intros c Hc. apply set_insert_elem in Hc. destruct Hc as [->|Hc]; auto.
Qed.

Lemma Reduce_keeps_backlog cfg fuel node h r h' :
  backlog_invariant h -> Reduce cfg fuel node h = Some (r, h') -> backlog_invariant h'.
Proof.
  intros Hinv H. unfold Reduce in H.
  apply bind_Some in H. destruct H as (code & h0 & H0 & H).
  apply on_graph_rd_Some in H0. destruct H0 as [_ ->].
  destruct (negb (IsInlineeOpcode code)).
  { apply ret_Some in H. destruct H as [_ ->]. exact Hinv. }
  apply bind_Some in H. destruct H as (seen & h0 & H0 & H).
  apply gets_Some in H0. destruct H0 as [-> ->].
  destruct (decide (node ∈ seen_ h)).
  { apply ret_Some in H. destruct H as [_ ->]. exact Hinv. }
  apply bind_Some in H. destruct H as (u & h0 & H0 & H).
  apply modify_Some in H0. subst h0.
  match type of H with
  | ?m ?s = Some _ => assert (Hrest : keeps (keeps_backlog node) m)
  end.
  { repeat first
      [ apply keeps_bind_lift; intros [c t] Htargets
      | apply (keeps_bind _ (keeps_backlog_trans node))
      | apply (keeps_lift _ (keeps_backlog_refl node))
      | apply (keeps_gets _ (keeps_backlog_refl node))
      | apply (keeps_ret _ (keeps_backlog_refl node))
      | (eapply keeps_weaken;
         [apply substitutes_keeps_backlog|apply substitutes_on_graph])
      | (eapply keeps_weaken;
         [apply substitutes_keeps_backlog|apply InlineCandidate_substitutes])
      | match goal with
        | |- keeps _ (Reduce_general _ _ _ _) => fail 1
        | |- keeps _ (if ?c then _ else _) => destruct c
        | |- keeps _ (match ?x with _ => _ end) => destruct x
        end
      | match goal with
        | |- keeps _ (Reduce_general _ _ _ _) => fail 1
        | |- _ => intros ?
        end ].
    apply Reduce_targets_node in Htargets. simpl in Htargets.
    match goal with
    | |- keeps _ (Reduce_general _ _ (with_frequency ?c' ?f) ?s) =>
        pose proof (Reduce_general_keeps_backlog cfg fuel (with_frequency c' f) s) as Hg
    end.
    simpl in Hg. rewrite Htargets in Hg. exact Hg. }
  apply Hrest in H. apply H. destruct Hinv as [Ho Hs]. split; [|simpl; set_solver].
  split; [exact Ho|]. intros c Hc. simpl in *. apply Hs in Hc. set_solver.
Qed.

Lemma Finalize_loop_keeps_backlog cfg fuel rounds : forall h h',
  backlog_invariant h -> Finalize_loop cfg fuel rounds h = Some (tt, h') ->
  backlog_invariant h'.
Proof.
  induction rounds as [|rounds IH]; intros h h' Hinv H.
  - simpl in H. apply bind_Some in H. destruct H as (cs & h0 & H0 & H).
    apply gets_Some in H0. destruct H0 as [-> ->].
    destruct (candidates_ h); [|discriminate].
    apply ret_Some in H. destruct H as [_ ->]. exact Hinv.
  - destruct (candidates_ h) as [|candidate rest] eqn:E.
    + simpl in H. apply bind_Some in H. destruct H as (cs & h0 & H0 & H).
      apply gets_Some in H0. destruct H0 as [-> ->]. rewrite E in H.
      apply ret_Some in H. destruct H as [_ ->]. exact Hinv.
    + rewrite (Finalize_loop_step cfg fuel rounds h candidate rest E) in H. cbv zeta in H.
      assert (Hinv1 : backlog_invariant (set_candidates rest h)).
      { destruct Hinv as [Ho Hs]. rewrite E in Ho, Hs.
        apply StronglySorted_inv in Ho. split; [tauto|].
        intros c Hc. simpl in *. apply Hs. right. exact Hc. }
      destruct (_ >? _)%Z; [eapply IH; eauto|].
      apply bind_Some in H. destruct H as (is_dead & h0 & H0 & H).
      apply on_graph_rd_Some in H0. destruct H0 as [_ ->].
      destruct (negb is_dead); [|eapply IH; eauto].
      apply bind_Some in H. destruct H as (reduction & h2 & H2 & H).
      assert (Hinv2 : backlog_invariant h2).
      { destruct (InlineCandidate_substitutes _ _ _ _ _ _ _ H2) as (_ & Hseen & Hcs).
        unfold backlog_invariant. rewrite Hseen, Hcs. exact Hinv1. }
      destruct (Changed reduction); [|eapply IH; eauto].
      apply ret_Some in H. destruct H as [_ ->]. exact Hinv2.
Qed.

(** Every state reached from a state with an ordered backlog of seen call
    nodes, the initial state with its empty backlog for one, has such a
    backlog again. *)
Lemma run_keeps_backlog cfg operations : forall h h',
  backlog_invariant h -> run cfg operations h = Some (tt, h') -> backlog_invariant h'.
Proof.
  induction operations as [|o rest IH]; intros h h' Hinv H; simpl in H.
  - apply ret_Some in H. destruct H as [_ ->]. exact Hinv.
  - apply bind_Some in H. destruct H as ([] & h1 & H1 & H).
    eapply IH; [|exact H]. destruct o; simpl in H1.
    + apply bind_Some in H1. destruct H1 as (r & h0 & H0 & H1).
      apply ret_Some in H1. destruct H1 as [_ ->].
      eapply Reduce_keeps_backlog; eauto.
    + rewrite Finalize_unfold in H1. eapply Finalize_loop_keeps_backlog; eauto.
Qed.

Lemma initial_backlog_invariant g seen count requests :
  backlog_invariant (mkHeuristic g seen [] count requests).
Proof. split; [constructor|]. intros c Hc. inversion Hc. Qed.

(** ** Rounds and fuel *)

(** The round counter of the drain never runs out: with at least as many
    rounds as the backlog has candidates, the loop is the drain itself. *)
Lemma Finalize_loop_rounds cfg fuel rounds : forall h,
  length (candidates_ h) <= rounds ->
  Finalize_loop cfg fuel rounds h = Finalize cfg fuel h.
Proof.
  induction rounds as [|rounds IH]; intros h Hlen.
  - rewrite Finalize_unfold. destruct (candidates_ h); [reflexivity|simpl in Hlen; lia].
  - rewrite Finalize_unfold.
    destruct (candidates_ h) as [|candidate rest] eqn:E.
    + simpl. rewrite !(bind_eval _ _ _ (candidates_ h) h) by reflexivity.
      rewrite E. reflexivity.
    + simpl length in *.
      rewrite !(Finalize_loop_step cfg fuel _ h candidate rest E). cbv zeta.
      set (h1 := set_candidates rest h).
      assert (Hrest : forall h2, candidates_ h2 = rest ->
                Finalize_loop cfg fuel rounds h2 = Finalize_loop cfg fuel (length rest) h2).
      { intros h2 E2. rewrite IH by (rewrite E2; lia).
        rewrite Finalize_unfold, E2. reflexivity. }
      destruct (_ >? _)%Z; [apply Hrest; reflexivity|].
      unfold bind at 1 3.
      destruct (on_graph (rd (IsDead (node candidate))) h1) as [[is_dead h2]|] eqn:Edead;
        [|reflexivity].
      apply on_graph_rd_Some in Edead. destruct Edead as [_ ->].
      destruct (negb is_dead); [|apply Hrest; reflexivity].
      unfold bind.
      destruct (InlineCandidate cfg fuel candidate false h1) as [[reduction h2]|] eqn:Einline;
        [|reflexivity].
      destruct (Changed reduction); [reflexivity|].
      apply Hrest.
      destruct (InlineCandidate_substitutes _ _ _ _ _ _ _ Einline) as (_ & _ & Hsame).
      exact Hsame.
Qed.

(** More fuel does not change a result. *)
Lemma inlining_level_exceeded_fuel cfg g fuel : forall fuel' frame_state level result,
  fuel <= fuel' ->
  inlining_level_exceeded cfg fuel frame_state level g = Some result ->
  inlining_level_exceeded cfg fuel' frame_state level g = Some result.
Proof.
  induction fuel as [|fuel IH]; intros fuel' frame_state level result Hle H; [discriminate|].
  destruct fuel' as [|fuel']; [lia|]. simpl in *.
  destruct (opcode_of frame_state g) as [code|]; [|discriminate]. simpl in *.
  destruct (decide (code = kFrameState)); [|exact H].
  destruct (op_of frame_state g) as [o|]; [|discriminate]. simpl in *.
  destruct (parameter o); try discriminate.
  destruct (IsJSFunctionType type).
  - destruct (_ >? _)%Z; [exact H|].
    destruct (GetFrameStateInput frame_state g); [|discriminate]. simpl in *.
    apply IH; [lia|exact H].
  - destruct (GetFrameStateInput frame_state g); [|discriminate]. simpl in *.
    apply IH; [lia|exact H].
Qed.

(** The walk along a chain of [depth] frame states needs no more than
    [depth + 1] units of fuel. *)
Fixpoint frame_state_chain (g : Graph) (frame_state : nat) (depth : nat) : Prop :=
  match depth with
  | O => exists code, opcode_of frame_state g = Some code /\ code <> kFrameState
  | S depth' =>
      exists type next,
        opcode_of frame_state g = Some kFrameState /\
        (parameter <$> op_of frame_state g) = Some (FrameStateInfo type) /\
        GetFrameStateInput frame_state g = Some next /\
        frame_state_chain g next depth'
  end.

Lemma inlining_level_exceeded_total cfg g depth : forall frame_state level,
  frame_state_chain g frame_state depth ->
  exists result, inlining_level_exceeded cfg (S depth) frame_state level g = Some result.
Proof.
  induction depth as [|depth IH]; intros frame_state level Hchain.
  - destruct Hchain as (code & Hcode & Hne). simpl. rewrite Hcode. simpl.
    destruct (decide (code = kFrameState)); [contradiction|]. eauto.
  - destruct Hchain as (type & next & Hcode & Hparam & Hnext & Hrest).
    change (inlining_level_exceeded cfg (S (S depth)) frame_state level g)
      with (code ← opcode_of frame_state g;
            if decide (code = kFrameState) then
              o ← op_of frame_state g;
              match parameter o with
              | FrameStateInfo type =>
                  if IsJSFunctionType type then
                    if (level + 1 >? FLAG_max_inlining_levels cfg)%Z then Some true
                    else
                      next ← GetFrameStateInput frame_state g;
                      inlining_level_exceeded cfg (S depth) next (level + 1)%Z g
                  else
                    next ← GetFrameStateInput frame_state g;
                    inlining_level_exceeded cfg (S depth) next level g
              | _ => None
              end
            else Some false).
    rewrite Hcode. simpl.
    destruct (op_of frame_state g) as [o|]; [|discriminate]. simpl in *.
    injection Hparam as ->. rewrite Hnext. simpl.
    destruct (IsJSFunctionType type); [destruct (_ >? _)%Z; [eauto|]|]; apply IH; exact Hrest.
Qed.

Lemma CollectStateValuesOwnedUses_loop_extends
    (rec rec' : nat -> list NodeAndIndex -> option (bool * list NodeAndIndex))
    node state_values max_uses g :
  (forall input uses r, rec input uses = Some r -> rec' input uses = Some r) ->
  forall remaining i uses r,
    CollectStateValuesOwnedUses_loop rec node state_values i remaining uses max_uses g
      = Some r ->
    CollectStateValuesOwnedUses_loop rec' node state_values i remaining uses max_uses g
      = Some r.
Proof.
  intros Hrec. induction remaining as [|remaining IH]; intros i uses r H; simpl in *.
  - exact H.
  - destruct (InputAt state_values i g) as [input|]; [|discriminate]. simpl in *.
    destruct (opcode_of input g) as [code|]; [|discriminate]. simpl in *.
    destruct (decide (code = kStateValues)).
    + destruct (rec input uses) as [[collected uses']|] eqn:E; [|discriminate].
      rewrite (Hrec _ _ _ E). simpl in *.
      destruct collected; [apply IH; exact H|exact H].
    + destruct (decide (input = node)); [|apply IH; exact H].
      destruct (decide (max_uses ≤ length uses)); [exact H|apply IH; exact H].
Qed.

Lemma CollectStateValuesOwnedUses_fuel node max_uses g fuel :
  forall fuel' state_values uses r,
    fuel <= fuel' ->
    CollectStateValuesOwnedUses fuel node state_values uses max_uses g = Some r ->
    CollectStateValuesOwnedUses fuel' node state_values uses max_uses g = Some r.
Proof.
  induction fuel as [|fuel IH]; intros fuel' state_values uses r Hle H; [discriminate|].
  destruct fuel' as [|fuel']; [lia|]. simpl in *.
  destruct (decide (1 < UseCount state_values g)); [exact H|].
  destruct (InputCount state_values g) as [count|]; [|discriminate]. simpl in *.
  eapply CollectStateValuesOwnedUses_loop_extends; [|exact H].
  intros input uses' r' H'. apply IH; [lia|exact H'].
Qed.

Lemma DuplicateStateValuesAndRename_loop_extends (rec rec' : nat -> G nat)
    state_values from to :
  (forall input g r, rec input g = Some r -> rec' input g = Some r) ->
  forall remaining i copy g r,
    DuplicateStateValuesAndRename_loop rec state_values from to i remaining copy g = Some r ->
    DuplicateStateValuesAndRename_loop rec' state_values from to i remaining copy g = Some r.
Proof.
  intros Hrec. induction remaining as [|remaining IH]; intros i copy g r H; simpl in *.
  - exact H.
  - destruct r as [result g'].
    apply bind_Some in H. destruct H as (input & g1 & H1 & H).
    rewrite (bind_eval _ _ _ _ _ H1).
    apply bind_Some in H. destruct H as (code & g2 & H2 & H).
    rewrite (bind_eval _ _ _ _ _ H2).
    apply bind_Some in H. destruct H as (processed & g3 & H3 & H).
    assert (H3' : (if decide (code = kStateValues) then rec' input
                   else if decide (input = from) then ret from else ret input) g2
                  = Some (processed, g3)).
    { destruct (decide (code = kStateValues)); [apply Hrec; exact H3|exact H3]. }
    rewrite (bind_eval _ _ _ _ _ H3').
    apply bind_Some in H. destruct H as (copy' & g4 & H4 & H).
    rewrite (bind_eval _ _ _ _ _ H4). apply IH. exact H.
Qed.

Lemma DuplicateStateValuesAndRename_fuel from to mode fuel :
  forall fuel' state_values g r,
    fuel <= fuel' ->
    DuplicateStateValuesAndRename fuel state_values from to mode g = Some r ->
    DuplicateStateValuesAndRename fuel' state_values from to mode g = Some r.
Proof.
  induction fuel as [|fuel IH]; intros fuel' state_values g r Hle H; [discriminate|].
  destruct fuel' as [|fuel']; [lia|]. simpl in *. destruct r as [result g'].
  apply bind_Some in H. destruct H as (use_count & g1 & H1 & H).
  rewrite (bind_eval _ _ _ _ _ H1).
  destruct (decide (1 < use_count)); [exact H|].
  apply bind_Some in H. destruct H as (count & g2 & H2 & H).
  rewrite (bind_eval _ _ _ _ _ H2).
  apply bind_Some in H. destruct H as (copy' & g3 & H3 & H).
  erewrite bind_eval; [exact H|].
  eapply DuplicateStateValuesAndRename_loop_extends; [|exact H3].
  intros input g0 r0 H0. apply IH; [lia|exact H0].
Qed.

(** ** The properties on the concrete instances *)

Lemma cumulative_count_monotone_witness :
  let cfg := Example.config 30 100000 1000 (6 # 5) Example.accepting in
  let h := Example.initial (Example.mono_graph Example.F0 UnknownFrequency) in
  exists h',
    run cfg [DoReduce 10 4; DoFinalize 10] h = Some (tt, h') /\
    cumulative_count_ h' = 50%Z /\
    exists requests,
      inliner_calls h' = inliner_calls h ++ requests /\
      cumulative_count_ h' = charged (cumulative_count_ h) requests /\
      cumulative_count_ h' = (cumulative_count_ h + total_inlined_size requests)%Z /\
      (cumulative_count_ h <= cumulative_count_ h')%Z.
Proof.
  intros cfg h. eexists. split; [vm_compute; reflexivity|].
  split; [reflexivity|].
  destruct (cumulative_count_monotone cfg [DoReduce 10 4; DoFinalize 10] h _
              ltac:(vm_compute; reflexivity))
    as (requests & Hc & _ & Hn & Hrange).
  exists requests. split; [exact Hc|]. split; [exact Hn|].
  simpl in Hc. subst requests. apply Hrange; vm_compute; discriminate.
Defined.

(** The claim C3 as stated has the count never decrease.  With the size
    limits and the absolute cap at [kMaxInt], two calls of small functions,
    of [kMaxInt] bytes (node 4) and of 10 bytes (node 6), are substituted by
    [Reduce] at once, the count being within the absolute cap each time:
    the count is [kMaxInt] after the first, and the addition of line 513
    for the second makes it -2147483639, below the count of 0 the pass
    began with. *)
Lemma cumulative_count_wraps_past_the_int_range :
  ~ (forall cfg operations h h',
        run cfg operations h = Some (tt, h') ->
        (cumulative_count_ h <= cumulative_count_ h')%Z).
Proof.
  intros Hclaim.
  pose (cfg := mkConfig 2147483647 2147483647 2147483647 1000 5 1 true
                 (fun size => inject_Z size) (fun _ => kMinInt) 4 kGeneralInlining
                 Example.accepting (fun _ _ _ _ g => g) (fun _ _ => None)).
  pose (g := [ Example.start;
               Example.constant (mkJSFunction 100 (Example.descriptor 2147483647));
               mkNode (Example.StateValues 0) [] false;
               mkNode Example.FrameState [2; 2; 2; 0; 1; 0] false;
               mkNode (Example.JSCall UnknownFrequency) [1; 0; 0; 3; 0; 0] false;
               Example.constant Example.F1;
               mkNode (Example.JSCall UnknownFrequency) [5; 0; 0; 3; 0; 0] false ]).
  pose (h := Example.initial g).
  assert (E1 : (fun r => cumulative_count_ r.2) <$> run cfg [DoReduce 10 4] h
               = Some 2147483647%Z) by (vm_compute; reflexivity).
  assert (E : (fun r => cumulative_count_ r.2) <$> run cfg [DoReduce 10 4; DoReduce 10 6] h
              = Some (-2147483639)%Z) by (vm_compute; reflexivity).
  clear E1.
  destruct (run cfg [DoReduce 10 4; DoReduce 10 6] h) as [[[] h']|] eqn:Hrun;
    [|discriminate E].
  specialize (Hclaim cfg [DoReduce 10 4; DoReduce 10 6] h h' Hrun).
  simpl in E. injection E as E. rewrite E in Hclaim. simpl in Hclaim. lia.
Qed.

Lemma phi_over_polymorphism_cap_witness :
  let cfg := Example.config 30 100000 1000 (6 # 5) Example.accepting in
  let h := Example.initial Example.wide_graph in
  exists h',
    Reduce cfg 10 4 h = Some (NoChange, h') /\
    graph h' = graph h /\ candidates_ h' = candidates_ h /\
    inliner_calls h' = inliner_calls h /\ cumulative_count_ h' = cumulative_count_ h.
Proof.
  intros cfg h.
  refine (proj2 (phi_over_polymorphism_cap cfg 10 4 kJSCall 3
                   (mkNode (Phi 5) [1; 1; 1; 1; 1; 2] false) h _ _ _ _ _ _)).
  - reflexivity.
  - reflexivity.
  - reflexivity.
  - reflexivity.
  - reflexivity.
  - vm_compute. lia.
Defined.

Lemma DuplicateFrameStateAndRename_spares_shared_witness :
  let g := Example.poly_graph 2 3 in
  exists result g',
    DuplicateFrameStateAndRename 5 7 4 1 kChangeInPlace g = Some (result, g') /\
    (forall n nd, g !! n = Some nd -> 1 < UseCount n g -> g' !! n = Some nd) /\
    (forall n nd, g !! n = Some nd -> g' !! n <> Some nd ->
                  UseCount n g = 1 /\ kChangeInPlace = kChangeInPlace).
Proof.
  intros g. eexists _, _. split; [vm_compute; reflexivity|].
  assert (Hused : 1 <= UseCount 7 g) by (vm_compute; lia).
  destruct (DuplicateFrameStateAndRename_spares_shared 5 7 4 1 kChangeInPlace g _ _ Hused
              ltac:(vm_compute; reflexivity)) as (H1 & H2 & _).
  split; [exact H1|exact H2].
Defined.

Lemma CreateOrReuseDispatch_rebuilds_witness :
  let g := Example.poly_graph 2 0 in
  let call := mkNode (Example.JSCall UnknownFrequency) [4; 0; 0; 7; 5; 0] false in
  exists arrays' new,
    CreateOrReuseDispatch 5 8 4 Example.poly_candidate Example.poly_arrays 6 g
      = Some (arrays', g ++ new) /\
    dispatch_chain 4 call (g ++ new) [Example.F0; Example.F1] 0 (take 2 (calls arrays')) /\
    take 2 (if_successes arrays') = take 2 (calls arrays') /\
    count_opcode kReferenceEqual new = 1 /\
    count_opcode kBranch new = 1.
Proof.
  intros g call.
  refine (CreateOrReuseDispatch_rebuilds 5 8 4 Example.poly_candidate Example.poly_arrays
            g call [Example.F0; Example.F1] 0 Example.poly_arrays g _ _ _ _ _ _ _ _ _).
  - vm_compute. reflexivity.
  - reflexivity.
  - reflexivity.
  - reflexivity.
  - reflexivity.
  - reflexivity.
  - intros [|[|i]] f; simpl; intros E; try discriminate; injection E as <-; reflexivity.
  - simpl. lia.
  - simpl. lia.
Defined.

Lemma Reduce_processes_once_witness :
  let cfg := Example.config 30 100000 1000 (6 # 5) Example.accepting in
  let h := Example.initial (Example.mono_graph Example.F0 UnknownFrequency) in
  exists h2,
    (Reduce cfg 10 4 ;; Finalize cfg 10) h = Some (tt, h2) /\
    Reduce cfg 10 4 h2 = Some (NoChange, h2).
Proof.
  intros cfg h. eexists. split; [vm_compute; reflexivity|].
  eapply (Reduce_processes_once cfg 10 4 kJSCall h _ _ [DoFinalize 10] _ 10).
  - reflexivity.
  - reflexivity.
  - vm_compute. reflexivity.
  - vm_compute. reflexivity.
  - vm_compute. eexists. reflexivity.
Defined.

Lemma TryReuseDispatch_declines_untouched_witness :
  let g := Example.poly_graph 8 3 in
  let arrays := mkDispatch (replicate 4 0) (replicate 5 0) [4; 0; 0; 7; 5; 3] in
  TryReuseDispatch 5 8 4 Example.poly_candidate arrays 6 g = Some ((false, arrays), g) /\
  CreateOrReuseDispatch 5 8 4 Example.poly_candidate arrays 6 g
  = (fallthrough_control <- rd (GetControlInput 8) ;;
     final <- for_fold 0 2 (CreateDispatch_step 8 4 Example.poly_candidate 6)
                (fallthrough_control, arrays) ;;
     ret final.2) g.
Proof.
  intros g arrays.
  assert (H : TryReuseDispatch 5 8 4 Example.poly_candidate arrays 6 g
              = Some ((false, arrays), g)) by (vm_compute; reflexivity).
  split; [exact H|].
  exact (proj2 (proj2 (TryReuseDispatch_declines_untouched 5 8 4 Example.poly_candidate
                         arrays 6 g arrays g H))).
Defined.


Lemma mono_graph_survives (small absolute cumulative : Z) (scale : Q) inliner
    (f : JSFunction) (size : N) (freq : CallFrequency) (count : Z) :
  bytecode_array (shared f) = Some size ->
  HasBuiltinFunctionId (shared f) = false ->
  IsUserJavaScript (shared f) = true ->
  force_inline (shared f) = false ->
  (Z.of_N size <= 500)%Z ->
  survives_to_general (Example.config small absolute cumulative scale inliner) 10 4
    (mkHeuristic (Example.mono_graph f freq) ∅ [] count [])
    (Example.mono_candidate f freq (Z.of_N size))
    (Z.of_N size <=? small)%Z.
Proof.
  intros Hsize Hbuiltin Huser Hforce Hmax.
  assert (Hcan : CanInlineFunction (Example.config small absolute cumulative scale inliner)
                   (shared f) = true).
  { unfold CanInlineFunction. rewrite Hbuiltin, Huser, Hsize. simpl.
    destruct (_ >? _)%Z eqn:E; [apply Z.gtb_lt in E; lia|reflexivity]. }
  exists kJSCall, 1, 1, [Some f; None; None; None], None,
    (Example.mono_candidate f UnknownFrequency (Z.of_N size)),
    (mkTargetSummary true false (Z.of_N size <=? small)%Z), 3, freq.
  split; [reflexivity|]. split; [reflexivity|].
  split; [apply not_elem_of_empty|]. split; [reflexivity|].
  split; [reflexivity|]. split; [discriminate|]. split; [intros; lia|].
  split.
  { simpl. unfold Reduce_target, target_shared. simpl.
    rewrite Hforce, Hcan. unfold bytecode_length, IsSmallInlineFunction. rewrite Hsize.
    simpl. rewrite add_int_in_range by (unfold in_int_range, kMinInt, kMaxInt; lia).
    destruct (_ <=? _)%Z; reflexivity. }
  repeat split; reflexivity.
Qed.

Lemma Reduce_in_general_mode_witness :
  let cfg := Example.config 30 100000 1000 (6 # 5) Example.accepting in
  let h := Example.initial (Example.mono_graph Example.F0 UnknownFrequency) in
  let candidate := Example.mono_candidate Example.F0 UnknownFrequency 50 in
  Reduce cfg 10 4 h
  = Some (NoChange, set_candidates [candidate] (set_seen ({[4]} ∪ ∅) h)) /\
  candidate ∈ set_insert candidate (candidates_ h).
Proof.
  intros cfg h candidate.
  assert (Hsurvives : survives_to_general cfg 10 4 h candidate false).
  { apply (mono_graph_survives 30 100000 1000 (6 # 5) Example.accepting Example.F0 50
             UnknownFrequency 0); try reflexivity. simpl. lia. }
  destruct (Reduce_in_general_mode cfg 10 4 h candidate false Hsurvives) as (_ & _ & H).
  destruct H as [H1 H2].
  - intros (value & Hvalue & _). discriminate Hvalue.
  - left. reflexivity.
  - split; [exact H1|]. apply H2. intros c Hc. inversion Hc.
Defined.

(** The claim C6 as stated asks for a count under the absolute cap: with the
    count equal to the cap, 100 here, a small candidate would go to the
    backlog.  The source substitutes it at once. *)
Lemma Reduce_inlines_small_at_the_absolute_cap :
  ~ (forall cfg fuel node h candidate small,
        survives_to_general cfg fuel node h candidate small ->
        ~ below_min_frequency cfg candidate ->
        ~ (small = true /\
           (cumulative_count_ h < FLAG_max_inlined_bytecode_size_absolute cfg)%Z) ->
        Reduce cfg fuel node h
        = Some (NoChange,
                set_candidates (set_insert candidate (candidates_ h))
                  (set_seen ({[node]} ∪ seen_ h) h))).
Proof.
  intros Hclaim.
  pose (cfg := Example.config 30 100 1000 (6 # 5) Example.accepting).
  pose (h := mkHeuristic (Example.mono_graph Example.F1 UnknownFrequency) ∅ [] 100 []).
  pose (candidate := Example.mono_candidate Example.F1 UnknownFrequency 10).
  assert (Hsurvives : survives_to_general cfg 10 4 h candidate true).
  { apply (mono_graph_survives 30 100 1000 (6 # 5) Example.accepting Example.F1 10
             UnknownFrequency 100); try reflexivity. simpl. lia. }
  specialize (Hclaim cfg 10 4 h candidate true Hsurvives).
  assert (E : fst <$> Reduce cfg 10 4 h = Some (Replace 4)) by (vm_compute; reflexivity).
  rewrite Hclaim in E.
  - discriminate E.
  - intros (value & Hvalue & _). discriminate Hvalue.
  - intros [_ Hlt]. vm_compute in Hlt. discriminate Hlt.
Qed.


(** The drain on two candidates: the call of frequency 9, whose reserved cost
    of 60 exceeds the cap of 40, is removed first and discarded; the call of
    frequency 1, with a reserved cost of 12, is substituted next. *)
Example Finalize_skips_the_big_candidate :
  let cfg := Example.config 5 100000 40 (6 # 5) Example.accepting in
  exists h',
    run cfg [DoReduce 10 6; DoReduce 10 4; DoFinalize 10]
      (Example.initial Example.two_calls_graph) = Some (tt, h') /\
    candidates_ h' = [] /\ cumulative_count_ h' = 10%Z /\
    inliner_calls h' = [mkInlinerCall 6 (Some (Example.descriptor 10)) true].
Proof. intros cfg. eexists. split; [vm_compute; reflexivity|]. auto. Qed.

(** The budget is read again for every branch: with a cap of 50, the first
    branch of a polymorphic call, of size 50, is substituted, and the second
    one is no longer handed to the inliner. *)
Example InlineCandidate_decides_per_branch :
  let cfg := Example.config 30 100000 50 (6 # 5) Example.accepting in
  exists reduction h',
    InlineCandidate cfg 5 Example.poly_candidate false
      (Example.initial (Example.poly_graph 2 3)) = Some (reduction, h') /\
    cumulative_count_ h' = 50%Z /\
    map inlined_target (inliner_calls h') = [Some (Example.descriptor 50)].
Proof. intros cfg. eexists _, _. split; [vm_compute; reflexivity|]. auto. Qed.

(** * Further properties of the code *)

(** ** What the target collection resolves *)

Lemma HeapObjectMatcher_function g input f :
  HeapObjectMatcher input g = Some (Some (JSFunctionObject f)) <->
  heap_constant_node g input f.
Proof.
  unfold HeapObjectMatcher, heap_constant_node.
  destruct (g !! input) as [n|]; simpl.
  - destruct (decide (opcode (op n) = kHeapConstant)) as [e|ne].
    + split.
      * intros H. exists n. destruct (parameter (op n)); try discriminate.
        injection H as ->. auto.
      * intros (n' & [= <-] & _ & ->). reflexivity.
    + split; [discriminate|]. intros (n' & [= <-] & ? & _). contradiction.
  - split; [discriminate|]. intros (n' & [=] & _).
Qed.

Lemma CollectFunctions_phi_Some node g : forall remaining n fs complete fs',
  CollectFunctions_phi node n remaining fs g = Some (complete, fs') ->
  length fs' = length fs /\
  (forall j, j < n -> fs' !! j = fs !! j) /\
  (complete = true ->
   forall i, n <= i < n + remaining ->
     exists input f, InputAt node i g = Some input /\ heap_constant_node g input f
                     /\ fs' !! i = Some (Some f)).
Proof.
  induction remaining as [|remaining IH]; intros n fs complete fs' H; simpl in H.
  - injection H as <- <-. split; [reflexivity|]. split; [reflexivity|]. intros _ i Hi. lia.
  - destruct (InputAt node n g) as [input|] eqn:Einput; [|discriminate]. simpl in H.
    destruct (HeapObjectMatcher input g) as [m|] eqn:Em; [|discriminate]. simpl in H.
    destruct m as [[f|address]|]; try (injection H as <- <-; split; [reflexivity|];
      split; [reflexivity|]; discriminate).
    destruct (array_set n (Some f) fs) as [fs1|] eqn:Eset; [|discriminate]. simpl in H.
    apply array_set_Some in Eset. destruct Eset as [Hn ->].
    destruct (IH _ _ _ _ H) as (Hlen & Hbefore & Hall).
    rewrite length_insert in Hlen.
    split; [exact Hlen|]. split.
    + intros j Hj. rewrite Hbefore by lia. apply list_lookup_insert_ne. lia.
    + intros Hc i Hi. destruct (decide (i = n)) as [->|Hne].
      * exists input, f. split; [exact Einput|].
        split; [apply HeapObjectMatcher_function; exact Em|].
        rewrite Hbefore by lia. apply list_lookup_insert_eq. exact Hn.
      * apply Hall; [exact Hc|lia].
Qed.

Lemma CollectFunctions_inv callee fs functions_size sh g num fs' sh' :
  CollectFunctions callee fs functions_size sh g = Some (num, fs', sh') ->
  length fs' = length fs /\
  ((num = 0 /\ sh' = sh) \/
   (num = 1 /\ sh' = sh /\ 0 < length fs /\
    exists f, heap_constant_node g callee f /\ fs' = <[0 := Some f]> fs) \/
   (0 < num <= functions_size /\ sh' = sh /\
    opcode_of callee g = Some kPhi /\
    (ValueInputCount <$> op_of callee g) = Some num /\
    forall i, i < num ->
      exists input f, InputAt callee i g = Some input /\ heap_constant_node g input f
                      /\ fs' !! i = Some (Some f)) \/
   (num = 1 /\ opcode_of callee g = Some kJSCreateClosure /\
    0 < length fs /\ fs' = <[0 := None]> fs /\
    exists p, (parameter <$> op_of callee g) = Some (CreateClosureParameters p)
              /\ sh' = Some p)).
Proof.
  unfold CollectFunctions. intros H.
  destruct (g !! callee) as [n|] eqn:En; [|discriminate]. simpl in H.
  destruct (HeapObjectMatcher callee g) as [m|] eqn:Em; [|discriminate]. simpl in H.
  assert (Hrest :
    (if decide (opcode (op n) = kPhi) then
       let value_input_count := ValueInputCount (op n) in
       if decide (functions_size < value_input_count) then Some (0, fs, sh)
       else
         '(complete, fs') ← CollectFunctions_phi callee 0 value_input_count fs g;
         Some (if complete : bool then value_input_count else 0, fs', sh)
     else if decide (opcode (op n) = kJSCreateClosure) then
       match parameter (op n) with
       | CreateClosureParameters p =>
           fs' ← array_set 0 None fs;
           Some (1, fs', Some p)
       | _ => None
       end
     else Some (0, fs, sh)) = Some (num, fs', sh') ->
    length fs' = length fs /\
    ((num = 0 /\ sh' = sh) \/
     (num = 1 /\ sh' = sh /\ 0 < length fs /\
      exists f, heap_constant_node g callee f /\ fs' = <[0 := Some f]> fs) \/
     (0 < num <= functions_size /\ sh' = sh /\
      opcode_of callee g = Some kPhi /\
      (ValueInputCount <$> op_of callee g) = Some num /\
      forall i, i < num ->
        exists input f, InputAt callee i g = Some input /\ heap_constant_node g input f
                        /\ fs' !! i = Some (Some f)) \/
     (num = 1 /\ opcode_of callee g = Some kJSCreateClosure /\
      0 < length fs /\ fs' = <[0 := None]> fs /\
      exists p, (parameter <$> op_of callee g) = Some (CreateClosureParameters p)
                /\ sh' = Some p))).
  { clear H. intros H.
    destruct (decide (opcode (op n) = kPhi)) as [Hphi|Hnophi].
    - cbv zeta in H.
      destruct (decide (functions_size < ValueInputCount (op n))).
      { injection H as <- <- <-. auto. }
      destruct (CollectFunctions_phi callee 0 (ValueInputCount (op n)) fs g)
        as [[complete fs1]|] eqn:Ephi; [|discriminate].
      simpl in H. injection H as <- <- <-.
      destruct (CollectFunctions_phi_Some _ _ _ _ _ _ _ Ephi) as (Hlen & _ & Hall).
      split; [exact Hlen|].
      destruct complete; [|auto].
      destruct (decide (ValueInputCount (op n) = 0)) as [Hz|Hnz]; [rewrite Hz; auto|].
      right. right. left.
      split; [lia|]. split; [reflexivity|].
      unfold opcode_of, op_of. rewrite En. simpl. rewrite Hphi.
      split; [reflexivity|]. split; [reflexivity|].
      intros i Hi. apply Hall; [reflexivity|lia].
    - destruct (decide (opcode (op n) = kJSCreateClosure)) as [Hclosure|].
      + destruct (parameter (op n)) as [| |p| | |] eqn:Ep; try discriminate.
        destruct (array_set 0 None fs) as [fs1|] eqn:Eset; [|discriminate].
        simpl in H. injection H as <- <- <-.
        apply array_set_Some in Eset. destruct Eset as [Hroom ->].
        rewrite length_insert. split; [reflexivity|].
        right. right. right. unfold opcode_of, op_of. rewrite En. simpl.
        rewrite Hclosure, Ep. eauto 10.
      + injection H as <- <- <-. auto. }
  destruct m as [[f|address]|]; try (apply Hrest; exact H).
  destruct (array_set 0 (Some f) fs) as [fs1|] eqn:Eset; [|discriminate].
  simpl in H. injection H as <- <- <-.
  apply array_set_Some in Eset. destruct Eset as [Hroom ->].
  rewrite length_insert. split; [reflexivity|].
  right. left. split; [reflexivity|]. split; [reflexivity|]. split; [exact Hroom|].
  exists f. split; [apply HeapObjectMatcher_function; exact Em|reflexivity].
Qed.

(** X1: whatever [CollectFunctions] returns, the array of targets keeps its
    size.  With zero targets the shared descriptor is left alone.  Otherwise
    the callee is a constant closure, written to slot 0; or a phi whose value
    inputs, no more than [functions_size], are all constant closures, written
    to the slots of their indices; or a closure creation, for which slot 0 is
    the null handle and the shared descriptor is the one of the operator.
    Slot 0 is written only when the array has one. *)
Theorem CollectFunctions_resolves callee fs functions_size sh g num fs' sh' :
  CollectFunctions callee fs functions_size sh g = Some (num, fs', sh') ->
  length fs' = length fs /\
  ((num = 0 /\ sh' = sh) \/
   (num = 1 /\ sh' = sh /\ 0 < length fs /\
    exists f, heap_constant_node g callee f /\ fs' = <[0 := Some f]> fs) \/
   (0 < num <= functions_size /\ sh' = sh /\
    opcode_of callee g = Some kPhi /\
    (ValueInputCount <$> op_of callee g) = Some num /\
    forall i, i < num ->
      exists input f, InputAt callee i g = Some input /\ heap_constant_node g input f
                      /\ fs' !! i = Some (Some f)) \/
   (num = 1 /\ opcode_of callee g = Some kJSCreateClosure /\
    0 < length fs /\ fs' = <[0 := None]> fs /\
    exists p, (parameter <$> op_of callee g) = Some (CreateClosureParameters p)
              /\ sh' = Some p)).
Proof. apply CollectFunctions_inv. Qed.

Lemma CollectFunctions_resolves_witness :
  let g := Example.poly_graph 2 3 in
  exists fs',
    CollectFunctions 4 (replicate 4 None) 4 None g = Some (2, fs', None) /\
    length fs' = 4.
Proof.
  intros g. eexists. split; [vm_compute; reflexivity|].
  exact (proj1 (CollectFunctions_resolves 4 (replicate 4 None) 4 None g 2 _ None
                  ltac:(vm_compute; reflexivity))).
Defined.

(** ** The summary of the targets *)

(** The bytecode lengths of the targets that can be inlined, added up. *)
Definition inlinable_size (cfg : Config) (targets : list SharedFunctionInfo) : Z :=
  foldr (fun sh sum =>
           if CanInlineFunction cfg sh then
             (match bytecode_array sh with Some len => Z.of_N len | None => 0 end + sum)%Z
           else sum) 0%Z targets.

Lemma inlinable_size_app cfg l1 l2 :
  inlinable_size cfg (l1 ++ l2) = (inlinable_size cfg l1 + inlinable_size cfg l2)%Z.
Proof.
  induction l1 as [|x l1 IH]; simpl; [reflexivity|].
  rewrite IH. destruct (CanInlineFunction cfg x); lia.
Qed.

Lemma Reduce_target_Some cfg i candidate summary candidate' summary' :
  Reduce_target cfg i (candidate, summary) = Some (candidate', summary') ->
  exists sh,
    target_shared candidate i = Some (Some sh) /\
    i < length (can_inline_function candidate) /\
    can_inline_function candidate'
    = <[i := CanInlineFunction cfg sh]> (can_inline_function candidate) /\
    to_int (total_size candidate')
    = to_int (total_size candidate + inlinable_size cfg [sh]) /\
    (total_size candidate' = total_size candidate \/ in_int_range (total_size candidate')) /\
    can_inline summary' = can_inline summary || CanInlineFunction cfg sh /\
    all_force_inline summary' = all_force_inline summary && force_inline sh /\
    small_inline summary' = small_inline summary && IsSmallInlineFunction cfg sh /\
    functions candidate' = functions candidate /\
    shared_info candidate' = shared_info candidate /\
    num_functions candidate' = num_functions candidate /\
    frequency candidate' = frequency candidate.
Proof.
  unfold Reduce_target. intros H.
  destruct (target_shared candidate i) as [[sh|]|]; simpl in H; try discriminate.
  destruct (array_set i _ _) as [flags|] eqn:Eset; simpl in H; [|discriminate].
  apply array_set_Some in Eset. destruct Eset as [Hi ->].
  exists sh. split; [reflexivity|]. split; [exact Hi|].
  unfold inlinable_size, bytecode_length in *. simpl.
  destruct (CanInlineFunction cfg sh) eqn:Ecan; simpl in H.
  - destruct (bytecode_array sh) as [len|]; simpl in H; [|discriminate].
    injection H as <- <-. simpl.
    split; [reflexivity|].
    split; [unfold add_int; rewrite to_int_idemp, Z.add_0_r; reflexivity|].
    split; [right; apply add_int_range|].
    destruct (force_inline sh), (IsSmallInlineFunction cfg sh),
      (all_force_inline summary), (small_inline summary), (can_inline summary);
      simpl; repeat split; lia.
  - injection H as <- <-. simpl.
    split; [reflexivity|].
    split; [rewrite Z.add_0_r; reflexivity|]. split; [left; reflexivity|].
    destruct (force_inline sh), (IsSmallInlineFunction cfg sh),
      (all_force_inline summary), (small_inline summary), (can_inline summary);
      simpl; repeat split; lia.
Qed.

Lemma target_shared_same a b i :
  functions a = functions b -> shared_info a = shared_info b ->
  target_shared a i = target_shared b i.
Proof. unfold target_shared. intros -> ->. reflexivity. Qed.

Lemma Reduce_targets_Some cfg remaining : forall i candidate summary candidate' summary',
  Reduce_targets cfg i remaining (candidate, summary) = Some (candidate', summary') ->
  exists targets,
    length targets = remaining /\
    (forall k sh, targets !! k = Some sh ->
       target_shared candidate (i + k) = Some (Some sh) /\
       can_inline_function candidate' !! (i + k) = Some (CanInlineFunction cfg sh)) /\
    (forall j, j < i -> can_inline_function candidate' !! j
                        = can_inline_function candidate !! j) /\
    (forall j, i + remaining <= j -> can_inline_function candidate' !! j
                                     = can_inline_function candidate !! j) /\
    length (can_inline_function candidate') = length (can_inline_function candidate) /\
    to_int (total_size candidate')
    = to_int (total_size candidate + inlinable_size cfg targets) /\
    (total_size candidate' = total_size candidate \/ in_int_range (total_size candidate')) /\
    can_inline summary' = can_inline summary || existsb (CanInlineFunction cfg) targets /\
    all_force_inline summary' = all_force_inline summary && forallb force_inline targets /\
    small_inline summary'
    = small_inline summary && forallb (IsSmallInlineFunction cfg) targets /\
    functions candidate' = functions candidate /\
    shared_info candidate' = shared_info candidate /\
    num_functions candidate' = num_functions candidate /\
    frequency candidate' = frequency candidate.
Proof.
  induction remaining as [|remaining IH]; intros i candidate summary candidate' summary' H;
    cbn [Reduce_targets] in H.
  - injection H as <- <-. exists []. simpl.
    rewrite !orb_false_r, !andb_true_r, Z.add_0_r.
    split; [reflexivity|]. split; [discriminate|]. split; [reflexivity|].
    split; [reflexivity|]. split; [reflexivity|]. split; [reflexivity|].
    split; [left; reflexivity|]. repeat split; reflexivity.
  - destruct (Reduce_target cfg i (candidate, summary)) as [[c1 s1]|] eqn:E1; [|discriminate].
    simpl in H.
    destruct (Reduce_target_Some _ _ _ _ _ _ E1)
      as (sh & Hsh & Hi & Hflags & Hsize & Hrange & Hcan & Hforce & Hsmall & Hfs & Hsi
          & Hnum & Hfreq).
    destruct (IH _ _ _ _ _ H)
      as (targets & Hlen & Htargets & Hbefore & Hafter & Hlength & Hsize' & Hrange' & Hcan'
          & Hforce' & Hsmall' & Hfs' & Hsi' & Hnum' & Hfreq').
    exists (sh :: targets).
    split; [simpl; lia|].
    split; [|split; [|split; [|split; [|split; [|split; [|split; [|split; [|split]]]]]]]];
      cbn [existsb forallb].
    + intros [|k] sh' Hk; simpl in Hk.
      * injection Hk as <-. rewrite Nat.add_0_r. split; [exact Hsh|].
        rewrite Hbefore by lia. rewrite Hflags. apply list_lookup_insert_eq. exact Hi.
      * destruct (Htargets k sh' Hk) as [Ht Hf].
        replace (i + S k) with (S i + k) by lia. split; [|exact Hf].
        rewrite <- Ht. symmetry. apply target_shared_same; assumption.
    + intros j Hj. rewrite Hbefore by lia. rewrite Hflags.
      apply list_lookup_insert_ne. lia.
    + intros j Hj. rewrite Hafter by lia. rewrite Hflags.
      apply list_lookup_insert_ne. lia.
    + rewrite Hlength, Hflags. apply length_insert.
    + rewrite Hsize'.
      rewrite (to_int_add_same _ _ (inlinable_size cfg targets) Hsize).
      f_equal. change (sh :: targets) with ([sh] ++ targets).
      rewrite (inlinable_size_app cfg [sh] targets). lia.
    + destruct Hrange' as [->|Hr]; [|right; exact Hr]. exact Hrange.
    + rewrite Hcan', Hcan. rewrite orb_assoc. reflexivity.
    + rewrite Hforce', Hforce. rewrite andb_assoc. reflexivity.
    + rewrite Hsmall', Hsmall. rewrite andb_assoc. reflexivity.
    + repeat split; congruence.
Qed.

(** X2: the loop of [Reduce] over the targets of a candidate reads the shared
    descriptor of each of the [num] targets, writes to slot [i] of
    [can_inline_function] whether target [i] can be inlined, and leaves the
    other slots alone; the total size of the candidate is the sum, on [int],
    of the bytecode lengths of the targets that can be inlined, which is
    their sum when this is within [int]; [can_inline] holds
    when one target at least can be inlined, [force_inline] when all targets
    are marked for forced inlining, [small_inline] when all are small. *)
Theorem Reduce_targets_summary cfg num candidate candidate' summary :
  Reduce_targets cfg 0 num (with_total_size candidate 0, mkTargetSummary false true true)
  = Some (candidate', summary) ->
  exists targets,
    length targets = num /\
    (forall i sh, targets !! i = Some sh ->
       target_shared candidate i = Some (Some sh) /\
       can_inline_function candidate' !! i = Some (CanInlineFunction cfg sh)) /\
    (forall j, num <= j ->
       can_inline_function candidate' !! j = can_inline_function candidate !! j) /\
    total_size candidate' = to_int (inlinable_size cfg targets) /\
    (in_int_range (inlinable_size cfg targets) ->
     total_size candidate' = inlinable_size cfg targets) /\
    can_inline summary = existsb (CanInlineFunction cfg) targets /\
    all_force_inline summary = forallb force_inline targets /\
    small_inline summary = forallb (IsSmallInlineFunction cfg) targets /\
    functions candidate' = functions candidate /\
    shared_info candidate' = shared_info candidate /\
    num_functions candidate' = num_functions candidate /\
    node candidate' = node candidate /\
    frequency candidate' = frequency candidate.
Proof.
  intros H.
  pose proof (Reduce_targets_node _ _ _ _ _ H) as Hnode.
  destruct (Reduce_targets_Some _ _ _ _ _ _ _ H)
    as (targets & Hlen & Htargets & _ & Hafter & _ & Hsize & Hrange & Hcan & Hforce & Hsmall
        & Hfs & Hsi & Hnum & Hfreq).
  exists targets. simpl in *.
  split; [exact Hlen|]. split; [|split; [exact Hafter|]].
  - intros i sh Hi. destruct (Htargets i sh Hi) as [Ht Hf]. simpl in *. auto.
  - assert (Htotal : total_size candidate' = to_int (inlinable_size cfg targets)).
    { rewrite Z.add_0_l in Hsize. destruct Hrange as [Hzero|Hr].
      - rewrite <- Hsize, Hzero. reflexivity.
      - rewrite <- Hsize. symmetry. apply to_int_in_range, Hr. }
    split; [exact Htotal|].
    split; [intros Hr; rewrite Htotal; apply to_int_in_range, Hr|].
    repeat split; assumption.
Qed.

Lemma Reduce_targets_summary_witness :
  let cfg := Example.config 30 100000 1000 (6 # 5) Example.accepting in
  exists candidate' summary,
    Reduce_targets cfg 0 2
      (with_total_size Example.poly_candidate 0, mkTargetSummary false true true)
    = Some (candidate', summary) /\
    exists targets,
      length targets = 2 /\ total_size candidate' = to_int (inlinable_size cfg targets) /\
      small_inline summary = forallb (IsSmallInlineFunction cfg) targets.
Proof.
  intros cfg. eexists _, _. split; [vm_compute; reflexivity|].
  destruct (Reduce_targets_summary cfg 2 Example.poly_candidate _ _
              ltac:(vm_compute; reflexivity))
    as (targets & Hlen & _ & _ & Hsize & _ & _ & _ & Hsmall & _).
  exists targets. auto.
Defined.

(** ** Candidates the comparator leaves unordered *)

(** X3: the comparator orders neither of two candidates before the other
    exactly when they are candidates of the same call node and their
    frequencies are both unknown, or both known and equal.  Candidates of
    different call nodes are always ordered, one way or the other. *)
Theorem CandidateCompare_unordered a b :
  equivalent a b <->
  node a = node b /\
  ((frequency a = UnknownFrequency /\ frequency b = UnknownFrequency) \/
   exists va vb, frequency a = KnownFrequency va /\ frequency b = KnownFrequency vb
                 /\ (va == vb)%Q).
Proof.
  unfold equivalent. split.
  - intros [Hab Hba].
    destruct (frequency a) as [|va] eqn:Ha, (frequency b) as [|vb] eqn:Hb;
      compare_frequencies; try discriminate.
    + split; [order_values|]. left. auto.
    + split; [order_values|]. right. exists va, vb.
      split; [reflexivity|]. split; [reflexivity|]. order_values.
  - intros [Hnode [[Ha Hb]|(va & vb & Ha & Hb & Heq)]]; compare_frequencies.
    + rewrite Hnode. rewrite Nat.ltb_irrefl. auto.
    + rewrite Hnode. split; order_values.
Qed.

(** ** What the collector and the drain do to the members *)

Lemma Reduce_general_Some cfg fuel candidate small h r h' :
  Reduce_general cfg fuel candidate small h = Some (r, h') ->
  seen_ h' = seen_ h /\
  (candidates_ h' = candidates_ h \/
   (~ below_min_frequency cfg candidate /\
    (small = false \/ (FLAG_max_inlined_bytecode_size_absolute cfg < cumulative_count_ h)%Z) /\
    r = NoChange /\ h' = set_candidates (set_insert candidate (candidates_ h)) h)).
Proof.
  unfold Reduce_general. intros H.
  destruct (match frequency candidate with
            | KnownFrequency value => Qltb value (FLAG_min_inlining_frequency cfg)
            | UnknownFrequency => false
            end) eqn:Efreq.
  { apply ret_Some in H. destruct H as [_ ->]. auto. }
  apply bind_Some in H. destruct H as (count & h0 & H0 & H).
  apply gets_Some in H0. destruct H0 as [-> ->].
  destruct (small && _) eqn:Esmall.
  - destruct (InlineCandidate_substitutes _ _ _ _ _ _ _ H) as (_ & Hs & Hc). auto.
  - apply bind_Some in H. destruct H as (u & h0 & H0 & H).
    apply modify_Some in H0. subst h0.
    apply ret_Some in H. destruct H as [-> ->].
    split; [reflexivity|]. right. split; [|split; [|auto]].
    + intros (value & Hvalue & Hlt). rewrite Hvalue in Efreq.
      apply Qltb_lt in Hlt. congruence.
    + apply andb_false_iff in Esmall. destruct Esmall as [->|Hcount]; [auto|].
      right. apply Z.leb_gt in Hcount. exact Hcount.
Qed.

Lemma Reduce_inv cfg fuel call h r h' :
  Reduce cfg fuel call h = Some (r, h') ->
  exists code,
    opcode_of call (graph h) = Some code /\
    if negb (IsInlineeOpcode code) || bool_decide (call ∈ seen_ h)
    then r = NoChange /\ h' = h
    else
      seen_ h' = {[call]} ∪ seen_ h /\
      (candidates_ h' = candidates_ h \/
       exists candidate small,
         survives_to_general cfg fuel call h candidate small /\
         ~ below_min_frequency cfg candidate /\
         (small = false
          \/ (FLAG_max_inlined_bytecode_size_absolute cfg < cumulative_count_ h)%Z) /\
         r = NoChange /\
         h' = set_candidates (set_insert candidate (candidates_ h))
                (set_seen ({[call]} ∪ seen_ h) h)).
Proof.
  intros H. unfold Reduce in H.
  apply bind_Some in H. destruct H as (code & h0 & H0 & H).
  apply on_graph_rd_Some in H0. destruct H0 as [Hcode ->].
  exists code. split; [exact Hcode|].
  destruct (IsInlineeOpcode code) eqn:Hcall; cbn [negb orb] in *;
    [|apply ret_Some in H; destruct H as [-> ->]; auto].
  apply bind_Some in H. destruct H as (seen & h0 & H0 & H).
  apply gets_Some in H0. destruct H0 as [-> ->].
  destruct (decide (call ∈ seen_ h)) as [Hin|Hout].
  { apply ret_Some in H. destruct H as [-> ->].
    rewrite bool_decide_eq_true_2 by exact Hin. auto. }
  rewrite bool_decide_eq_false_2 by exact Hout.
  apply bind_Some in H. destruct H as (u & h0 & H0 & H).
  apply modify_Some in H0. subst h0.
  set (h1 := set_seen ({[call]} ∪ seen_ h) h) in *.
  assert (Hdone : forall h2, (seen_ h2 = seen_ h1 /\ candidates_ h2 = candidates_ h1) ->
            seen_ h2 = {[call]} ∪ seen_ h /\
            (candidates_ h2 = candidates_ h \/
             exists candidate small,
               survives_to_general cfg fuel call h candidate small /\
               ~ below_min_frequency cfg candidate /\
               (small = false
                \/ (FLAG_max_inlined_bytecode_size_absolute cfg < cumulative_count_ h)%Z) /\
               r = NoChange /\
               h2 = set_candidates (set_insert candidate (candidates_ h)) h1)).
  { intros h2 [Hs Hc]. rewrite Hs, Hc. auto. }
  assert (Hinline : forall candidate force r0 h2,
            InlineCandidate cfg fuel candidate force h1 = Some (r0, h2) ->
            seen_ h2 = seen_ h1 /\ candidates_ h2 = candidates_ h1).
  { intros candidate force r0 h2 Hi.
    destruct (InlineCandidate_substitutes _ _ _ _ _ _ _ Hi) as (_ & Hs & Hc). auto. }
  apply bind_Some in H. destruct H as (callee & h0 & H0 & H).
  apply on_graph_rd_Some in H0. destruct H0 as [Hcallee ->].
  cbv zeta in H. cbn [functions shared_info] in H.
  apply bind_Some in H. destruct H as ([[num fs] sh] & h0 & H0 & H).
  apply on_graph_rd_Some in H0. destruct H0 as [Hcollect ->].
  destruct (decide (num = 0)) as [|Hnum].
  { apply ret_Some in H. destruct H as [-> ->]. apply Hdone. auto. }
  destruct (bool_decide (1 < num) && negb (FLAG_polymorphic_inlining cfg)) eqn:Hpoly.
  { apply ret_Some in H. destruct H as [-> ->]. apply Hdone. auto. }
  apply bind_Some in H. destruct H as ([candidate2 summary] & h0 & H0 & H).
  apply lift_Some in H0. destruct H0 as [Htargets ->].
  destruct (all_force_inline summary) eqn:Hforce.
  { apply Hdone. eapply Hinline. exact H. }
  destruct (can_inline summary) eqn:Hcan; cbn [negb] in H;
    [|apply ret_Some in H; destruct H as [-> ->]; apply Hdone; auto].
  apply bind_Some in H. destruct H as (frame_state & h0 & H0 & H).
  apply on_graph_rd_Some in H0. destruct H0 as [Hframe ->].
  apply bind_Some in H. destruct H as (exceeded & h0 & H0 & H).
  apply on_graph_rd_Some in H0. destruct H0 as [Hdepth ->].
  destruct exceeded.
  { apply ret_Some in H. destruct H as [-> ->]. apply Hdone. auto. }
  apply bind_Some in H. destruct H as (f & h0 & H0 & H).
  apply on_graph_rd_Some in H0. destruct H0 as [Hfreq ->].
  destruct (mode_ cfg) eqn:Hmode.
  - apply Reduce_general_Some in H. destruct H as [Hs [Hc|(Hbelow & Hnot & -> & ->)]].
    + apply Hdone. auto.
    + split; [reflexivity|]. right.
      exists (with_frequency candidate2 f), (small_inline summary).
      split; [|auto].
      exists code, callee, num, fs, sh, candidate2, summary, frame_state, f.
      repeat (split; [first [assumption|reflexivity]|]).
      split; [|split; [exact Htargets|repeat split; assumption]].
      intros Hlt. apply andb_false_iff in Hpoly. destruct Hpoly as [Hpoly|Hpoly].
      * apply bool_decide_eq_false in Hpoly. contradiction.
      * destruct (FLAG_polymorphic_inlining cfg); [reflexivity|discriminate].
  - apply ret_Some in H. destruct H as [-> ->]. apply Hdone. auto.
  - apply Hdone. eapply Hinline. exact H.
Qed.

(** X4: [Reduce] on a node that is not a call, or that it has seen, reports
    no change and leaves the state as it is.  On a call it has not seen it
    adds the node to the seen-set, and either leaves the backlog alone or
    inserts one candidate into it.  It inserts a candidate only in general
    mode, the candidate being the one built for this call, which has survived
    the earlier checks, has no known frequency below the minimum frequency,
    and is not small or finds the cumulative count above the absolute cap;
    [Reduce] then reports no change and touches neither the graph, nor the
    cumulative count, nor the inliner. *)
Theorem Reduce_footprint cfg fuel call h r h' :
  Reduce cfg fuel call h = Some (r, h') ->
  exists code,
    opcode_of call (graph h) = Some code /\
    if negb (IsInlineeOpcode code) || bool_decide (call ∈ seen_ h)
    then r = NoChange /\ h' = h
    else
      seen_ h' = {[call]} ∪ seen_ h /\
      (candidates_ h' = candidates_ h \/
       exists candidate small,
         survives_to_general cfg fuel call h candidate small /\
         ~ below_min_frequency cfg candidate /\
         (small = false
          \/ (FLAG_max_inlined_bytecode_size_absolute cfg < cumulative_count_ h)%Z) /\
         r = NoChange /\
         h' = set_candidates (set_insert candidate (candidates_ h))
                (set_seen ({[call]} ∪ seen_ h) h)).
Proof. apply Reduce_inv. Qed.

Lemma Reduce_footprint_witness :
  let cfg := Example.config 30 100000 1000 (6 # 5) Example.accepting in
  let h := Example.initial (Example.mono_graph Example.F0 UnknownFrequency) in
  exists r h',
    Reduce cfg 10 4 h = Some (r, h') /\
    seen_ h' = {[4]} ∪ seen_ h /\ length (candidates_ h') = 1.
Proof.
  intros cfg h. eexists _, _. split; [vm_compute; reflexivity|].
  destruct (Reduce_footprint cfg 10 4 h _ _ ltac:(vm_compute; reflexivity))
    as (code & Hcode & H).
  injection Hcode as <-. simpl in H. destruct H as [Hseen _].
  split; [exact Hseen|reflexivity].
Defined.

Lemma Finalize_loop_Some cfg fuel rounds : forall h h',
  Finalize_loop cfg fuel rounds h = Some (tt, h') ->
  seen_ h' = seen_ h /\
  exists k,
    candidates_ h' = drop k (candidates_ h) /\
    (candidates_ h <> [] -> 0 < k) /\
    (candidates_ h' = [] \/
     exists candidate h1 reduction,
       candidates_ h !! (k - 1) = Some candidate /\
       InlineCandidate cfg fuel candidate false h1 = Some (reduction, h') /\
       Changed reduction = true).
Proof.
  induction rounds as [|rounds IH]; intros h h' H.
  - simpl in H. apply bind_Some in H. destruct H as (cs & h0 & H0 & H).
    apply gets_Some in H0. destruct H0 as [-> ->].
    destruct (candidates_ h) eqn:E; [|discriminate].
    apply ret_Some in H. destruct H as [_ ->].
    split; [reflexivity|]. exists 0. rewrite E. simpl.
    split; [reflexivity|]. split; [congruence|]. left. reflexivity.
  - destruct (candidates_ h) as [|candidate rest] eqn:E.
    + simpl in H. apply bind_Some in H. destruct H as (cs & h0 & H0 & H).
      apply gets_Some in H0. destruct H0 as [-> ->]. rewrite E in H.
      apply ret_Some in H. destruct H as [_ ->].
      split; [reflexivity|]. exists 0. rewrite E. simpl.
      split; [reflexivity|]. split; [congruence|]. left. reflexivity.
    + rewrite (Finalize_loop_step cfg fuel rounds h candidate rest E) in H. cbv zeta in H.
      assert (Hnext : forall h2,
                seen_ h2 = seen_ h -> candidates_ h2 = rest ->
                Finalize_loop cfg fuel rounds h2 = Some (tt, h') ->
                seen_ h' = seen_ h /\
                exists k,
                  candidates_ h' = drop k (candidate :: rest) /\
                  (candidate :: rest <> [] -> 0 < k) /\
                  (candidates_ h' = [] \/
                   exists c h1 reduction,
                     (candidate :: rest) !! (k - 1) = Some c /\
                     InlineCandidate cfg fuel c false h1 = Some (reduction, h') /\
                     Changed reduction = true)).
      { intros h2 Hs Hc Hloop.
        destruct (IH _ _ Hloop) as (Hs' & k & Hk & Hpos & Hend).
        split; [congruence|]. exists (S k). rewrite Hc in *. simpl.
        split; [exact Hk|]. split; [lia|].
        destruct Hend as [Hend|(c & h1 & reduction & Hc' & Hi & Hch)]; [auto|].
        right. exists c, h1, reduction. split; [|auto].
        rewrite Nat.sub_0_r. destruct k as [|k].
        - destruct rest; [discriminate Hc'|]. exfalso.
          assert (0 < 0) by (apply Hpos; discriminate). lia.
        - simpl in *. rewrite Nat.sub_0_r in Hc'. exact Hc'. }
      destruct (_ >? _)%Z; [apply (Hnext (set_candidates rest h) eq_refl eq_refl H)|].
      apply bind_Some in H. destruct H as (is_dead & h0 & H0 & H).
      apply on_graph_rd_Some in H0. destruct H0 as [_ ->].
      destruct (negb is_dead); [|apply (Hnext (set_candidates rest h) eq_refl eq_refl H)].
      apply bind_Some in H. destruct H as (reduction & h2 & H2 & H).
      destruct (InlineCandidate_substitutes _ _ _ _ _ _ _ H2) as (_ & Hs & Hc).
      destruct (Changed reduction) eqn:Hch; [|apply (Hnext _ Hs Hc H)].
      apply ret_Some in H. destruct H as [_ ->].
      split; [exact Hs|]. exists 1. simpl. rewrite drop_0.
      split; [exact Hc|]. split; [lia|]. right.
      exists candidate, (set_candidates rest h), reduction. auto.
Qed.

(** X5: the drain never touches the seen-set and never adds to the backlog:
    what it leaves is the backlog with its first [k] candidates removed, one
    at least when the backlog was not empty.  It stops before the backlog is
    empty only after a substitution, of the last candidate removed, that
    reported a change. *)
Theorem Finalize_footprint cfg fuel h h' :
  Finalize cfg fuel h = Some (tt, h') ->
  seen_ h' = seen_ h /\
  exists k,
    candidates_ h' = drop k (candidates_ h) /\
    (candidates_ h <> [] -> 0 < k) /\
    (candidates_ h' = [] \/
     exists candidate h1 reduction,
       candidates_ h !! (k - 1) = Some candidate /\
       InlineCandidate cfg fuel candidate false h1 = Some (reduction, h') /\
       Changed reduction = true).
Proof.
  rewrite Finalize_unfold. apply Finalize_loop_Some.
Qed.

Lemma Finalize_footprint_witness :
  let cfg := Example.config 5 100000 40 (6 # 5) Example.accepting in
  let h := mkHeuristic Example.two_calls_graph {[4; 6]}
             [Example.mono_candidate Example.F0 (KnownFrequency 9) 50;
              mkCandidate [Some Example.F1; None; None; None] [true; false; false; false]
                None 1 6 (KnownFrequency 1) 10] 0 [] in
  exists h',
    Finalize cfg 10 h = Some (tt, h') /\ seen_ h' = seen_ h /\ candidates_ h' = [].
Proof.
  intros cfg h. eexists. split; [vm_compute; reflexivity|].
  destruct (Finalize_footprint cfg 10 h _ ltac:(vm_compute; reflexivity)) as (Hs & _).
  split; [exact Hs|reflexivity].
Defined.

(** ** The backlog over the whole pass *)

Lemma set_insert_nodes c l :
  NoDup (node <$> l) -> (forall x, x ∈ l -> node x <> node c) ->
  NoDup (node <$> set_insert c l).
Proof.
  induction l as [|x l IH]; simpl; intros Hl Hc.
  - repeat constructor. intros H. inversion H.
  - apply NoDup_cons in Hl. destruct Hl as [Hx Hl].
    destruct (CandidateCompare c x).
    { simpl. apply NoDup_cons. split; [|apply NoDup_cons; auto].
      intros Hin. change (node c ∈ node <$> (x :: l)) in Hin.
      apply list_elem_of_fmap in Hin. destruct Hin as (y & Hy & Hin).
      apply (Hc y Hin). congruence. }
    destruct (CandidateCompare x c); [|simpl; apply NoDup_cons; auto].
    simpl. apply NoDup_cons. split.
    + intros Hin. apply list_elem_of_fmap in Hin. destruct Hin as (y & Hy & Hin).
      apply set_insert_elem in Hin. destruct Hin as [->|Hin].
      * apply (Hc x); [left|exact Hy].
      * apply Hx. apply list_elem_of_fmap. eauto.
    + apply IH; [exact Hl|]. intros y Hy. apply Hc. right. exact Hy.
Qed.

Lemma ordered_drop k l : ordered l -> ordered (drop k l).
Proof.
  unfold ordered. revert l. induction k as [|k IH]; intros l Hl; [rewrite drop_0; exact Hl|].
  destruct l as [|x l]; [exact Hl|]. simpl. apply IH.
  apply StronglySorted_inv in Hl. tauto.
Qed.

Lemma NoDup_drop {A} k (l : list A) : NoDup l -> NoDup (drop k l).
Proof.
  intros H. eapply sublist_NoDup; [exact H|apply sublist_drop].
Qed.

(** The backlog holds one candidate at most for a call node. *)
Definition one_candidate_per_call (h : JSInliningHeuristic) : Prop :=
  NoDup (node <$> candidates_ h).

Lemma Reduce_keeps_candidates cfg fuel call h r h' :
  backlog_invariant h -> one_candidate_per_call h ->
  Reduce cfg fuel call h = Some (r, h') ->
  backlog_invariant h' /\ one_candidate_per_call h'.
Proof.
  intros Hinv Hone H.
  split; [eapply Reduce_keeps_backlog; eauto|].
  destruct (Reduce_inv _ _ _ _ _ _ H) as (code & _ & Hcases).
  destruct (negb (IsInlineeOpcode code) || bool_decide (call ∈ seen_ h)) eqn:E.
  { destruct Hcases as [_ ->]. exact Hone. }
  destruct Hcases as [_ [Hsame|(c & small & Hsurvives & _ & _ & _ & ->)]].
  - unfold one_candidate_per_call. rewrite Hsame. exact Hone.
  - pose proof (survives_to_general_node _ _ _ _ _ _ Hsurvives) as Hnode.
    unfold one_candidate_per_call. simpl. apply set_insert_nodes; [exact Hone|].
    intros x Hx Heq. apply orb_false_iff in E. destruct E as [_ E].
    apply bool_decide_eq_false in E. apply E.
    destruct Hinv as [_ Hseen]. rewrite <- Hnode, <- Heq. apply Hseen. exact Hx.
Qed.

Lemma Finalize_keeps_candidates cfg fuel h h' :
  backlog_invariant h -> one_candidate_per_call h ->
  Finalize cfg fuel h = Some (tt, h') ->
  backlog_invariant h' /\ one_candidate_per_call h'.
Proof.
  intros Hinv Hone H. rewrite Finalize_unfold in H.
  split; [eapply Finalize_loop_keeps_backlog; eauto|].
  destruct (Finalize_loop_Some _ _ _ _ _ H) as (_ & k & Hk & _).
  unfold one_candidate_per_call. rewrite Hk, fmap_drop. apply NoDup_drop. exact Hone.
Qed.

(** X6: over every sequence of [Reduce] and [Finalize] operations that starts
    with a backlog ordered by the comparator, of candidates of different call
    nodes that have all been seen (the empty backlog of the initial state for
    one), the backlog stays so: ordered, with one candidate at most for a
    call node, and every candidate's call node in the seen-set. *)
Theorem backlog_of_reachable_states cfg operations : forall h h',
  backlog_invariant h -> one_candidate_per_call h ->
  run cfg operations h = Some (tt, h') ->
  ordered (candidates_ h') /\
  NoDup (node <$> candidates_ h') /\
  (forall c, c ∈ candidates_ h' -> node c ∈ seen_ h').
Proof.
  assert (Hrun : forall h h',
    backlog_invariant h -> one_candidate_per_call h ->
    run cfg operations h = Some (tt, h') ->
    backlog_invariant h' /\ one_candidate_per_call h').
  { induction operations as [|o rest IH]; intros h h' Hinv Hone H; simpl in H.
    - apply ret_Some in H. destruct H as [_ ->]. auto.
    - apply bind_Some in H. destruct H as ([] & h1 & H1 & H).
      destruct o as [fuel1 call|fuel1]; simpl in H1.
      + apply bind_Some in H1. destruct H1 as (r & h0 & H0 & H1).
        apply ret_Some in H1. destruct H1 as [_ ->].
        destruct (Reduce_keeps_candidates _ _ _ _ _ _ Hinv Hone H0). eapply IH; eauto.
      + destruct (Finalize_keeps_candidates _ _ _ _ Hinv Hone H1). eapply IH; eauto. }
  intros h h' Hinv Hone H. destruct (Hrun h h' Hinv Hone H) as [[Ho Hs] Hn]. auto.
Qed.

Lemma backlog_of_reachable_states_witness :
  let cfg := Example.config 5 100000 40 (6 # 5) Example.accepting in
  exists h',
    run cfg [DoReduce 10 6; DoReduce 10 4] (Example.initial Example.two_calls_graph)
    = Some (tt, h') /\
    length (candidates_ h') = 2 /\
    ordered (candidates_ h') /\
    NoDup (node <$> candidates_ h') /\
    (forall c, c ∈ candidates_ h' -> node c ∈ seen_ h').
Proof.
  intros cfg. eexists. split; [vm_compute; reflexivity|]. split; [reflexivity|].
  eapply (backlog_of_reachable_states cfg [DoReduce 10 6; DoReduce 10 4]
            (Example.initial Example.two_calls_graph)).
  - apply initial_backlog_invariant.
  - constructor.
  - vm_compute. reflexivity.
Defined.

(** X7: outside the general mode the collector never writes to the backlog:
    over every sequence of operations the backlog only shrinks, and a backlog
    that starts empty stays empty, so that the drain has nothing to do. *)
Theorem backlog_outside_general_mode cfg operations : forall h h',
  mode_ cfg <> kGeneralInlining ->
  run cfg operations h = Some (tt, h') ->
  (exists k, candidates_ h' = drop k (candidates_ h)) /\
  (candidates_ h = [] -> candidates_ h' = [] /\ forall fuel, Finalize cfg fuel h' = Some (tt, h')).
Proof.
  intros h h' Hmode H.
  assert (Hdrop : exists k, candidates_ h' = drop k (candidates_ h)).
  { revert h H. induction operations as [|o rest IH]; intros h H; simpl in H.
    - apply ret_Some in H. destruct H as [_ ->]. exists 0. rewrite drop_0. reflexivity.
    - apply bind_Some in H. destruct H as ([] & h1 & H1 & H).
      destruct (IH _ H) as (k & Hk). rewrite Hk.
      destruct o as [fuel1 call|fuel1]; simpl in H1.
      + apply bind_Some in H1. destruct H1 as (r & h0 & H0 & H1).
        apply ret_Some in H1. destruct H1 as [_ ->].
        destruct (Reduce_inv _ _ _ _ _ _ H0) as (code & _ & Hcases).
        destruct (negb (IsInlineeOpcode code) || bool_decide (call ∈ seen_ h)).
        * destruct Hcases as [_ ->]. eauto.
        * destruct Hcases as [_ [->|(c & small & Hsurvives & _)]]; [eauto|].
          exfalso. apply Hmode.
          destruct Hsurvives as (? & ? & ? & ? & ? & ? & ? & ? & ? & Hsurvives).
          tauto.
      + rewrite Finalize_unfold in H1.
        destruct (Finalize_loop_Some _ _ _ _ _ H1) as (_ & k1 & -> & _).
        exists (k1 + k). apply drop_drop. }
  split; [exact Hdrop|].
  intros Hempty. destruct Hdrop as (k & Hk). rewrite Hempty, drop_nil in Hk.
  split; [exact Hk|]. intros fuel. unfold Finalize.
  rewrite (bind_eval _ _ _ (candidates_ h') h') by reflexivity. rewrite Hk. reflexivity.
Qed.

Lemma backlog_outside_general_mode_witness :
  let cfg := mkConfig 500 5 100000 40 5 1 true (fun size => inject_Z size)
               (fun _ => kMinInt) 4
               kRestrictedInlining Example.accepting (fun _ _ _ _ g => g) (fun _ _ => None) in
  exists h',
    run cfg [DoReduce 10 6; DoReduce 10 4; DoFinalize 10]
      (Example.initial Example.two_calls_graph) = Some (tt, h') /\
    candidates_ h' = [] /\ inliner_calls h' = [].
Proof.
  intros cfg. eexists. split; [vm_compute; reflexivity|].
  split; [|reflexivity].
  refine (proj1 (proj2 (backlog_outside_general_mode cfg
            [DoReduce 10 6; DoReduce 10 4; DoFinalize 10]
            (Example.initial Example.two_calls_graph) _ _ _) eq_refl)).
  - discriminate.
  - vm_compute. reflexivity.
Defined.

(** ** The ways through the collector *)

(** The first checks of [Reduce]: the node is a call that has not been seen,
    and [CollectFunctions] resolves its callee to [num] targets. *)
Definition resolves (cfg : Config) (call : nat) (h : JSInliningHeuristic)
    (num : nat) (fs : list (option JSFunction)) (sh : option SharedFunctionInfo) : Prop :=
  exists code callee,
    opcode_of call (graph h) = Some code /\ IsInlineeOpcode code = true /\
    (call ∉ seen_ h) /\
    InputAt call 0 (graph h) = Some callee /\
    CollectFunctions callee (replicate (kMaxCallPolymorphism cfg) None)
      (kMaxCallPolymorphism cfg) None (graph h) = Some (num, fs, sh).

(** The checks of [Reduce] up to the summary of the targets: the callee
    resolves to one target, or to several with polymorphic inlining enabled,
    and [candidate] and [summary] are what the loop over the targets
    leaves. *)
Definition collects (cfg : Config) (call : nat) (h : JSInliningHeuristic)
    (candidate : Candidate) (summary : TargetSummary) : Prop :=
  exists num fs sh,
    resolves cfg call h num fs sh /\
    num <> 0 /\ (1 < num -> FLAG_polymorphic_inlining cfg = true) /\
    Reduce_targets cfg 0 num
      (with_total_size (with_functions (fresh_candidate cfg call) num fs sh) 0,
       mkTargetSummary false true true) = Some (candidate, summary).

Lemma Reduce_resolves cfg fuel call h num fs sh :
  resolves cfg call h num fs sh ->
  Reduce cfg fuel call h
  = (let candidate1 := with_functions (fresh_candidate cfg call) num fs sh in
     if decide (num = 0) then ret NoChange
     else if bool_decide (1 < num) && negb (FLAG_polymorphic_inlining cfg) then ret NoChange
     else
       summarized <- lift (Reduce_targets cfg 0 num
                             (with_total_size candidate1 0, mkTargetSummary false true true)) ;;
       let '(candidate2, summary) := summarized in
       if all_force_inline summary then InlineCandidate cfg fuel candidate2 true
       else if negb (can_inline summary) then ret NoChange
       else
         frame_state <- on_graph (rd (GetFrameStateInput call)) ;;
         exceeded <- on_graph (rd (inlining_level_exceeded cfg fuel frame_state 0)) ;;
         if exceeded : bool then ret NoChange
         else
           f <- on_graph (rd (call_frequency call)) ;;
           let candidate3 := with_frequency candidate2 f in
           match mode_ cfg with
           | kRestrictedInlining => ret NoChange
           | kStressInlining => InlineCandidate cfg fuel candidate3 false
           | kGeneralInlining => Reduce_general cfg fuel candidate3 (small_inline summary)
           end) (set_seen ({[call]} ∪ seen_ h) h).
Proof.
  intros (code & callee & Hcode & Hcall & Hseen & Hcallee & Hcollect).
  unfold Reduce.
  rewrite (bind_eval _ _ _ code h) by (apply on_graph_rd; exact Hcode).
  rewrite Hcall. cbn [negb].
  rewrite (bind_eval _ _ _ (seen_ h) h) by reflexivity.
  destruct (decide (call ∈ seen_ h)); [contradiction|].
  set (h1 := set_seen ({[call]} ∪ seen_ h) h).
  rewrite (bind_eval _ _ _ tt h1) by reflexivity.
  rewrite (bind_eval _ _ _ callee h1) by (apply on_graph_rd; exact Hcallee).
  cbv zeta. cbn [functions shared_info].
  rewrite (bind_eval _ _ _ _ h1 (on_graph_rd _ h1 _ Hcollect)).
  reflexivity.
Qed.

Lemma Reduce_collects cfg fuel call h candidate summary :
  collects cfg call h candidate summary ->
  Reduce cfg fuel call h
  = (if all_force_inline summary then InlineCandidate cfg fuel candidate true
     else if negb (can_inline summary) then ret NoChange
     else
       frame_state <- on_graph (rd (GetFrameStateInput call)) ;;
       exceeded <- on_graph (rd (inlining_level_exceeded cfg fuel frame_state 0)) ;;
       if exceeded : bool then ret NoChange
       else
         f <- on_graph (rd (call_frequency call)) ;;
         let candidate3 := with_frequency candidate f in
         match mode_ cfg with
         | kRestrictedInlining => ret NoChange
         | kStressInlining => InlineCandidate cfg fuel candidate3 false
         | kGeneralInlining => Reduce_general cfg fuel candidate3 (small_inline summary)
         end) (set_seen ({[call]} ∪ seen_ h) h).
Proof.
  intros (num & fs & sh & Hresolves & Hnum & Hpoly & Htargets).
  rewrite (Reduce_resolves _ _ _ _ _ _ _ Hresolves). cbv zeta.
  destruct (decide (num = 0)); [contradiction|].
  assert (Hp : bool_decide (1 < num) && negb (FLAG_polymorphic_inlining cfg) = false).
  { destruct (bool_decide (1 < num)) eqn:E; [|reflexivity].
    apply bool_decide_eq_true in E. rewrite (Hpoly E). reflexivity. }
  rewrite Hp.
  rewrite (bind_eval _ _ _ (candidate, summary) _)
    by (unfold lift, rd; rewrite Htargets; reflexivity).
  reflexivity.
Qed.

(** X8: a call whose callee resolves to no target, or to several targets
    while polymorphic inlining is disabled, is marked as seen and dropped:
    [Reduce] reports no change and leaves the graph, the backlog, the
    cumulative count and the inliner alone. *)
Theorem Reduce_without_targets cfg fuel call h num fs sh :
  resolves cfg call h num fs sh ->
  num = 0 \/ (1 < num /\ FLAG_polymorphic_inlining cfg = false) ->
  Reduce cfg fuel call h = Some (NoChange, set_seen ({[call]} ∪ seen_ h) h).
Proof.
  intros Hresolves Hnum. rewrite (Reduce_resolves _ _ _ _ _ _ _ Hresolves). cbv zeta.
  destruct (decide (num = 0)); [reflexivity|].
  destruct Hnum as [|[Hlt Hflag]]; [contradiction|].
  rewrite Hflag, bool_decide_eq_true_2 by exact Hlt. reflexivity.
Qed.

(** X9: when every target of a call is marked for forced inlining, [Reduce]
    substitutes the call at once with inlining forced, whatever
    [CanInlineFunction] says of the targets and before the inlining depth,
    the frequency, the mode and the budget are looked at. *)
Theorem Reduce_forced cfg fuel call h candidate summary :
  collects cfg call h candidate summary ->
  all_force_inline summary = true ->
  Reduce cfg fuel call h
  = InlineCandidate cfg fuel candidate true (set_seen ({[call]} ∪ seen_ h) h).
Proof.
  intros Hcollects Hforce. rewrite (Reduce_collects _ _ _ _ _ _ Hcollects), Hforce.
  reflexivity.
Qed.

(** X10: a call that is not forced is dropped, marked as seen and with no
    change reported, when none of its targets can be inlined, or when the
    chain of its frame states holds more JS-function frames than
    [FLAG_max_inlining_levels]; this is decided before the frequency and the
    mode are read. *)
Theorem Reduce_gives_up cfg fuel call h candidate summary :
  collects cfg call h candidate summary ->
  all_force_inline summary = false ->
  can_inline summary = false \/
  (exists frame_state,
      GetFrameStateInput call (graph h) = Some frame_state /\
      inlining_level_exceeded cfg fuel frame_state 0 (graph h) = Some true) ->
  Reduce cfg fuel call h = Some (NoChange, set_seen ({[call]} ∪ seen_ h) h).
Proof.
  intros Hcollects Hforce Hwhy.
  rewrite (Reduce_collects _ _ _ _ _ _ Hcollects), Hforce.
  destruct (can_inline summary); cbn [negb]; [|reflexivity].
  destruct Hwhy as [|(frame_state & Hframe & Hdepth)]; [discriminate|].
  set (h1 := set_seen ({[call]} ∪ seen_ h) h).
  rewrite (bind_eval _ _ _ frame_state h1) by (apply on_graph_rd; exact Hframe).
  rewrite (bind_eval _ _ _ true h1) by (apply on_graph_rd; exact Hdepth).
  reflexivity.
Qed.

(** The checks of [Reduce] that come before the mode is looked at. *)
Definition survives_to_mode (cfg : Config) (fuel : nat) (call : nat)
    (h : JSInliningHeuristic) (candidate : Candidate) : Prop :=
  exists candidate2 summary frame_state f,
    collects cfg call h candidate2 summary /\
    all_force_inline summary = false /\ can_inline summary = true /\
    GetFrameStateInput call (graph h) = Some frame_state /\
    inlining_level_exceeded cfg fuel frame_state 0 (graph h) = Some false /\
    call_frequency call (graph h) = Some f /\
    candidate = with_frequency candidate2 f.

(** X11: for a candidate that survives the checks made before the mode is
    looked at, the restricted mode stops there, reporting no change, and the
    stress mode substitutes the candidate at once, without forcing, whatever
    its frequency and the size of its targets. *)
Theorem Reduce_in_special_modes cfg fuel call h candidate :
  survives_to_mode cfg fuel call h candidate ->
  let h1 := set_seen ({[call]} ∪ seen_ h) h in
  (mode_ cfg = kRestrictedInlining -> Reduce cfg fuel call h = Some (NoChange, h1)) /\
  (mode_ cfg = kStressInlining ->
   Reduce cfg fuel call h = InlineCandidate cfg fuel candidate false h1).
Proof.
  intros (candidate2 & summary & frame_state & f & Hcollects & Hforce & Hcan & Hframe
          & Hdepth & Hfreq & ->) h1.
  rewrite (Reduce_collects _ _ _ _ _ _ Hcollects), Hforce, Hcan. cbn [negb]. fold h1.
  rewrite (bind_eval _ _ _ frame_state h1) by (apply on_graph_rd; exact Hframe).
  rewrite (bind_eval _ _ _ false h1) by (apply on_graph_rd; exact Hdepth).
  rewrite (bind_eval _ _ _ f h1) by (apply on_graph_rd; exact Hfreq).
  cbv zeta. split; intros ->; reflexivity.
Qed.

(** Further instances: a closure marked for forced inlining that is a
    built-in, a closure too long to be inlined, and configurations in a
    given mode. *)
Module Cases.

Definition forced : JSFunction :=
  mkJSFunction 103 (mkSharedFunctionInfo true false (Some 7%N) true).

Definition long : JSFunction := mkJSFunction 104 (Example.descriptor 600).

Definition config (mode : Mode) (polymorphic : bool)
    (inliner : nat -> Graph -> Graph * Reduction) : Config :=
  mkConfig 500 30 100000 1000 5 1 polymorphic
    (fun size => (inject_Z size * (6 # 5))%Q) (fun _ => kMinInt) 4 mode inliner
    (fun _ _ _ _ g => g) (fun _ _ => None).

End Cases.

Lemma mono_graph_resolves cfg f freq count :
  0 < kMaxCallPolymorphism cfg ->
  resolves cfg 4 (mkHeuristic (Example.mono_graph f freq) ∅ [] count []) 1
    (<[0 := Some f]> (replicate (kMaxCallPolymorphism cfg) None)) None.
Proof.
  intros Hmax. exists kJSCall, 1.
  split; [reflexivity|]. split; [reflexivity|]. split; [apply not_elem_of_empty|].
  split; [reflexivity|].
  unfold CollectFunctions. simpl. unfold array_set.
  rewrite length_replicate. destruct (decide _); [reflexivity|lia].
Qed.

Lemma Reduce_without_targets_witness :
  let cfg := Cases.config kGeneralInlining false Example.accepting in
  let h := Example.initial (Example.poly_graph 2 3) in
  Reduce cfg 10 8 h = Some (NoChange, set_seen ({[8]} ∪ seen_ h) h).
Proof.
  intros cfg h.
  apply (Reduce_without_targets cfg 10 8 h 2 [Some Example.F0; Some Example.F1; None; None]
           None).
  - exists kJSCall, 4.
    split; [reflexivity|]. split; [reflexivity|]. split; [apply not_elem_of_empty|].
    split; reflexivity.
  - right. split; [lia|reflexivity].
Defined.

Lemma Reduce_forced_witness :
  let cfg := Cases.config kRestrictedInlining true Example.accepting in
  let h := Example.initial (Example.mono_graph Cases.forced UnknownFrequency) in
  exists h',
    Reduce cfg 10 4 h = Some (Replace 4, h') /\ cumulative_count_ h' = 7%Z.
Proof.
  intros cfg h.
  assert (Hcollects : collects cfg 4 h
            (mkCandidate [Some Cases.forced; None; None; None] [false; false; false; false]
               None 1 4 UnknownFrequency 0)
            (mkTargetSummary false true true)).
  { exists 1, [Some Cases.forced; None; None; None], None.
    split; [apply (mono_graph_resolves cfg Cases.forced UnknownFrequency 0); simpl; lia|].
    split; [discriminate|]. split; [intros; reflexivity|]. reflexivity. }
  rewrite (Reduce_forced cfg 10 4 h _ _ Hcollects eq_refl).
  eexists. split; [vm_compute; reflexivity|]. reflexivity.
Defined.

Lemma Reduce_gives_up_witness :
  let cfg := Cases.config kGeneralInlining true Example.accepting in
  let h := Example.initial (Example.mono_graph Cases.long UnknownFrequency) in
  Reduce cfg 10 4 h = Some (NoChange, set_seen ({[4]} ∪ seen_ h) h).
Proof.
  intros cfg h.
  apply (Reduce_gives_up cfg 10 4 h
           (mkCandidate [Some Cases.long; None; None; None] [false; false; false; false]
              None 1 4 UnknownFrequency 0)
           (mkTargetSummary false false false)).
  - exists 1, [Some Cases.long; None; None; None], None.
    split; [apply (mono_graph_resolves cfg Cases.long UnknownFrequency 0); simpl; lia|].
    split; [discriminate|]. split; [intros; reflexivity|]. reflexivity.
  - reflexivity.
  - left. reflexivity.
Defined.

Lemma Reduce_in_special_modes_witness :
  let restricted := Cases.config kRestrictedInlining true Example.accepting in
  let stress := Cases.config kStressInlining true Example.accepting in
  let h := Example.initial (Example.mono_graph Example.F0 (KnownFrequency (1 # 2))) in
  Reduce restricted 10 4 h = Some (NoChange, set_seen ({[4]} ∪ seen_ h) h) /\
  exists h', Reduce stress 10 4 h = Some (Replace 4, h') /\ cumulative_count_ h' = 50%Z.
Proof.
  intros restricted stress h.
  assert (Hsurvives : forall mode,
    survives_to_mode (Cases.config mode true Example.accepting) 10 4 h
      (Example.mono_candidate Example.F0 (KnownFrequency (1 # 2)) 50)).
  { intros mode.
    exists (Example.mono_candidate Example.F0 UnknownFrequency 50),
      (mkTargetSummary true false false), 3, (KnownFrequency (1 # 2)).
    split.
    { exists 1, [Some Example.F0; None; None; None], None.
      split; [apply (mono_graph_resolves (Cases.config mode true Example.accepting)
                       Example.F0 (KnownFrequency (1 # 2)) 0); simpl; lia|].
      split; [discriminate|]. split; [intros; reflexivity|]. reflexivity. }
    repeat split; reflexivity. }
  split.
  - apply (proj1 (Reduce_in_special_modes restricted 10 4 h _ (Hsurvives _))). reflexivity.
  - rewrite (proj2 (Reduce_in_special_modes stress 10 4 h _ (Hsurvives _)) eq_refl).
    eexists. split; [vm_compute; reflexivity|]. reflexivity.
Defined.

(** ** Draining without substituting *)




(** ** The two paths of the substitution *)

(** X13: for a candidate with one target, [InlineCandidate] hands the call
    node itself to the inliner and returns what the inliner returns; the
    [force_inline] argument and the budget are not looked at.  The
    bytecode length of the target is added to the cumulative count, on
    [int], when the inliner reports a change, and the count stays when it
    does not; the seen-set and the backlog stay as they are. *)
Theorem InlineCandidate_monomorphic cfg fuel candidate force h sh size :
  num_functions candidate = 1 ->
  target_shared candidate 0 = Some (Some sh) ->
  bytecode_length sh = Some size ->
  let outcome := inliner_ReduceJSCall cfg (node candidate) (graph h) in
  InlineCandidate cfg fuel candidate force h
  = Some (outcome.2,
          mkHeuristic outcome.1 (seen_ h) (candidates_ h)
            (if Changed outcome.2 then add_int (cumulative_count_ h) size
             else cumulative_count_ h)
            (inliner_calls h
             ++ [mkInlinerCall (node candidate) (Some sh) (Changed outcome.2)])).
Proof.
  intros Hnum Htarget Hsize outcome. unfold InlineCandidate.
  destruct (decide (num_functions candidate = 1)); [|contradiction].
  rewrite (bind_eval _ _ _ (Some sh) h) by (unfold lift, rd; rewrite Htarget; reflexivity).
  erewrite bind_eval; [|apply ReduceJSCall_Some; split; reflexivity].
  fold outcome. destruct (Changed outcome.2).
  - unfold bind, lift, rd, add_cumulative_count, modify, ret. simpl. rewrite Hsize.
    reflexivity.
  - reflexivity.
Qed.

Lemma InlineCandidate_monomorphic_witness :
  let cfg := Example.config 30 100000 10 (6 # 5) Example.accepting in
  let g := Example.mono_graph Example.F0 UnknownFrequency in
  InlineCandidate cfg 10 (Example.mono_candidate Example.F0 UnknownFrequency 50) false
    (mkHeuristic g ∅ [] 1000 [])
  = Some (Replace 4,
          mkHeuristic g ∅ [] 1050 [mkInlinerCall 4 (Some (Example.descriptor 50)) true]).
Proof.
  intros cfg g.
  apply (InlineCandidate_monomorphic cfg 10
           (Example.mono_candidate Example.F0 UnknownFrequency 50) false
           (mkHeuristic g ∅ [] 1000 []) (Example.descriptor 50) 50); reflexivity.
Defined.

Lemma InlineCandidate_polymorphic_Some cfg fuel candidate force h r h' :
  num_functions candidate <> 1 ->
  InlineCandidate cfg fuel candidate force h = Some (r, h') ->
  exists value, r = Replace value.
Proof.
  intros Hnum H. unfold InlineCandidate in H.
  destruct (decide (num_functions candidate = 1)); [contradiction|].
  repeat (apply bind_Some in H; destruct H as (? & ? & _ & H)).
  apply ret_Some in H. destruct H as [-> _]. eauto.
Qed.

(** X14: for a candidate with several targets, [InlineCandidate] reports a
    change whenever it returns, namely the replacement of the call by the
    value phi that joins the dispatched calls, also when no branch was
    handed to the inliner or the inliner changed none.  The drain therefore
    returns right after such a candidate has been tried. *)
Theorem InlineCandidate_polymorphic_changes cfg fuel candidate force h r h' :
  1 < num_functions candidate ->
  InlineCandidate cfg fuel candidate force h = Some (r, h') ->
  Changed r = true /\
  forall h0 rest,
    candidates_ h0 = candidate :: rest -> h = set_candidates rest h0 -> force = false ->
    ~ over_budget cfg h0 candidate -> IsDead (node candidate) (graph h0) = Some false ->
    Finalize cfg fuel h0 = Some (tt, h').
Proof.
  intros Hnum H.
  assert (Hne : num_functions candidate <> 1) by lia.
  destruct (InlineCandidate_polymorphic_Some _ _ _ _ _ _ _ Hne H) as (value & ->).
  split; [reflexivity|].
  intros h0 rest E -> -> Hfits Hlive.
  rewrite Finalize_unfold, E. simpl length.
  rewrite (Finalize_loop_step cfg fuel (length rest) h0 candidate rest E). cbv zeta.
  unfold over_budget in Hfits.
  destruct (_ >? _)%Z eqn:Egt; [apply Z.gtb_lt in Egt; contradiction|].
  rewrite (bind_eval _ _ _ false _) by (apply on_graph_rd; exact Hlive). cbn [negb].
  rewrite (bind_eval _ _ _ _ _ H). reflexivity.
Qed.

Lemma InlineCandidate_polymorphic_changes_witness :
  let cfg := Example.config 30 100000 1000 (6 # 5) Example.refusing in
  let h0 := mkHeuristic (Example.poly_graph 2 3) {[8]} [Example.poly_candidate] 0 [] in
  exists h',
    Finalize cfg 5 h0 = Some (tt, h') /\
    cumulative_count_ h' = 0%Z /\ candidates_ h' = [] /\
    map inlined_changed (inliner_calls h') = [false; false].
Proof.
  intros cfg h0. eexists. split.
  - refine (proj2 (InlineCandidate_polymorphic_changes cfg 5 Example.poly_candidate false
                     (set_candidates [] h0) _ _ _ _) h0 [] _ _ _ _ _).
    + simpl. lia.
    + vm_compute. reflexivity.
    + reflexivity.
    + reflexivity.
    + reflexivity.
    + unfold over_budget. vm_compute. discriminate.
    + reflexivity.
  - repeat split; reflexivity.
Defined.

(** ** The uses collected in snapshot trees *)

(** What a collection of the uses of [node] may do to the buffer: it appends
    input slots that hold [node], in nodes that are not shared, it stays
    within [max_uses] slots when it started within, and it declines only
    with a full buffer. *)
Definition collected (node : nat) (max_uses : nat) (g : Graph)
    (uses : list NodeAndIndex) (r : bool * list NodeAndIndex) : Prop :=
  exists new,
    r.2 = uses ++ new /\
    Forall (fun use : NodeAndIndex =>
              InputAt use.1 use.2 g = Some node /\ UseCount use.1 g <= 1) new /\
    (length uses <= max_uses -> length r.2 <= max_uses) /\
    (r.1 = false -> max_uses <= length r.2).

Lemma collected_refl node max_uses g uses : collected node max_uses g uses (true, uses).
Proof.
  exists []. simpl. rewrite app_nil_r.
  split; [reflexivity|]. split; [constructor|]. split; [auto|discriminate].
Qed.

Lemma collected_trans node max_uses g uses uses1 r :
  collected node max_uses g uses (true, uses1) -> collected node max_uses g uses1 r ->
  collected node max_uses g uses r.
Proof.
  intros (new1 & E1 & F1 & B1 & _) (new2 & E2 & F2 & B2 & D2). simpl in *. subst uses1.
  exists (new1 ++ new2). rewrite E2, app_assoc.
  split; [reflexivity|]. split; [apply Forall_app; auto|].
  split; [|rewrite <- E2; exact D2].
  intros Hle. rewrite <- E2. apply B2, B1, Hle.
Qed.

Lemma CollectStateValuesOwnedUses_loop_collected
    (rec : nat -> list NodeAndIndex -> option (bool * list NodeAndIndex))
    node state_values max_uses g :
  (forall input uses r, rec input uses = Some r -> collected node max_uses g uses r) ->
  UseCount state_values g <= 1 ->
  forall remaining i uses r,
    CollectStateValuesOwnedUses_loop rec node state_values i remaining uses max_uses g
      = Some r ->
    collected node max_uses g uses r.
Proof.
  intros Hrec Hown. induction remaining as [|remaining IH]; intros i uses r H; simpl in H.
  - injection H as <-. apply collected_refl.
  - destruct (InputAt state_values i g) as [input|] eqn:Einput; [|discriminate]. simpl in H.
    destruct (opcode_of input g) as [code|]; [|discriminate]. simpl in H.
    destruct (decide (code = kStateValues)).
    + destruct (rec input uses) as [[ok uses1]|] eqn:Erec; [|discriminate]. simpl in H.
      apply Hrec in Erec. destruct ok.
      * eapply collected_trans; [exact Erec|]. eapply IH. exact H.
      * injection H as <-. exact Erec.
    + destruct (decide (input = node)) as [->|]; [|eapply IH; exact H].
      destruct (decide (max_uses ≤ length uses)) as [Hfull|Hroom].
      * injection H as <-. exists []. simpl. rewrite app_nil_r.
        split; [reflexivity|]. split; [constructor|]. auto.
      * eapply collected_trans; [|eapply IH; exact H].
        exists [(state_values, i)]. simpl.
        split; [reflexivity|].
        split; [constructor; [simpl; split; [exact Einput|exact Hown]|constructor]|].
        split; [|discriminate]. intros _. rewrite length_app. simpl. lia.
Qed.

Lemma CollectStateValuesOwnedUses_collected node max_uses g fuel :
  forall state_values uses r,
    CollectStateValuesOwnedUses fuel node state_values uses max_uses g = Some r ->
    collected node max_uses g uses r.
Proof.
  induction fuel as [|fuel IH]; intros state_values uses r H; [discriminate|]. simpl in H.
  destruct (decide (1 < UseCount state_values g)).
  { injection H as <-. apply collected_refl. }
  destruct (InputCount state_values g) as [count|]; [|discriminate]. simpl in H.
  eapply (CollectStateValuesOwnedUses_loop_collected _ node state_values max_uses g);
    [|lia|exact H].
  intros input uses' r' H'. eapply IH. exact H'.
Qed.

(** X15: [CollectStateValuesOwnedUses] only appends to the buffer of uses,
    and what it appends are input slots that do hold [node], in state-values
    nodes that have one use at most.  A buffer within [max_uses] entries
    stays within [max_uses] entries, so that no slot past the end of
    [uses_buffer] is written, and the function returns [false] only with a
    buffer that is full. *)
Theorem CollectStateValuesOwnedUses_sound fuel node state_values uses max_uses g ok uses' :
  CollectStateValuesOwnedUses fuel node state_values uses max_uses g = Some (ok, uses') ->
  exists new,
    uses' = uses ++ new /\
    Forall (fun use : NodeAndIndex =>
              InputAt use.1 use.2 g = Some node /\ UseCount use.1 g <= 1) new /\
    (length uses <= max_uses -> length uses' <= max_uses) /\
    (ok = false -> max_uses <= length uses').
Proof.
  intros H. exact (CollectStateValuesOwnedUses_collected _ _ _ _ _ _ _ H).
Qed.

Lemma CollectStateValuesOwnedUses_sound_witness :
  let g := Example.poly_graph 3 3 in
  exists new,
    CollectStateValuesOwnedUses 5 4 6 [] 8 g = Some (true, [] ++ new) /\
    length new = 3 /\
    Forall (fun use : NodeAndIndex =>
              InputAt use.1 use.2 g = Some 4 /\ UseCount use.1 g <= 1) new.
Proof.
  intros g.
  destruct (CollectStateValuesOwnedUses_sound 5 4 6 [] 8 g true [(6, 0); (6, 1); (6, 2)]
              ltac:(vm_compute; reflexivity)) as (new & E & F & _).
  exists new. simpl in E. subst new. split; [vm_compute; reflexivity|].
  split; [reflexivity|exact F].
Defined.

Lemma CollectFrameStateUniqueUses_collected fuel node frame_state uses max_uses g ok uses' :
  CollectFrameStateUniqueUses fuel node frame_state uses max_uses g = Some (ok, uses') ->
  (1 < UseCount frame_state g -> ok = true /\ uses' = uses) /\
  exists new,
    uses' = uses ++ new /\
    Forall (fun use : NodeAndIndex =>
              InputAt use.1 use.2 g = Some node /\ UseCount use.1 g <= 1) new /\
    (length uses <= max_uses -> length uses' <= max_uses) /\
    (ok = false -> max_uses <= length uses').
Proof.
  unfold CollectFrameStateUniqueUses. intros H.
  destruct (decide (1 < UseCount frame_state g)) as [Hshared|Hown].
  { injection H as <- <-. split; [auto|]. apply (collected_refl node max_uses g uses). }
  split; [intros; lia|].
  destruct (InputAt frame_state kFrameStateStackInput g) as [stack|] eqn:Estack;
    [|discriminate]. simpl in H.
  assert (Hstack : forall ok1 uses1,
    (if decide (stack = node) then
       if decide (max_uses ≤ length uses) then Some (false, uses)
       else Some (true, uses ++ [(frame_state, kFrameStateStackInput)])
     else Some (true, uses)) = Some (ok1, uses1) ->
    collected node max_uses g uses (ok1, uses1)).
  { intros ok1 uses1 E. destruct (decide (stack = node)) as [->|].
    - destruct (decide (max_uses ≤ length uses)).
      + injection E as <- <-. exists []. simpl. rewrite app_nil_r.
        split; [reflexivity|]. split; [constructor|]. auto.
      + injection E as <- <-. exists [(frame_state, kFrameStateStackInput)]. simpl.
        split; [reflexivity|].
        split; [constructor; [simpl; split; [exact Estack|lia]|constructor]|].
        split; [|discriminate]. intros _. rewrite length_app. simpl. lia.
    - injection E as <- <-. apply collected_refl. }
  revert Hstack.
  destruct (if decide (stack = node) then _ else _) as [[ok1 uses1]|]; [|discriminate].
  intros Hstack. pose proof (Hstack _ _ eq_refl) as E.
  simpl in H. destruct ok1.
  - destruct (InputAt frame_state kFrameStateLocalsInput g) as [locals|]; [|discriminate].
    simpl in H. apply CollectStateValuesOwnedUses_collected in H.
    apply (collected_trans _ _ _ _ _ _ E H).
  - injection H as <- <-. exact E.
Qed.

(** X16: [CollectFrameStateUniqueUses] leaves the buffer alone for a frame
    state that has more than one use.  Otherwise it only appends input slots
    that hold [node], the stack slot of the frame state and slots of the
    state-values nodes under its locals, all in nodes with one use at most;
    it stays within [max_uses] entries and returns [false] only with a full
    buffer. *)
Theorem CollectFrameStateUniqueUses_sound fuel node frame_state uses max_uses g ok uses' :
  CollectFrameStateUniqueUses fuel node frame_state uses max_uses g = Some (ok, uses') ->
  (1 < UseCount frame_state g -> ok = true /\ uses' = uses) /\
  exists new,
    uses' = uses ++ new /\
    Forall (fun use : NodeAndIndex =>
              InputAt use.1 use.2 g = Some node /\ UseCount use.1 g <= 1) new /\
    (length uses <= max_uses -> length uses' <= max_uses) /\
    (ok = false -> max_uses <= length uses').
Proof. apply CollectFrameStateUniqueUses_collected. Qed.

Lemma CollectFrameStateUniqueUses_sound_witness :
  let g := Example.poly_graph 8 3 in
  exists uses',
    CollectFrameStateUniqueUses 5 4 7 [] 8 g = Some (false, uses') /\ 8 <= length uses'.
Proof.
  intros g. eexists. split; [vm_compute; reflexivity|].
  destruct (CollectFrameStateUniqueUses_sound 5 4 7 [] 8 g false _
              ltac:(vm_compute; reflexivity)) as (_ & new & _ & _ & _ & Hfull).
  apply Hfull. reflexivity.
Defined.

(** ** Renaming in state values *)

(** X17: [DuplicateStateValuesAndRename] returns the node it was given and
    leaves the graph as it is, whatever [from], [to] and the mode: an input
    equal to [from] is processed to [from] itself, so that no input is ever
    replaced and no node is cloned; the occurrences of [from] under the
    state values keep referring to [from]. *)
Theorem DuplicateStateValuesAndRename_keeps_inputs fuel state_values from to mode g
    result g' :
  DuplicateStateValuesAndRename fuel state_values from to mode g = Some (result, g') ->
  result = state_values /\ g' = g.
Proof.
  apply DuplicateStateValuesAndRename_same.
Qed.

Lemma DuplicateStateValuesAndRename_keeps_inputs_witness :
  let g := Example.poly_graph 2 3 in
  DuplicateStateValuesAndRename 5 6 4 1 kChangeInPlace g = Some (6, g) /\
  InputAt 6 0 g = Some 4.
Proof.
  intros g.
  destruct (DuplicateStateValuesAndRename 5 6 4 1 kChangeInPlace g) as [[result g']|] eqn:E.
  - destruct (DuplicateStateValuesAndRename_keeps_inputs 5 6 4 1 kChangeInPlace g _ _ E)
      as [-> ->].
    split; reflexivity.
  - vm_compute in E. discriminate E.
Defined.

(** ** When the dispatch is reused *)

(** The preconditions of the reuse: the call and the callee phi hang off the
    same merge; the effect input of the call is the effect phi of that merge,
    or a checkpoint on that merge whose effect input is that effect phi; and
    every use of the callee is the target slot of the call or one of at most
    [kMaxUses] slots in unshared nodes. *)
Definition reusable (call callee merge : nat) (g : Graph) : Prop :=
  GetControlInput callee g = Some merge /\
  GetControlInput call g = Some merge /\
  (exists effect_phi,
      opcode_of effect_phi g = Some kEffectPhi /\
      GetControlInput effect_phi g = Some merge /\
      (GetEffectInput call g = Some effect_phi \/
       exists checkpoint,
         GetEffectInput call g = Some checkpoint /\
         opcode_of checkpoint g = Some kCheckpoint /\
         GetControlInput checkpoint g = Some merge /\
         GetEffectInput checkpoint g = Some effect_phi)) /\
  (exists replaceable_uses,
      length replaceable_uses <= kMaxUses /\
      Forall (fun use : NodeAndIndex =>
                InputAt use.1 use.2 g = Some callee /\ UseCount use.1 g <= 1)
        replaceable_uses /\
      forall edge, edge ∈ use_edges callee g ->
                   edge = (call, 0) \/ edge ∈ replaceable_uses).

Lemma uses_accounted_true call callee replaceable_uses g :
  uses_accounted call callee replaceable_uses g = true ->
  forall edge, edge ∈ use_edges callee g -> edge = (call, 0) \/ edge ∈ replaceable_uses.
Proof.
  unfold uses_accounted. intros H edge Hedge.
  rewrite forallb_forall in H. apply list_elem_of_In in Hedge. apply H in Hedge.
  apply orb_true_iff in Hedge. destruct Hedge as [Hcall|Hfound].
  - left. apply bool_decide_eq_true in Hcall. exact Hcall.
  - right. apply existsb_exists in Hfound. destruct Hfound as (use & Hin & Heq).
    apply bool_decide_eq_true in Heq. subst use. apply list_elem_of_In. exact Hin.
Qed.

Lemma TryReuseDispatch_from_true fuel call callee merge checkpoint effect
    num_calls input_count arrays g arrays' g' :
  TryReuseDispatch_from fuel call callee merge checkpoint effect num_calls
    input_count arrays g = Some ((true, arrays'), g') ->
  opcode_of effect g = Some kEffectPhi /\
  GetControlInput effect g = Some merge /\
  (exists replaceable_uses,
      length replaceable_uses <= kMaxUses /\
      Forall (fun use : NodeAndIndex =>
                InputAt use.1 use.2 g = Some callee /\ UseCount use.1 g <= 1)
        replaceable_uses /\
      forall edge, edge ∈ use_edges callee g ->
                   edge = (call, 0) \/ edge ∈ replaceable_uses) /\
  IsDead merge g' = Some true.
Proof.
  unfold TryReuseDispatch_from. intros H.
  apply bind_Some in H. destruct H as (code & g0 & H0 & H).
  apply rd_Some in H0. destruct H0 as [Hcode ->].
  destruct (decide (code ≠ kEffectPhi)) as [|Hphi].
  { apply ret_Some in H. destruct H as [[=] _]. }
  apply dec_stable in Hphi. subst code.
  apply bind_Some in H. destruct H as (effect_control & g0 & H0 & H).
  apply rd_Some in H0. destruct H0 as [Hcontrol ->].
  destruct (decide (effect_control ≠ merge)) as [|Hmerge].
  { apply ret_Some in H. destruct H as [[=] _]. }
  apply dec_stable in Hmerge. subst effect_control.
  split; [exact Hcode|]. split; [exact Hcontrol|].
  apply bind_Some in H. destruct H as ([[ok2 uses2] checkpoint_state] & g0 & H0 & H).
  assert (Hfirst : g0 = g /\ (ok2 = true -> collected callee kMaxUses g [] (ok2, uses2))).
  { destruct checkpoint as [cp|].
    - apply bind_Some in H0. destruct H0 as (state & g1 & H1 & H0).
      apply rd_Some in H1. destruct H1 as [_ ->].
      apply bind_Some in H0. destruct H0 as ([ok uses] & g1 & H1 & H0).
      apply rd_Some in H1. destruct H1 as [Hcollect ->].
      apply ret_Some in H0. destruct H0 as [[= -> -> ->] ->].
      split; [reflexivity|]. intros _.
      apply (CollectFrameStateUniqueUses_collected _ _ _ _ _ _ _ _ Hcollect).
    - apply ret_Some in H0. destruct H0 as [[= -> -> ->] ->].
      split; [reflexivity|]. intros _. apply collected_refl. }
  destruct Hfirst as [-> Hfirst]. clear H0.
  destruct ok2; cbn [negb] in H; [|apply ret_Some in H; destruct H as [[=] _]].
  specialize (Hfirst eq_refl).
  apply bind_Some in H. destruct H as (frame_state & g0 & H0 & H).
  apply rd_Some in H0. destruct H0 as [Hframe ->].
  apply bind_Some in H. destruct H as ([ok3 replaceable_uses] & g0 & H0 & H).
  apply rd_Some in H0. destruct H0 as [Hcollect ->].
  apply CollectFrameStateUniqueUses_collected in Hcollect. destruct Hcollect as [_ Hsecond].
  destruct ok3; cbn [negb] in H; [|apply ret_Some in H; destruct H as [[=] _]].
  pose proof (collected_trans callee kMaxUses g [] uses2 (true, replaceable_uses)
                Hfirst Hsecond) as (new & E & Hnew & Hbound & _).
  simpl in E. subst replaceable_uses. simpl in Hbound.
  apply bind_Some in H. destruct H as (accounted & g0 & H0 & H).
  apply gets_Some in H0. destruct H0 as [-> ->].
  destruct (uses_accounted call callee new g) eqn:Haccounted; cbn [negb] in H;
    [|apply ret_Some in H; destruct H as [[=] _]].
  split.
  { exists new. split; [apply Hbound; lia|]. split; [exact Hnew|].
    apply uses_accounted_true. exact Haccounted. }
  clear - H.
  do 9 (apply bind_Some in H; destruct H as (? & ? & _ & H)).
  apply bind_Some in H. destruct H as (u & g5 & Hkill & H).
  apply ret_Some in H. destruct H as [_ ->].
  apply Kill_Some in Hkill. destruct Hkill as (n & Hn & ->).
  unfold IsDead. rewrite list_lookup_insert_eq by (eapply lookup_lt_Some; eauto).
  reflexivity.
Qed.

(** X18: [TryReuseDispatch] returns [true] only when the preconditions of the
    reuse hold in the graph it was given, and the merge of the callee phi is
    dead in the graph it leaves. *)
Theorem TryReuseDispatch_accepts fuel call callee candidate arrays input_count g
    arrays' g' :
  TryReuseDispatch fuel call callee candidate arrays input_count g
    = Some ((true, arrays'), g') ->
  exists merge, reusable call callee merge g /\ IsDead merge g' = Some true.
Proof.
  unfold TryReuseDispatch. intros H.
  apply bind_Some in H. destruct H as (merge & g1 & H1 & H).
  apply rd_Some in H1. destruct H1 as [Hmerge ->].
  apply bind_Some in H. destruct H as (ctl & g1 & H1 & H).
  apply rd_Some in H1. destruct H1 as [Hctl ->].
  destruct (decide (ctl ≠ merge)) as [|Hsame].
  { apply ret_Some in H. destruct H as [[=] _]. }
  apply dec_stable in Hsame. subst ctl.
  apply bind_Some in H. destruct H as (effect & g1 & H1 & H).
  apply rd_Some in H1. destruct H1 as [Heffect ->].
  apply bind_Some in H. destruct H as (code & g1 & H1 & H).
  apply rd_Some in H1. destruct H1 as [Hcode ->].
  exists merge. unfold reusable.
  destruct (decide (code = kCheckpoint)) as [->|].
  - apply bind_Some in H. destruct H as (cc & g1 & H1 & H).
    apply rd_Some in H1. destruct H1 as [Hcc ->].
    destruct (decide (cc ≠ merge)) as [|Hsame].
    { apply ret_Some in H. destruct H as [[=] _]. }
    apply dec_stable in Hsame. subst cc.
    apply bind_Some in H. destruct H as (effect' & g1 & H1 & H).
    apply rd_Some in H1. destruct H1 as [Heffect' ->].
    apply TryReuseDispatch_from_true in H. destruct H as (Hphi & Hcontrol & Huses & Hdead).
    split; [|exact Hdead]. split; [exact Hmerge|]. split; [exact Hctl|].
    split; [|exact Huses].
    exists effect'. split; [exact Hphi|]. split; [exact Hcontrol|].
    right. exists effect. auto.
  - apply TryReuseDispatch_from_true in H. destruct H as (Hphi & Hcontrol & Huses & Hdead).
    split; [|exact Hdead]. split; [exact Hmerge|]. split; [exact Hctl|].
    split; [|exact Huses].
    exists effect. auto.
Qed.

Lemma TryReuseDispatch_accepts_witness :
  let g := Example.poly_graph 2 3 in
  let arrays := mkDispatch (replicate 4 0) (replicate 5 0) [4; 0; 0; 7; 5; 3] in
  exists arrays' g',
    TryReuseDispatch 5 8 4 Example.poly_candidate arrays 6 g = Some ((true, arrays'), g') /\
    reusable 8 4 3 g /\ IsDead 3 g' = Some true.
Proof.
  intros g arrays. eexists _, _. split; [vm_compute; reflexivity|].
  destruct (TryReuseDispatch_accepts 5 8 4 Example.poly_candidate arrays 6 g _ _
              ltac:(vm_compute; reflexivity)) as (merge & Hreusable & Hdead).
  assert (merge = 3) as ->.
  { destruct Hreusable as (Hmerge & _). vm_compute in Hmerge. congruence. }
  split; [exact Hreusable|exact Hdead].
Defined.

(** ** The inlining depth *)

(** The chain of frame states that starts at [frame_state], innermost first,
    with the type of each: every frame state is the frame-state input of the
    one before, and the chain ends at a node that is not a frame state. *)
Fixpoint frame_states (g : Graph) (frame_state : nat) (types : list FrameStateType)
    : Prop :=
  match types with
  | [] => exists code, opcode_of frame_state g = Some code /\ code <> kFrameState
  | type :: outer =>
      exists next,
        opcode_of frame_state g = Some kFrameState /\
        (parameter <$> op_of frame_state g) = Some (FrameStateInfo type) /\
        GetFrameStateInput frame_state g = Some next /\
        frame_states g next outer
  end.

(** The number of JS-function frames among the frames of a chain. *)
Definition js_function_frames (types : list FrameStateType) : Z :=
  Z.of_nat (length (filter (fun type => IsJSFunctionType type = true) types)).

Lemma js_function_frames_cons type outer :
  js_function_frames (type :: outer)
  = ((if IsJSFunctionType type then 1 else 0) + js_function_frames outer)%Z.
Proof.
  unfold js_function_frames. rewrite filter_cons.
  destruct (IsJSFunctionType type); simpl.
  - destruct (decide (true = true)); [|congruence]. simpl length. lia.
  - destruct (decide (false = true)); [discriminate|]. lia.
Qed.

Lemma js_function_frames_nonneg types : (0 <= js_function_frames types)%Z.
Proof. unfold js_function_frames. lia. Qed.

Lemma inlining_level_exceeded_from_level cfg g types : forall frame_state level,
  frame_states g frame_state types ->
  (level <= FLAG_max_inlining_levels cfg)%Z ->
  inlining_level_exceeded cfg (S (length types)) frame_state level g
  = Some (FLAG_max_inlining_levels cfg <? level + js_function_frames types)%Z.
Proof.
  induction types as [|type outer IH]; intros frame_state level Hchain Hlevel.
  - destruct Hchain as (code & Hcode & Hne). simpl. rewrite Hcode. simpl.
    destruct (decide (code = kFrameState)); [contradiction|].
    f_equal. symmetry. apply Z.ltb_ge. unfold js_function_frames. simpl. lia.
  - destruct Hchain as (next & Hcode & Hparam & Hnext & Hrest).
    rewrite js_function_frames_cons.
    pose proof (js_function_frames_nonneg outer) as Hnonneg.
    change (inlining_level_exceeded cfg (S (length (type :: outer))) frame_state level g)
      with (code ← opcode_of frame_state g;
            if decide (code = kFrameState) then
              o ← op_of frame_state g;
              match parameter o with
              | FrameStateInfo type =>
                  if IsJSFunctionType type then
                    if (level + 1 >? FLAG_max_inlining_levels cfg)%Z then Some true
                    else
                      next ← GetFrameStateInput frame_state g;
                      inlining_level_exceeded cfg (S (length outer)) next (level + 1)%Z g
                  else
                    next ← GetFrameStateInput frame_state g;
                    inlining_level_exceeded cfg (S (length outer)) next level g
              | _ => None
              end
            else Some false).
    rewrite Hcode. simpl.
    destruct (op_of frame_state g) as [o|]; [|discriminate]. simpl in *.
    injection Hparam as ->. rewrite Hnext. simpl.
    destruct (IsJSFunctionType type).
    + destruct (_ >? _)%Z eqn:Egt.
      * apply Z.gtb_lt in Egt. f_equal. symmetry. apply Z.ltb_lt. lia.
      * assert (level + 1 <= FLAG_max_inlining_levels cfg)%Z.
        { destruct (Z.gtb_spec (level + 1) (FLAG_max_inlining_levels cfg));
            [discriminate|lia]. }
        rewrite (IH next (level + 1)%Z Hrest) by lia. do 2 f_equal. lia.
    + rewrite (IH next level Hrest Hlevel). do 2 f_equal.
Qed.

(** X19: the walk of [Reduce] along the frame states of a call counts the
    JS-function frames of the chain: with a limit that is not negative, the
    inlining depth is found exceeded exactly when the chain holds more
    JS-function frames than [FLAG_max_inlining_levels]; frames of the other
    types, such as arguments adaptors, do not count. *)
Theorem inlining_level_exceeded_counts_frames cfg g frame_state types fuel :
  frame_states g frame_state types ->
  (0 <= FLAG_max_inlining_levels cfg)%Z ->
  length types < fuel ->
  inlining_level_exceeded cfg fuel frame_state 0 g
  = Some (FLAG_max_inlining_levels cfg <? js_function_frames types)%Z.
Proof.
  intros Hchain Hmax Hfuel.
  apply (inlining_level_exceeded_fuel cfg g (S (length types))); [lia|].
  rewrite (inlining_level_exceeded_from_level cfg g types frame_state 0 Hchain Hmax).
  reflexivity.
Qed.

Module Frames.

(** A call (node 6) under three frame states: a JS-function frame (node 5)
    inside an arguments adaptor (node 4) inside a JS-function frame
    (node 3). *)
Definition adaptor : Operator :=
  mkOperator kFrameState 5 0 1 0 0 (FrameStateInfo kArgumentsAdaptor).

Definition nested_graph : Graph :=
  [ Example.start;
    Example.constant Example.F0;
    mkNode (Example.StateValues 0) [] false;
    mkNode Example.FrameState [2; 2; 2; 0; 1; 0] false;
    mkNode adaptor [2; 2; 2; 0; 1; 3] false;
    mkNode Example.FrameState [2; 2; 2; 0; 1; 4] false;
    mkNode (Example.JSCall UnknownFrequency) [1; 0; 0; 5; 0; 0] false ].

End Frames.

Lemma inlining_level_exceeded_counts_frames_witness :
  let types := [kInterpretedFunction; kArgumentsAdaptor; kInterpretedFunction] in
  js_function_frames types = 2%Z /\
  inlining_level_exceeded (Example.config 30 100000 1000 1 Example.accepting) 10 5 0
    Frames.nested_graph = Some false /\
  inlining_level_exceeded
    (mkConfig 500 30 100000 1000 1 1 true (fun size => inject_Z size) (fun _ => kMinInt) 4
       kGeneralInlining
       Example.accepting (fun _ _ _ _ g => g) (fun _ _ => None)) 10 5 0
    Frames.nested_graph = Some true.
Proof.
  intros types.
  assert (Hchain : frame_states Frames.nested_graph 5 types).
  { simpl. exists 4. repeat split. exists 3. repeat split. exists 0. repeat split.
    exists kStart. split; [reflexivity|discriminate]. }
  split; [reflexivity|]. split.
  - rewrite (inlining_level_exceeded_counts_frames _ Frames.nested_graph 5 types 10 Hchain)
      by (simpl; lia).
    reflexivity.
  - rewrite (inlining_level_exceeded_counts_frames _ Frames.nested_graph 5 types 10 Hchain)
      by (simpl; lia).
    reflexivity.
Defined.

(** ** The candidates of the backlog *)

(** A candidate as [Reduce] builds it for the backlog: between one and
    [kMaxCallPolymorphism] targets in arrays of [kMaxCallPolymorphism] slots,
    each target with a shared descriptor and with its flag telling whether it
    can be inlined, one target at least that can be inlined, and for total
    size the bytecode lengths of the targets that can be inlined, added
    up on [int]. *)
Definition well_formed (cfg : Config) (c : Candidate) : Prop :=
  1 <= num_functions c <= kMaxCallPolymorphism cfg /\
  length (functions c) = kMaxCallPolymorphism cfg /\
  length (can_inline_function c) = kMaxCallPolymorphism cfg /\
  exists targets,
    length targets = num_functions c /\
    (forall i sh, targets !! i = Some sh ->
       target_shared c i = Some (Some sh) /\
       can_inline_function c !! i = Some (CanInlineFunction cfg sh)) /\
    existsb (CanInlineFunction cfg) targets = true /\
    total_size c = to_int (inlinable_size cfg targets).

Lemma survives_to_general_well_formed cfg fuel call h candidate small :
  survives_to_general cfg fuel call h candidate small -> well_formed cfg candidate.
Proof.
  intros (code & callee & num & fs & sh & candidate2 & summary & frame_state & f &
          _ & _ & _ & _ & Hcollect & Hnum & _ & Htargets & _ & Hcan & _ & _ & _ & _
          & -> & _).
  apply CollectFunctions_inv in Hcollect. rewrite length_replicate in Hcollect.
  destruct Hcollect as [Hlen Hshape].
  assert (Hbound : 1 <= num <= kMaxCallPolymorphism cfg).
  { destruct Hshape as [[-> _]|[(-> & _ & Hroom & _)|[(Hphi & _)|(-> & _ & Hroom & _)]]];
      [contradiction|lia|lia|lia]. }
  destruct (Reduce_targets_Some _ _ _ _ _ _ _ Htargets)
    as (targets & Hlength & Hall & _ & _ & Hflags & Hsize & Hrange & Hcan' & _ & _ & Hfs
        & Hsi & Hnumf & _).
  simpl in *. unfold well_formed. simpl.
  rewrite Hnumf, Hfs, Hflags, length_replicate.
  split; [exact Hbound|]. split; [exact Hlen|]. split; [reflexivity|].
  exists targets. split; [exact Hlength|]. split; [|split].
  - intros i sh0 Hi. destruct (Hall i sh0 Hi) as [Ht Hf]. simpl in *. split; [|exact Hf].
    rewrite <- Ht. apply target_shared_same; simpl; assumption.
  - rewrite Hcan in Hcan'. simpl in Hcan'. congruence.
  - rewrite Z.add_0_l in Hsize. destruct Hrange as [Hzero|Hr].
    + rewrite <- Hsize, Hzero. reflexivity.
    + rewrite <- Hsize. symmetry. apply to_int_in_range, Hr.
Qed.

Lemma Reduce_keeps_well_formed cfg fuel call h r h' :
  Forall (well_formed cfg) (candidates_ h) ->
  Reduce cfg fuel call h = Some (r, h') ->
  Forall (well_formed cfg) (candidates_ h').
Proof.
  intros Hall H. destruct (Reduce_inv _ _ _ _ _ _ H) as (code & _ & Hcases).
  destruct (negb (IsInlineeOpcode code) || bool_decide (call ∈ seen_ h)).
  { destruct Hcases as [_ ->]. exact Hall. }
  destruct Hcases as [_ [->|(c & small & Hsurvives & _ & _ & _ & ->)]]; [exact Hall|].
  simpl. apply Forall_forall. intros x Hx. apply set_insert_elem in Hx.
  destruct Hx as [->|Hx].
  - eapply survives_to_general_well_formed. exact Hsurvives.
  - rewrite Forall_forall in Hall. apply Hall. exact Hx.
Qed.

(** X20: over every sequence of [Reduce] and [Finalize] operations the
    candidates of the backlog are well formed: each has between one and
    [kMaxCallPolymorphism] targets, every target has a shared descriptor and
    its flag tells whether it can be inlined, one target at least can be
    inlined, and the total size is the sum, on [int], of the bytecode
    lengths of the targets that can be inlined. *)
Theorem backlog_candidates_well_formed cfg operations : forall h h',
  Forall (well_formed cfg) (candidates_ h) ->
  run cfg operations h = Some (tt, h') ->
  Forall (well_formed cfg) (candidates_ h').
Proof.
  induction operations as [|o rest IH]; intros h h' Hall H; simpl in H.
  - apply ret_Some in H. destruct H as [_ ->]. exact Hall.
  - apply bind_Some in H. destruct H as ([] & h1 & H1 & H).
    eapply IH; [|exact H]. destruct o as [fuel1 call|fuel1]; simpl in H1.
    + apply bind_Some in H1. destruct H1 as (r & h0 & H0 & H1).
      apply ret_Some in H1. destruct H1 as [_ ->].
      eapply Reduce_keeps_well_formed; eauto.
    + rewrite Finalize_unfold in H1.
      destruct (Finalize_loop_Some _ _ _ _ _ H1) as (_ & k & -> & _).
      apply Forall_drop. exact Hall.
Qed.

Lemma backlog_candidates_well_formed_witness :
  let cfg := Example.config 5 100000 40 (6 # 5) Example.accepting in
  exists h',
    run cfg [DoReduce 10 6; DoReduce 10 4] (Example.initial Example.two_calls_graph)
    = Some (tt, h') /\
    map total_size (candidates_ h') = [50%Z; 10%Z] /\
    Forall (well_formed cfg) (candidates_ h').
Proof.
  intros cfg. eexists. split; [vm_compute; reflexivity|]. split; [reflexivity|].
  eapply (backlog_candidates_well_formed cfg [DoReduce 10 6; DoReduce 10 4]
            (Example.initial Example.two_calls_graph)).
  - constructor.
  - vm_compute. reflexivity.
Defined.

(** ** The drain and the cumulative cap *)

Lemma Qtruncate_lower_bound (z : Z) (q : Q) :
  (0 <= z)%Z -> (inject_Z z <= q)%Q -> (z <= Qtruncate q)%Z.
Proof.
  destruct q as [n d]. unfold Qle, Qtruncate, inject_Z. simpl. intros Hz Hle.
  assert (0 <= n)%Z by nia.
  rewrite Z.quot_div_nonneg by lia.
  apply Z.div_le_lower_bound; lia.
Qed.

Lemma inlinable_size_nonneg cfg targets : (0 <= inlinable_size cfg targets)%Z.
Proof.
  induction targets as [|sh targets IH]; simpl; [lia|].
  destruct (CanInlineFunction cfg sh); [|exact IH].
  destruct (bytecode_array sh); lia.
Qed.

(** What handing target [i] to the inliner can add to the cumulative count
    when inlining is not forced. *)
Definition cost (c : Candidate) (i : nat) : Z :=
  match target_shared c i, can_inline_function c !! i with
  | Some (Some sh), Some true =>
      match bytecode_array sh with Some len => Z.of_N len | None => 0%Z end
  | _, _ => 0%Z
  end.

Lemma cost_nonneg c i : (0 <= cost c i)%Z.
Proof.
  unfold cost. destruct (target_shared c i) as [[sh|]|]; try lia.
  destruct (can_inline_function c !! i) as [[]|]; try lia.
  destruct (bytecode_array sh); lia.
Qed.

Definition total_cost (c : Candidate) (first count : nat) : Z :=
  foldr Z.add 0%Z (cost c <$> seq first count).

Lemma total_cost_S c first count :
  total_cost c first (S count) = (cost c first + total_cost c (S first) count)%Z.
Proof. reflexivity. Qed.

Lemma total_cost_targets cfg c targets : forall first,
  (forall k sh, targets !! k = Some sh ->
     target_shared c (first + k) = Some (Some sh) /\
     can_inline_function c !! (first + k) = Some (CanInlineFunction cfg sh)) ->
  total_cost c first (length targets) = inlinable_size cfg targets.
Proof.
  induction targets as [|sh targets IH]; intros first Hall; [reflexivity|].
  simpl length. rewrite total_cost_S, (IH (S first)); simpl inlinable_size.
  - destruct (Hall 0 sh eq_refl) as [Ht Hf]. rewrite Nat.add_0_r in Ht, Hf.
    unfold cost. rewrite Ht, Hf. destruct (CanInlineFunction cfg sh); lia.
  - intros k sh' Hk. replace (S first + k) with (first + S k) by lia.
    apply Hall. exact Hk.
Qed.

Lemma total_cost_nonneg c : forall count first, (0 <= total_cost c first count)%Z.
Proof.
  induction count as [|count IH]; intros first; [unfold total_cost; simpl; lia|].
  rewrite total_cost_S.
  pose proof (cost_nonneg c first). pose proof (IH (S first)). lia.
Qed.

(** A target that can be inlined is within the size limit of line 63. *)
Lemma inlinable_size_bound cfg targets :
  (inlinable_size cfg targets
   <= Z.of_nat (length targets) * Z.max 0 (FLAG_max_inlined_bytecode_size cfg))%Z.
Proof.
  induction targets as [|sh targets IH]; [simpl; lia|].
  change (inlinable_size cfg (sh :: targets))
    with (if CanInlineFunction cfg sh then
            (match bytecode_array sh with Some len => Z.of_N len | None => 0 end
             + inlinable_size cfg targets)%Z
          else inlinable_size cfg targets).
  simpl length. rewrite Nat2Z.inj_succ, Z.mul_succ_l.
  destruct (CanInlineFunction cfg sh) eqn:Ecan; [|lia].
  unfold CanInlineFunction in Ecan.
  destruct (HasBuiltinFunctionId sh); [discriminate|].
  destruct (negb (IsUserJavaScript sh)); [discriminate|].
  destruct (bytecode_array sh) as [len|]; [|discriminate].
  destruct (Z.gtb_spec (Z.of_N len) (FLAG_max_inlined_bytecode_size cfg)); [discriminate|].
  lia.
Qed.

(** When the size limit of a function times the number of targets is
    within [int], the total size of a well-formed candidate is the sum of
    what its branches can add. *)
Lemma well_formed_total_size cfg c :
  (Z.of_nat (kMaxCallPolymorphism cfg) * FLAG_max_inlined_bytecode_size cfg <= kMaxInt)%Z ->
  well_formed cfg c ->
  total_size c = total_cost c 0 (num_functions c).
Proof.
  intros Hpoly (Hnum & _ & _ & targets & Hlen & Hall & _ & Hsize).
  rewrite Hsize, <- Hlen, (total_cost_targets cfg c targets 0 Hall).
  apply to_int_in_range.
  pose proof (inlinable_size_nonneg cfg targets) as Hlow.
  pose proof (inlinable_size_bound cfg targets) as Hhigh.
  assert (Hn : (Z.of_nat (length targets) <= Z.of_nat (kMaxCallPolymorphism cfg))%Z)
    by lia.
  unfold in_int_range, kMinInt, kMaxInt in *. split; [lia|].
  destruct (Z.max_spec 0 (FLAG_max_inlined_bytecode_size cfg)) as [[Hpos Hmax]|[_ Hmax]];
    rewrite Hmax in Hhigh; [|lia].
  etransitivity; [exact Hhigh|]. etransitivity; [|exact Hpoly].
  apply Z.mul_le_mono_nonneg_r; [lia|exact Hn].
Qed.

Lemma InlineCandidate_call_cost cfg c calls_array i h h' :
  (0 <= cumulative_count_ h)%Z ->
  (cumulative_count_ h + cost c i <= kMaxInt)%Z ->
  InlineCandidate_call cfg false c calls_array i h = Some (tt, h') ->
  (cumulative_count_ h <= cumulative_count_ h' <= cumulative_count_ h + cost c i)%Z.
Proof.
  unfold InlineCandidate_call. intros Hlow Hroom H.
  pose proof (cost_nonneg c i) as Hcost.
  apply bind_Some in H. destruct H as (function & h1 & H1 & H).
  apply lift_Some in H1. destruct H1 as [Hfunction ->].
  apply bind_Some in H. destruct H as (call & h1 & H1 & H).
  apply lift_Some in H1. destruct H1 as [_ ->].
  apply bind_Some in H. destruct H as (decision & h1 & H1 & H).
  apply bind_Some in H1. destruct H1 as (can & h2 & H2 & H1).
  apply lift_Some in H2. destruct H2 as [Hcan ->].
  apply bind_Some in H1. destruct H1 as (count & h2 & H2 & H1).
  apply gets_Some in H2. destruct H2 as [-> ->].
  apply ret_Some in H1. destruct H1 as [-> ->].
  destruct (can && _) eqn:Edecision; [|apply ret_Some in H; destruct H as [_ ->]; lia].
  apply andb_true_iff in Edecision. destruct Edecision as [-> _].
  apply bind_Some in H. destruct H as (reduction & h1 & H1 & H).
  apply ReduceJSCall_Some in H1. destruct H1 as [_ ->].
  destruct (Changed reduction); [|apply ret_Some in H; destruct H as [_ ->]; simpl; lia].
  apply bind_Some in H. destruct H as (u & h2 & H2 & H).
  apply on_graph_Some in H2. destruct H2 as (g2 & _ & ->).
  apply bind_Some in H. destruct H as (f & h2 & H2 & H).
  apply lift_Some in H2. destruct H2 as [-> ->].
  apply bind_Some in H. destruct H as (size & h2 & H2 & H).
  apply lift_Some in H2. destruct H2 as [Hsize ->].
  apply add_cumulative_count_Some in H. subst h'. simpl.
  assert (Hcosts : cost c i = size).
  { unfold cost, target_shared. rewrite Hfunction, Hcan. simpl.
    unfold bytecode_length in Hsize. destruct (bytecode_array (shared f)); [|discriminate].
    injection Hsize as <-. reflexivity. }
  rewrite Hcosts in *.
  rewrite add_int_in_range by (unfold in_int_range, kMinInt, kMaxInt in *; lia). lia.
Qed.

Lemma for_loop_cost cfg c calls_array : forall count first h h',
  (0 <= cumulative_count_ h)%Z ->
  (cumulative_count_ h + total_cost c first count <= kMaxInt)%Z ->
  for_loop first count (InlineCandidate_call cfg false c calls_array) h = Some (tt, h') ->
  (cumulative_count_ h <= cumulative_count_ h'
   <= cumulative_count_ h + total_cost c first count)%Z.
Proof.
  induction count as [|count IH]; intros first h h' Hlow Hroom H; simpl in H.
  - apply ret_Some in H. destruct H as [_ ->]. unfold total_cost. simpl. lia.
  - apply bind_Some in H. destruct H as ([] & h1 & H1 & H).
    rewrite total_cost_S in *.
    pose proof (cost_nonneg c first) as Hc.
    pose proof (total_cost_nonneg c count (S first)) as Ht.
    apply InlineCandidate_call_cost in H1; [|lia|lia].
    apply IH in H; [|lia|lia]. lia.
Qed.

Lemma on_graph_count {A} (m : G A) h a h' :
  on_graph m h = Some (a, h') -> cumulative_count_ h' = cumulative_count_ h.
Proof. intros H. apply on_graph_Some in H. destruct H as (g' & _ & ->). reflexivity. Qed.

Lemma InlineCandidate_exceptions_count cfg projection num_calls arrays h a h' :
  InlineCandidate_exceptions cfg projection num_calls arrays h = Some (a, h') ->
  cumulative_count_ h' = cumulative_count_ h.
Proof.
  intros H. unfold InlineCandidate_exceptions in H.
  repeat match type of H with
  | bind _ _ _ = Some _ =>
      let H1 := fresh "H" in
      apply bind_Some in H; destruct H as (? & ? & H1 & H);
      first [apply on_graph_count in H1
            |apply lift_Some in H1; destruct H1 as [_ H1]; rewrite H1 in *; clear H1]
  | (let '(_, _) := ?x in _) _ = Some _ => destruct x
  end.
  apply ret_Some in H. destruct H as [_ ->]. congruence.
Qed.

Lemma InlineCandidate_cost cfg fuel c h r h' :
  (Z.of_nat (kMaxCallPolymorphism cfg) * FLAG_max_inlined_bytecode_size cfg <= kMaxInt)%Z ->
  well_formed cfg c ->
  (0 <= cumulative_count_ h)%Z ->
  (cumulative_count_ h + total_size c <= kMaxInt)%Z ->
  InlineCandidate cfg fuel c false h = Some (r, h') ->
  (cumulative_count_ h <= cumulative_count_ h' <= cumulative_count_ h + total_size c)%Z.
Proof.
  intros Hpoly Hwf Hlow Hroom H.
  pose proof (well_formed_total_size cfg c Hpoly Hwf) as Htotal.
  destruct Hwf as (Hnum & _ & _ & targets & Hlen & Hall & Hcan & _).
  rewrite Htotal in Hroom |- *. clear Htotal.
  unfold InlineCandidate in H.
  destruct (decide (num_functions c = 1)) as [Hone|Hmany].
  - rewrite Hone in Hroom |- *. unfold total_cost in Hroom |- *. simpl in Hroom |- *.
    pose proof (cost_nonneg c 0) as Hcost.
    destruct targets as [|sh [|? ?]]; simpl in Hlen; try lia.
    destruct (Hall 0 sh eq_refl) as [Ht Hf]. simpl in Hcan. rewrite orb_false_r in Hcan.
    unfold cost in *. rewrite Ht, Hf, Hcan in *.
    apply bind_Some in H. destruct H as (sh' & h1 & H1 & H).
    apply lift_Some in H1. destruct H1 as [E ->]. injection E as <-.
    apply bind_Some in H. destruct H as (reduction & h1 & H1 & H).
    apply ReduceJSCall_Some in H1. destruct H1 as [_ ->].
    apply bind_Some in H. destruct H as (u & h2 & H2 & H).
    apply ret_Some in H. destruct H as [_ ->].
    destruct (Changed reduction).
    + apply bind_Some in H2. destruct H2 as (size & h3 & H3 & H2).
      apply lift_Some in H3. destruct H3 as [Hsz ->].
      apply add_cumulative_count_Some in H2. subst h2. simpl in *.
      unfold bytecode_length in Hsz. destruct (bytecode_array sh); [|discriminate].
      injection Hsz as <-.
      rewrite add_int_in_range by (unfold in_int_range, kMinInt, kMaxInt in *; lia). lia.
    + apply ret_Some in H2. destruct H2 as [_ ->]. simpl. lia.
  - apply bind_Some in H. destruct H as (callee & h1 & H1 & H).
    apply on_graph_count in H1.
    apply bind_Some in H. destruct H as (input_count & h2 & H2 & H).
    apply on_graph_count in H2.
    apply bind_Some in H. destruct H as (node_inputs & h3 & H3 & H).
    apply on_graph_count in H3.
    apply bind_Some in H. destruct H as (arrays1 & h4 & H4 & H).
    apply on_graph_count in H4.
    apply bind_Some in H. destruct H as (if_exception & h5 & H5 & H).
    apply gets_Some in H5. destruct H5 as [-> ->].
    apply bind_Some in H. destruct H as (arrays2 & h6 & H6 & H).
    assert (H6' : cumulative_count_ h6 = cumulative_count_ h4).
    { destruct (IsExceptionalCall cfg (node c) (graph h4)).
      - eapply InlineCandidate_exceptions_count. exact H6.
      - apply ret_Some in H6. destruct H6 as [_ ->]. reflexivity. }
    apply bind_Some in H. destruct H as (control & h7 & H7 & H).
    apply on_graph_count in H7.
    apply bind_Some in H. destruct H as (calls' & h8 & H8 & H).
    apply lift_Some in H8. destruct H8 as [_ ->].
    apply bind_Some in H. destruct H as (effect & h9 & H9 & H).
    apply on_graph_count in H9.
    apply bind_Some in H. destruct H as (value & h10 & H10 & H).
    apply on_graph_count in H10.
    apply bind_Some in H. destruct H as (u & h11 & H11 & H).
    apply on_graph_count in H11.
    apply bind_Some in H. destruct H as ([] & h12 & H12 & H).
    apply ret_Some in H. destruct H as [_ ->].
    assert (Hsame : cumulative_count_ h11 = cumulative_count_ h) by congruence.
    apply for_loop_cost in H12; rewrite Hsame in *; [lia|exact Hlow|exact Hroom].
Qed.

Lemma Finalize_loop_within_cap cfg fuel bound rounds : forall h h',
  (forall size, (0 <= size)%Z ->
     (inject_Z size <= times_reserve_inline_budget_scale_factor cfg size)%Q) ->
  (Z.of_nat (kMaxCallPolymorphism cfg) * FLAG_max_inlined_bytecode_size cfg <= kMaxInt)%Z ->
  (FLAG_max_inlined_bytecode_size_cumulative cfg <= bound)%Z ->
  Forall (well_formed cfg) (candidates_ h) ->
  Forall (fun c =>
            (bound + Qtruncate (times_reserve_inline_budget_scale_factor cfg (total_size c))
             <= kMaxInt)%Z) (candidates_ h) ->
  (0 <= cumulative_count_ h <= bound)%Z ->
  Finalize_loop cfg fuel rounds h = Some (tt, h') ->
  (cumulative_count_ h <= cumulative_count_ h'
   <= Z.max (cumulative_count_ h) (FLAG_max_inlined_bytecode_size_cumulative cfg))%Z.
Proof.
  induction rounds as [|rounds IH]; intros h h' Hreserve Hpoly Hcap Hall Hroom Hcount H.
  - simpl in H. apply bind_Some in H. destruct H as (cs & h0 & H0 & H).
    apply gets_Some in H0. destruct H0 as [-> ->].
    destruct (candidates_ h); [|discriminate].
    apply ret_Some in H. destruct H as [_ ->]. lia.
  - destruct (candidates_ h) as [|candidate rest] eqn:E.
    + simpl in H. apply bind_Some in H. destruct H as (cs & h0 & H0 & H).
      apply gets_Some in H0. destruct H0 as [-> ->]. rewrite E in H.
      apply ret_Some in H. destruct H as [_ ->]. lia.
    + rewrite (Finalize_loop_step cfg fuel rounds h candidate rest E) in H. cbv zeta in H.
      apply Forall_cons in Hall. destruct Hall as [Hwf Hrest].
      apply Forall_cons in Hroom. destruct Hroom as [Hroom1 Hroom].
      assert (Hnext : forall h2,
                cumulative_count_ h2 = cumulative_count_ h -> candidates_ h2 = rest ->
                Finalize_loop cfg fuel rounds h2 = Some (tt, h') ->
                (cumulative_count_ h <= cumulative_count_ h'
                 <= Z.max (cumulative_count_ h)
                      (FLAG_max_inlined_bytecode_size_cumulative cfg))%Z).
      { intros h2 Hsame Hcs Hloop. rewrite <- Hsame.
        apply IH; [exact Hreserve|exact Hpoly|exact Hcap|rewrite Hcs; exact Hrest
                  |rewrite Hcs; exact Hroom|rewrite Hsame; exact Hcount|exact Hloop]. }
      assert (Hsize : (0 <= total_size candidate)%Z).
      { rewrite (well_formed_total_size cfg candidate Hpoly Hwf).
        apply total_cost_nonneg. }
      pose proof (Qtruncate_lower_bound _ _ Hsize (Hreserve _ Hsize)) as Htruncate.
      rewrite static_cast_int_in_range in H
        by (unfold in_int_range, kMinInt, kMaxInt in *; lia).
      rewrite add_int_in_range in H
        by (unfold in_int_range, kMinInt, kMaxInt in *; lia).
      destruct (Z.gtb_spec
                  (cumulative_count_ h
                   + Qtruncate (times_reserve_inline_budget_scale_factor cfg
                                  (total_size candidate)))
                  (FLAG_max_inlined_bytecode_size_cumulative cfg)) as [Hover|Hfits];
        [apply (Hnext (set_candidates rest h) eq_refl eq_refl H)|].
      apply bind_Some in H. destruct H as (is_dead & h0 & H0 & H).
      apply on_graph_rd_Some in H0. destruct H0 as [_ ->].
      destruct (negb is_dead); [|apply (Hnext (set_candidates rest h) eq_refl eq_refl H)].
      apply bind_Some in H. destruct H as (reduction & h2 & H2 & H).
      assert (Hcost : (cumulative_count_ h <= cumulative_count_ h2
                       <= cumulative_count_ h + total_size candidate)%Z).
      { apply (InlineCandidate_cost cfg fuel candidate (set_candidates rest h) reduction h2
                 Hpoly Hwf); [exact (proj1 Hcount)|simpl; unfold kMaxInt in *; lia|exact H2]. }
      destruct (InlineCandidate_substitutes _ _ _ _ _ _ _ H2) as (_ & _ & Hcs).
      destruct (Changed reduction).
      * apply ret_Some in H. destruct H as [_ ->]. lia.
      * assert (Hih : (cumulative_count_ h2 <= cumulative_count_ h'
                       <= Z.max (cumulative_count_ h2)
                            (FLAG_max_inlined_bytecode_size_cumulative cfg))%Z).
        { apply IH; [exact Hreserve|exact Hpoly|exact Hcap|rewrite Hcs; exact Hrest
                    |rewrite Hcs; exact Hroom|lia|exact H]. }
        lia.
Qed.

(** X21: as long as the sums stay within [int], and with a reserve factor
    that does not shrink a size, the drain keeps the cumulative count within
    the cumulative cap: on a backlog of well-formed candidates, such as
    [Reduce] builds, the count does not decrease, and the count it leaves is
    no more than the cap, or than the count it found when this was above the
    cap already.  The sums stay within [int] when the size limit of a
    function times the number of targets does, the count is not negative,
    and the cost reserved for each candidate of the backlog, added to the
    larger of the count and the cap, does. *)
Theorem Finalize_within_cumulative_cap cfg fuel h h' :
  (forall size, (0 <= size)%Z ->
     (inject_Z size <= times_reserve_inline_budget_scale_factor cfg size)%Q) ->
  (Z.of_nat (kMaxCallPolymorphism cfg) * FLAG_max_inlined_bytecode_size cfg <= kMaxInt)%Z ->
  (0 <= cumulative_count_ h)%Z ->
  Forall (fun c =>
            (Z.max (cumulative_count_ h) (FLAG_max_inlined_bytecode_size_cumulative cfg)
             + Qtruncate (times_reserve_inline_budget_scale_factor cfg (total_size c))
             <= kMaxInt)%Z) (candidates_ h) ->
  Forall (well_formed cfg) (candidates_ h) ->
  Finalize cfg fuel h = Some (tt, h') ->
  (cumulative_count_ h <= cumulative_count_ h'
   <= Z.max (cumulative_count_ h) (FLAG_max_inlined_bytecode_size_cumulative cfg))%Z.
Proof.
  intros Hreserve Hpoly Hlow Hroom Hall H. rewrite Finalize_unfold in H.
  eapply (Finalize_loop_within_cap cfg fuel
            (Z.max (cumulative_count_ h) (FLAG_max_inlined_bytecode_size_cumulative cfg)));
    eauto; lia.
Qed.

Lemma mono_candidate_well_formed small absolute cumulative scale inliner f freq size :
  bytecode_array (shared f) = Some size ->
  HasBuiltinFunctionId (shared f) = false ->
  IsUserJavaScript (shared f) = true ->
  (Z.of_N size <= 500)%Z ->
  well_formed (Example.config small absolute cumulative scale inliner)
    (Example.mono_candidate f freq (Z.of_N size)).
Proof.
  intros Hsize Hbuiltin Huser Hmax.
  assert (Hcan : CanInlineFunction (Example.config small absolute cumulative scale inliner)
                   (shared f) = true).
  { unfold CanInlineFunction. rewrite Hbuiltin, Huser, Hsize. simpl.
    destruct (_ >? _)%Z eqn:E; [apply Z.gtb_lt in E; lia|reflexivity]. }
  split; [simpl; lia|]. split; [reflexivity|]. split; [reflexivity|].
  exists [shared f]. split; [reflexivity|]. split; [|split].
  - intros [|i] sh Hi; [|discriminate]. injection Hi as <-. rewrite Hcan. auto.
  - simpl. rewrite Hcan. reflexivity.
  - simpl. rewrite Hcan, Hsize. rewrite Z.add_0_r. symmetry.
    apply to_int_in_range. unfold in_int_range, kMinInt, kMaxInt. lia.
Qed.

Lemma Finalize_within_cumulative_cap_witness :
  let cfg := Example.config 5 100000 60 (6 # 5) Example.accepting in
  let h := mkHeuristic (Example.mono_graph Example.F0 UnknownFrequency) {[4]}
             [Example.mono_candidate Example.F0 UnknownFrequency 50] 0 [] in
  exists h',
    Finalize cfg 10 h = Some (tt, h') /\
    cumulative_count_ h' = 50%Z /\
    (0 <= cumulative_count_ h' <= 60)%Z.
Proof.
  intros cfg h. eexists. split; [vm_compute; reflexivity|]. split; [reflexivity|].
  refine (Finalize_within_cumulative_cap cfg 10 h _ _ _ _ _ _ _).
  - intros size Hsize. unfold Qle. simpl. lia.
  - vm_compute. discriminate.
  - simpl. lia.
  - constructor; [|constructor]. vm_compute. discriminate.
  - constructor; [|constructor].
    apply (mono_candidate_well_formed 5 100000 60 (6 # 5) Example.accepting Example.F0
             UnknownFrequency 50); try reflexivity. simpl. lia.
  - vm_compute. reflexivity.
Defined.

(** Past the range of [int] the bound is lost: with the count at
    2147483636 and a candidate of 10 bytes, the reserved cost of 12 makes
    the sum of line 207 wrap to [kMinInt], which is within the cap of 60;
    the candidate is substituted, and the count is 2147483646 afterwards. *)
Example Finalize_wraps_past_the_int_range :
  let cfg := Example.config 5 100000 60 (6 # 5) Example.accepting in
  let h := mkHeuristic (Example.mono_graph Example.F1 UnknownFrequency) {[4]}
             [Example.mono_candidate Example.F1 UnknownFrequency 10] 2147483636 [] in
  (fun r => cumulative_count_ r.2) <$> Finalize cfg 10 h = Some 2147483646%Z.
Proof. vm_compute. reflexivity. Qed.

(** ** The calls of a reused dispatch *)

Lemma DuplicateFrameStateAndRename_inv fuel frame_state from to mode g result g' :
  DuplicateFrameStateAndRename fuel frame_state from to mode g = Some (result, g') ->
  (result = frame_state /\ g' = g) \/
  (mode = kCloneState /\
   exists original,
     g !! frame_state = Some original /\ result = length g /\
     g' = g ++ [mkNode (op original)
                  (<[kFrameStateStackInput := to]> (inputs original)) false]) \/
  (mode = kChangeInPlace /\ result = frame_state /\
   exists n,
     g !! frame_state = Some n /\
     g' = <[frame_state := mkNode (op n)
                             (<[kFrameStateStackInput := to]> (inputs n)) (dead n)]> g).
Proof.
  intros H. unfold DuplicateFrameStateAndRename in H.
  apply bind_Some in H. destruct H as (uc & g1 & H1 & H).
  apply gets_Some in H1. destruct H1 as [-> ->].
  destruct (decide (1 < UseCount frame_state g)) as [Hshared|Hown].
  { apply ret_Some in H. destruct H as [-> ->]. auto. }
  apply bind_Some in H. destruct H as (stack & g1 & H1 & H).
  apply rd_Some in H1. destruct H1 as [Hstack ->].
  apply bind_Some in H. destruct H as (copy1 & g1 & Hcopy & H).
  apply bind_Some in H. destruct H as (locals & g2 & H2 & H).
  apply rd_Some in H2. destruct H2 as [Hlocals ->].
  apply bind_Some in H. destruct H as (new_locals & g2 & H2 & H).
  apply DuplicateStateValuesAndRename_same in H2. destruct H2 as [-> ->].
  apply bind_Some in H. destruct H as (copy2 & g2 & H2 & H).
  destruct (decide (locals ≠ locals)); [congruence|].
  apply ret_Some in H2. destruct H2 as [-> ->].
  apply ret_Some in H. destruct H as [-> ->].
  destruct (decide (stack = from)) as [->|Hne].
  - apply bind_Some in Hcopy. destruct Hcopy as (c & g2 & Hc & Hcopy).
    apply bind_Some in Hcopy. destruct Hcopy as (u & g3 & Hr & Hcopy).
    apply ret_Some in Hcopy. destruct Hcopy as [-> ->].
    apply ReplaceInput_Some in Hr. destruct Hr as (nc & Hnc & Hlt & ->).
    destruct mode; simpl in Hc.
    + apply CloneNode_Some in Hc. destruct Hc as (original & Ho & -> & ->).
      rewrite lookup_emitted in Hnc. injection Hnc as <-. cbn [op inputs dead] in *.
      right. left. split; [reflexivity|]. exists original.
      split; [exact Ho|]. split; [reflexivity|].
      rewrite insert_app_r_alt by lia. rewrite Nat.sub_diag. reflexivity.
    + apply ret_Some in Hc. destruct Hc as [-> ->].
      right. right. split; [reflexivity|]. split; [reflexivity|]. eauto.
  - apply ret_Some in Hcopy. destruct Hcopy as [-> ->].
    left. destruct mode; auto.
Qed.

(** Every input of every node is a node of the graph. *)
Definition closed (g : Graph) : Prop :=
  Forall (fun nd => Forall (fun input => input < length g) (inputs nd)) g.

Lemma closed_input g n index input :
  closed g -> InputAt n index g = Some input -> input < length g.
Proof.
  unfold closed, InputAt. intros Hclosed H.
  destruct (g !! n) as [nd|] eqn:E; [|discriminate]. simpl in H.
  rewrite Forall_forall in Hclosed.
  specialize (Hclosed nd (list_elem_of_lookup_2 _ _ _ E)).
  rewrite Forall_forall in Hclosed. apply Hclosed. eapply list_elem_of_lookup_2. exact H.
Qed.

(** From [g] to [g'] no node is lost, the operators stay, and the nodes at
    or past [base] stay as they are. *)
Definition keeps_past (base : nat) (g g' : Graph) : Prop :=
  length g <= length g' /\
  (forall n nd, g !! n = Some nd -> exists nd', g' !! n = Some nd' /\ op nd' = op nd) /\
  (forall n nd, base <= n -> g !! n = Some nd -> g' !! n = Some nd).

Lemma keeps_past_refl base g : keeps_past base g g.
Proof. split; [lia|]. split; eauto. Qed.

Lemma keeps_past_trans base g1 g2 g3 :
  keeps_past base g1 g2 -> keeps_past base g2 g3 -> keeps_past base g1 g3.
Proof.
  intros (L1 & O1 & K1) (L2 & O2 & K2). split; [lia|]. split.
  - intros n nd H. destruct (O1 n nd H) as (nd1 & H1 & E1).
    destruct (O2 n nd1 H1) as (nd2 & H2 & E2). exists nd2. split; [exact H2|congruence].
  - intros n nd Hn H. apply K2; [exact Hn|]. apply K1; assumption.
Qed.

Lemma keeps_past_app base g new : keeps_past base g (g ++ new).
Proof.
  split; [rewrite length_app; lia|]. split.
  - intros n nd H. exists nd. split; [apply lookup_kept; exact H|reflexivity].
  - intros n nd _ H. apply lookup_kept. exact H.
Qed.

Lemma keeps_past_insert base g n nd ins d :
  n < base -> g !! n = Some nd ->
  keeps_past base g (<[n := mkNode (op nd) ins d]> g).
Proof.
  intros Hn Hnd. split; [rewrite length_insert; lia|]. split.
  - intros m x H. destruct (decide (m = n)) as [->|Hne].
    + rewrite list_lookup_insert_eq by (eapply lookup_lt_Some; eauto).
      eexists. split; [reflexivity|]. simpl. congruence.
    + rewrite list_lookup_insert_ne by congruence. eauto.
  - intros m x Hm H. rewrite list_lookup_insert_ne by lia. exact H.
Qed.

Lemma DuplicateFrameStateAndRename_keeps fuel frame_state from to mode (g0 g : Graph)
    result g' :
  frame_state < length g0 ->
  DuplicateFrameStateAndRename fuel frame_state from to mode g = Some (result, g') ->
  keeps_past (length g0) g g' /\
  (mode = kCloneState -> exists new, g' = g ++ new).
Proof.
  intros Hfs H. apply DuplicateFrameStateAndRename_inv in H.
  destruct H as [[_ ->]|[(-> & original & _ & _ & ->)|(-> & _ & n & Hn & ->)]].
  - split; [apply keeps_past_refl|]. intros _. exists []. rewrite app_nil_r. reflexivity.
  - split; [apply keeps_past_app|]. intros _. eauto.
  - split; [|discriminate]. apply keeps_past_insert; assumption.
Qed.

Lemma InputAt_kept g new n index :
  n < length g -> InputAt n index (g ++ new) = InputAt n index g.
Proof. intros Hn. unfold InputAt. rewrite lookup_app_l by exact Hn. reflexivity. Qed.

Lemma Dead_keeps base g n g' : Dead g = Some (n, g') -> keeps_past base g g'.
Proof.
  unfold Dead. destruct (find_node is_dead_node g).
  - intros [= _ <-]. apply keeps_past_refl.
  - intros H. apply NewNode_Some in H. destruct H as [_ ->]. apply keeps_past_app.
Qed.

Lemma ReplaceInput_keeps base n index new_to g u g' :
  n < base -> ReplaceInput n index new_to g = Some (u, g') -> keeps_past base g g'.
Proof.
  intros Hn H. apply ReplaceInput_Some in H. destruct H as (nd & Hnd & _ & ->).
  apply keeps_past_insert; assumption.
Qed.

Lemma Kill_keeps base n g u g' :
  n < base -> Kill n g = Some (u, g') -> keeps_past base g g'.
Proof.
  intros Hn H. apply Kill_Some in H. destruct H as (nd & Hnd & ->).
  apply keeps_past_insert; assumption.
Qed.

Section ReusedDispatch.
Context (fuel : nat) (call callee merge effect_phi : nat)
  (checkpoint checkpoint_state : option nat) (frame_state : nat)
  (num_calls input_count : nat) (g0 : Graph) (nd : Node)
  (original_inputs : list nat).
Hypothesis call_node : g0 !! call = Some nd.
Hypothesis callee_node : callee < length g0.
Hypothesis merge_node : merge < length g0.
Hypothesis effect_phi_node : effect_phi < length g0.
Hypothesis frame_state_node : frame_state < length g0.
Hypothesis checkpoint_state_node : forall state, checkpoint_state = Some state ->
  state < length g0.
Hypothesis checkpoint_node : forall cp, checkpoint = Some cp -> cp < length g0.
Hypothesis wide : 3 < input_count.

(** The clone of the call made for target [i] of a reused dispatch: a new
    call with the operator of the original, whose target is input [i] of the
    callee phi, whose control is input [i] of the merge, and whose effect is
    input [i] of the effect phi, or a new checkpoint on that effect and
    control; the inputs before the frame state are those of the original. *)
Definition reused_call (g : Graph) (arrays : Dispatch) (i : nat) : Prop :=
  exists clone inputs_i target effect control,
    calls arrays !! i = Some clone /\ if_successes arrays !! i = Some clone /\
    length g0 <= clone /\
    g !! clone = Some (mkNode (op nd) inputs_i false) /\
    length inputs_i = input_count /\
    InputAt callee i g0 = Some target /\ inputs_i !! 0 = Some target /\
    InputAt merge i g0 = Some control /\ inputs_i !! (input_count - 1) = Some control /\
    InputAt effect_phi i g0 = Some effect /\
    match checkpoint with
    | None => inputs_i !! (input_count - 2) = Some effect
    | Some cp =>
        exists cp_clone state cp_node,
          inputs_i !! (input_count - 2) = Some cp_clone /\
          length g0 <= cp_clone /\ g0 !! cp = Some cp_node /\
          g !! cp_clone = Some (mkNode (op cp_node) [state; effect; control] false)
    end /\
    (forall j, 0 < j < input_count - 3 -> inputs_i !! j = original_inputs !! j).

Lemma reused_call_kept g g' arrays arrays' i :
  keeps_past (length g0) g g' ->
  calls arrays' !! i = calls arrays !! i ->
  if_successes arrays' !! i = if_successes arrays !! i ->
  reused_call g arrays i -> reused_call g' arrays' i.
Proof.
  intros (_ & _ & Hkeep) Hc Hs
    (clone & inputs_i & target & effect & control & H1 & H2 & H3 & H4 & H5 & H6 & H7 & H8
     & H9 & H10 & H11 & H12).
  exists clone, inputs_i, target, effect, control.
  rewrite Hc, Hs. repeat (split; [assumption|]).
  split; [apply Hkeep; assumption|]. repeat (split; [assumption|]).
  split; [|exact H12].
  destruct checkpoint as [cp|]; [|exact H11].
  destruct H11 as (cp_clone & state & cp_node & E1 & E2 & E3 & E4).
  exists cp_clone, state, cp_node. repeat (split; [assumption|]). apply Hkeep; assumption.
Qed.

Lemma TryReuseDispatch_clone_Some i arrays new arrays1 g1 :
  (forall j, 0 < j < input_count - 3 -> call_inputs arrays !! j = original_inputs !! j) ->
  TryReuseDispatch_clone fuel call callee merge effect_phi checkpoint checkpoint_state
    frame_state num_calls input_count i arrays (g0 ++ new) = Some (arrays1, g1) ->
  keeps_past (length g0) (g0 ++ new) g1 /\
  (i <> num_calls - 1 -> exists new1, g1 = g0 ++ new1) /\
  reused_call g1 arrays1 i /\
  (forall k, k <> i -> calls arrays1 !! k = calls arrays !! k
                       /\ if_successes arrays1 !! k = if_successes arrays !! k) /\
  (forall j, 0 < j < input_count - 3 -> call_inputs arrays1 !! j = original_inputs !! j).
Proof.
  intros Hinputs H. unfold TryReuseDispatch_clone in H.
  apply bind_Some in H. destruct H as (target & g & H1 & H).
  apply rd_Some in H1. destruct H1 as [Htarget ->].
  apply bind_Some in H. destruct H as (effect & g & H1 & H).
  apply rd_Some in H1. destruct H1 as [Heffect ->].
  apply bind_Some in H. destruct H as (control & g & H1 & H).
  apply rd_Some in H1. destruct H1 as [Hcontrol ->].
  rewrite InputAt_kept in Htarget, Heffect, Hcontrol by assumption.
  apply bind_Some in H. destruct H as (effect' & g2 & Hcheckpoint & H).
  assert (Hmode : i <> num_calls - 1 -> clone_mode i num_calls = kCloneState).
  { intros Hi. unfold clone_mode. destruct (decide _); [contradiction|reflexivity]. }
  assert (Hstep2 :
    keeps_past (length g0) (g0 ++ new) g2 /\
    (i <> num_calls - 1 -> exists new2, g2 = g0 ++ new2) /\
    match checkpoint with
    | None => effect' = effect
    | Some cp =>
        exists state cp_node,
          length g0 <= effect' /\ g0 !! cp = Some cp_node /\
          g2 !! effect' = Some (mkNode (op cp_node) [state; effect; control] false)
    end).
  { destruct checkpoint as [cp|].
    - apply bind_Some in Hcheckpoint. destruct Hcheckpoint as (state & g & H1 & Hcheckpoint).
      apply lift_Some in H1. destruct H1 as [Hstate ->].
      apply bind_Some in Hcheckpoint. destruct Hcheckpoint as (new_state & g3 & H1 & Hcheckpoint).
      destruct (DuplicateFrameStateAndRename_keeps _ _ _ _ _ g0 _ _ _
                  (checkpoint_state_node _ Hstate) H1) as [Hk3 Hp3].
      apply bind_Some in Hcheckpoint. destruct Hcheckpoint as (cp_op & g & H2 & Hcheckpoint).
      apply rd_Some in H2. destruct H2 as [Hop ->].
      apply NewNode_Some in Hcheckpoint. destruct Hcheckpoint as [-> ->].
      split; [eapply keeps_past_trans; [exact Hk3|apply keeps_past_app]|].
      split.
      + intros Hi. destruct (Hp3 (Hmode Hi)) as (new3 & ->).
        rewrite <- !app_assoc. eauto.
      + destruct (lookup_lt_is_Some_2 g0 cp (checkpoint_node _ eq_refl)) as [cp_node Hcp].
        exists new_state, cp_node.
        destruct Hk3 as (Hlen & Hops & _).
        split; [rewrite length_app in Hlen; lia|]. split; [exact Hcp|].
        rewrite lookup_emitted. do 2 f_equal.
        destruct (Hops cp cp_node (lookup_kept _ _ _ _ Hcp)) as (cp_node' & Hcp' & Heq).
        unfold op_of in Hop. rewrite Hcp' in Hop. simpl in Hop. congruence.
    - apply ret_Some in Hcheckpoint. destruct Hcheckpoint as [-> ->].
      split; [apply keeps_past_refl|]. split; [eauto|reflexivity]. }
  clear Hcheckpoint. destruct Hstep2 as (Hk2 & Hp2 & Heffect').
  apply bind_Some in H. destruct H as (new_lazy & g3 & H1 & H).
  destruct (DuplicateFrameStateAndRename_keeps _ _ _ _ _ g0 _ _ _ frame_state_node H1)
    as [Hk3 Hp3]. clear H1.
  apply bind_Some in H. destruct H as (inputs0 & g & H1 & H).
  apply lift_Some in H1. destruct H1 as [Hset0 ->].
  apply array_set_Some in Hset0. destruct Hset0 as [Hroom0 ->].
  apply bind_Some in H. destruct H as (i3 & g & H1 & H).
  apply lift_Some in H1. destruct H1 as [Hi3 ->].
  apply index_minus_Some in Hi3. destruct Hi3 as [_ ->].
  apply bind_Some in H. destruct H as (inputs1 & g & H1 & H).
  apply lift_Some in H1. destruct H1 as [Hset1 ->].
  apply array_set_Some in Hset1. destruct Hset1 as [_ ->].
  apply bind_Some in H. destruct H as (i2 & g & H1 & H).
  apply lift_Some in H1. destruct H1 as [Hi2 ->].
  apply index_minus_Some in Hi2. destruct Hi2 as [_ ->].
  apply bind_Some in H. destruct H as (inputs2 & g & H1 & H).
  apply lift_Some in H1. destruct H1 as [Hset2 ->].
  apply array_set_Some in Hset2. destruct Hset2 as [_ ->].
  apply bind_Some in H. destruct H as (i1 & g & H1 & H).
  apply lift_Some in H1. destruct H1 as [Hi1 ->].
  apply index_minus_Some in Hi1. destruct Hi1 as [_ ->].
  apply bind_Some in H. destruct H as (inputs3 & g & H1 & H).
  apply lift_Some in H1. destruct H1 as [Hset3 ->].
  apply array_set_Some in Hset3. destruct Hset3 as [Hroom ->].
  rewrite !length_insert in Hroom.
  apply bind_Some in H. destruct H as (node_op & g & H1 & H).
  apply rd_Some in H1. destruct H1 as [Hop ->].
  apply bind_Some in H. destruct H as (clone & g4 & H1 & H).
  apply NewNode_Some in H1. destruct H1 as [-> ->].
  apply bind_Some in H. destruct H as (if_successes' & g & H1 & H).
  apply lift_Some in H1. destruct H1 as [Hsets ->].
  apply array_set_Some in Hsets. destruct Hsets as [Hrooms ->].
  apply bind_Some in H. destruct H as (calls' & g & H1 & H).
  apply lift_Some in H1. destruct H1 as [Hsetc ->].
  apply array_set_Some in Hsetc. destruct Hsetc as [Hroomc ->].
  apply ret_Some in H. destruct H as [-> ->].
  assert (Hk : keeps_past (length g0) (g0 ++ new) g3)
    by (eapply keeps_past_trans; eauto).
  assert (Hnode_op : node_op = op nd).
  { destruct Hk as (_ & Hops & _).
    destruct (Hops call nd (lookup_kept _ _ _ _ call_node)) as (nd' & Hnd' & Heq).
    unfold op_of in Hop. rewrite Hnd' in Hop. simpl in Hop. congruence. }
  subst node_op.
  split; [eapply keeps_past_trans; [exact Hk|apply keeps_past_app]|].
  split.
  { intros Hi. destruct (Hp2 Hi) as (new2 & ->). destruct (Hp3 (Hmode Hi)) as (new3 & ->).
    rewrite <- !app_assoc. eauto. }
  split; [|split].
  - eexists (length g3), _, target, effect, control. cbn [calls if_successes call_inputs].
    split; [apply list_lookup_insert_eq; exact Hroomc|].
    split; [apply list_lookup_insert_eq; exact Hrooms|].
    split; [destruct Hk as (Hlen & _); rewrite length_app in Hlen; lia|].
    split; [apply lookup_emitted|].
    split; [rewrite length_take, !length_insert; lia|].
    split; [exact Htarget|].
    split.
    { rewrite lookup_take_lt by lia. rewrite !list_lookup_insert_ne by lia.
      apply list_lookup_insert_eq. exact Hroom0. }
    split; [exact Hcontrol|].
    split.
    { rewrite lookup_take_lt by lia. apply list_lookup_insert_eq.
      rewrite !length_insert. exact Hroom. }
    split; [exact Heffect|].
    split.
    + assert (Hslot : take input_count
                (<[input_count - 1 := control]>
                   (<[input_count - 2 := effect']>
                      (<[input_count - 3 := new_lazy]>
                         (<[0 := target]> (call_inputs arrays))))) !! (input_count - 2)
              = Some effect').
      { rewrite lookup_take_lt by lia. rewrite list_lookup_insert_ne by lia.
        apply list_lookup_insert_eq. rewrite !length_insert. lia. }
      destruct checkpoint as [cp|].
      * destruct Heffect' as (state & cp_node & Hfresh & Hcp & Hnew).
        exists effect', state, cp_node. split; [exact Hslot|]. split; [exact Hfresh|].
        split; [exact Hcp|]. apply lookup_kept.
        destruct Hk3 as (_ & _ & Hkeep). apply Hkeep; assumption.
      * subst effect'. exact Hslot.
    + intros j Hj. rewrite lookup_take_lt by lia. rewrite !list_lookup_insert_ne by lia.
      apply Hinputs. exact Hj.
  - intros k Hk'. cbn [calls if_successes].
    rewrite !list_lookup_insert_ne by congruence. auto.
  - intros j Hj. cbn [call_inputs]. rewrite !list_lookup_insert_ne by lia.
    apply Hinputs. exact Hj.
Qed.

Lemma TryReuseDispatch_loop : forall count i arrays new arrays' g',
  i + count = num_calls ->
  (forall j, 0 < j < input_count - 3 -> call_inputs arrays !! j = original_inputs !! j) ->
  for_fold i count
    (TryReuseDispatch_clone fuel call callee merge effect_phi checkpoint checkpoint_state
       frame_state num_calls input_count) arrays (g0 ++ new) = Some (arrays', g') ->
  keeps_past (length g0) (g0 ++ new) g' /\
  (forall k, i <= k < num_calls -> reused_call g' arrays' k) /\
  (forall k, k < i -> calls arrays' !! k = calls arrays !! k
                      /\ if_successes arrays' !! k = if_successes arrays !! k).
Proof.
  induction count as [|count IH]; intros i arrays new arrays' g' Hi Hinputs H.
  - simpl in H. apply ret_Some in H. destruct H as [-> ->].
    split; [apply keeps_past_refl|]. split; [intros; lia|auto].
  - simpl in H. apply bind_Some in H. destruct H as (arrays1 & g1 & H1 & H).
    destruct (TryReuseDispatch_clone_Some _ _ _ _ _ Hinputs H1)
      as (Hk1 & Hp1 & Hcall & Hother & Hinputs1).
    destruct count as [|count].
    + simpl in H. apply ret_Some in H. destruct H as [-> ->].
      split; [exact Hk1|]. split.
      * intros k Hk. assert (k = i) as -> by lia. exact Hcall.
      * intros k Hk. apply Hother. lia.
    + destruct Hp1 as (new1 & ->); [lia|].
      destruct (IH (S i) arrays1 new1 arrays' g' ltac:(lia) Hinputs1 H)
        as (Hk & Hcalls & Hsame).
      split; [eapply keeps_past_trans; eauto|]. split.
      * intros k Hk'. destruct (decide (k = i)) as [->|Hne].
        -- destruct (Hsame i ltac:(lia)) as [Hc Hs].
           eapply reused_call_kept with (g := g0 ++ new1) (arrays := arrays1); eauto.
        -- apply Hcalls. lia.
      * intros k Hk'. destruct (Hsame k ltac:(lia)) as [-> ->]. apply Hother. lia.
Qed.
End ReusedDispatch.

Lemma control_input_node n m g :
  closed g -> GetControlInput n g = Some m -> n < length g /\ m < length g.
Proof.
  intros Hclosed H. unfold GetControlInput, op_of in H.
  destruct (g !! n) as [x|] eqn:E; [|discriminate]. simpl in H.
  split; [eapply lookup_lt_Some; eauto|eapply closed_input; eauto].
Qed.

Lemma opcode_of_node n code (g : Graph) : opcode_of n g = Some code -> n < length g.
Proof.
  unfold opcode_of, op_of. destruct (g !! n) eqn:E; [|discriminate].
  intros _. eapply lookup_lt_Some; eauto.
Qed.

Lemma TryReuseDispatch_from_clones fuel call callee merge checkpoint effect
    num_calls input_count arrays g arrays' g' nd :
  closed g -> g !! call = Some nd -> callee < length g -> merge < length g ->
  (forall cp, checkpoint = Some cp -> cp < length g) -> 3 < input_count ->
  TryReuseDispatch_from fuel call callee merge checkpoint effect num_calls
    input_count arrays g = Some ((true, arrays'), g') ->
  forall i, i < num_calls ->
    reused_call callee merge effect checkpoint input_count g nd (call_inputs arrays)
      g' arrays' i.
Proof.
  intros Hclosed Hcall Hcallee Hmerge Hcp Hwide H.
  unfold TryReuseDispatch_from in H.
  apply bind_Some in H. destruct H as (code & g0 & H0 & H).
  apply rd_Some in H0. destruct H0 as [Hcode ->].
  pose proof (opcode_of_node _ _ _ Hcode) as Heffect.
  destruct (decide (code ≠ kEffectPhi)).
  { apply ret_Some in H. destruct H as [[=] _]. }
  apply bind_Some in H. destruct H as (effect_control & g0 & H0 & H).
  apply rd_Some in H0. destruct H0 as [_ ->].
  destruct (decide (effect_control ≠ merge)).
  { apply ret_Some in H. destruct H as [[=] _]. }
  apply bind_Some in H. destruct H as ([[ok2 uses2] checkpoint_state] & g0 & H0 & H).
  assert (Hfirst : g0 = g /\ forall state, checkpoint_state = Some state -> state < length g).
  { destruct checkpoint as [cp|].
    - apply bind_Some in H0. destruct H0 as (state & g1 & H1 & H0).
      apply rd_Some in H1. destruct H1 as [Hstate ->].
      apply bind_Some in H0. destruct H0 as (r & g1 & H1 & H0).
      apply rd_Some in H1. destruct H1 as [_ ->].
      apply ret_Some in H0. destruct H0 as [[= -> -> ->] ->].
      split; [reflexivity|]. intros state' [= <-]. eapply closed_input; eauto.
    - apply ret_Some in H0. destruct H0 as [[= -> -> ->] ->].
      split; [reflexivity|]. discriminate. }
  destruct Hfirst as [-> Hstate]. clear H0.
  destruct ok2; cbn [negb] in H; [|apply ret_Some in H; destruct H as [[=] _]].
  apply bind_Some in H. destruct H as (frame_state & g0 & H0 & H).
  apply rd_Some in H0. destruct H0 as [Hframe ->].
  assert (Hfs : frame_state < length g).
  { unfold GetFrameStateInput in Hframe. destruct (op_of call g); [|discriminate].
    simpl in Hframe. eapply closed_input; eauto. }
  apply bind_Some in H. destruct H as ([ok3 replaceable_uses] & g0 & H0 & H).
  apply rd_Some in H0. destruct H0 as [_ ->].
  destruct ok3; cbn [negb] in H; [|apply ret_Some in H; destruct H as [[=] _]].
  apply bind_Some in H. destruct H as (accounted & g0 & H0 & H).
  apply gets_Some in H0. destruct H0 as [-> ->].
  destruct (uses_accounted call callee replaceable_uses g); cbn [negb] in H;
    [|apply ret_Some in H; destruct H as [[=] _]].
  apply bind_Some in H. destruct H as (arrays1 & g1 & Hloop & H).
  rewrite <- (app_nil_r g) in Hloop at 1.
  destruct (TryReuseDispatch_loop fuel call callee merge effect checkpoint checkpoint_state
              frame_state num_calls input_count g nd (call_inputs arrays)
              Hcall Hcallee Hmerge Heffect Hfs Hstate Hcp Hwide
              num_calls 0 arrays [] arrays1 g1 eq_refl ltac:(auto) Hloop)
    as (Hk1 & Hcalls & _).
  rewrite app_nil_r in Hk1.
  assert (Hcall_lt : call < length g) by (eapply lookup_lt_Some; eauto).
  apply bind_Some in H. destruct H as (i1 & g2 & H2 & H).
  apply lift_Some in H2. destruct H2 as [_ ->].
  apply bind_Some in H. destruct H as (dead1 & g2 & H2 & H).
  apply (Dead_keeps (length g)) in H2.
  apply bind_Some in H. destruct H as (u1 & g3 & H3 & H).
  apply (ReplaceInput_keeps (length g)) in H3; [|exact Hcall_lt].
  apply bind_Some in H. destruct H as (dead2 & g4 & H4 & H).
  apply (Dead_keeps (length g)) in H4.
  apply bind_Some in H. destruct H as (u2 & g5 & H5 & H).
  apply (ReplaceInput_keeps (length g)) in H5; [|exact Hcallee].
  apply bind_Some in H. destruct H as (dead3 & g6 & H6 & H).
  apply (Dead_keeps (length g)) in H6.
  apply bind_Some in H. destruct H as (u3 & g7 & H7 & H).
  apply (ReplaceInput_keeps (length g)) in H7; [|exact Heffect].
  apply bind_Some in H. destruct H as (u4 & g8 & H8 & H).
  assert (H8' : keeps_past (length g) g7 g8).
  { destruct checkpoint as [cp|].
    - apply bind_Some in H8. destruct H8 as (dead4 & g9 & H9 & H8).
      apply (Dead_keeps (length g)) in H9.
      apply (ReplaceInput_keeps (length g)) in H8; [|apply Hcp; reflexivity].
      eapply keeps_past_trans; eauto.
    - apply ret_Some in H8. destruct H8 as [_ ->]. apply keeps_past_refl. }
  apply bind_Some in H. destruct H as (u5 & g9 & H9 & H).
  apply (Kill_keeps (length g)) in H9; [|exact Hmerge].
  apply ret_Some in H. destruct H as [[= <-] ->].
  intros i Hi.
  assert (Hk : keeps_past (length g) g1 g9).
  { repeat (eapply keeps_past_trans; [eassumption|]). apply keeps_past_refl. }
  eapply reused_call_kept with (g := g1) (arrays := arrays');
    first [exact Hk|reflexivity|apply Hcalls; lia|eassumption].
Qed.

(** X22: when [TryReuseDispatch] returns [true] on a graph whose inputs are
    all nodes of the graph, for a call with more than three inputs, it has
    made one new call for every target: clone [i], recorded in slot [i] of
    [calls] and of [if_successes], has the operator of the original call; its
    target is input [i] of the callee phi, its control input [i] of the merge
    of the phi, its effect input [i] of the effect phi of that merge, or a new
    checkpoint on that effect and control when the original call had a
    checkpoint; its inputs between the target and the frame state are those of
    the original. *)
Theorem TryReuseDispatch_clones fuel call callee candidate arrays input_count g
    arrays' g' nd :
  closed g -> g !! call = Some nd -> 3 < input_count ->
  TryReuseDispatch fuel call callee candidate arrays input_count g
    = Some ((true, arrays'), g') ->
  exists merge effect_phi checkpoint,
    GetControlInput callee g = Some merge /\
    match checkpoint with
    | None => GetEffectInput call g = Some effect_phi
    | Some cp => GetEffectInput call g = Some cp /\ opcode_of cp g = Some kCheckpoint
                 /\ GetEffectInput cp g = Some effect_phi
    end /\
    forall i, i < num_functions candidate ->
      reused_call callee merge effect_phi checkpoint input_count g nd (call_inputs arrays)
        g' arrays' i.
Proof.
  intros Hclosed Hcall Hwide H. unfold TryReuseDispatch in H.
  apply bind_Some in H. destruct H as (merge & g1 & H1 & H).
  apply rd_Some in H1. destruct H1 as [Hmerge ->].
  destruct (control_input_node _ _ _ Hclosed Hmerge) as [Hcallee Hmerge'].
  apply bind_Some in H. destruct H as (ctl & g1 & H1 & H).
  apply rd_Some in H1. destruct H1 as [_ ->].
  destruct (decide (ctl ≠ merge)).
  { apply ret_Some in H. destruct H as [[=] _]. }
  apply bind_Some in H. destruct H as (effect & g1 & H1 & H).
  apply rd_Some in H1. destruct H1 as [Heffect ->].
  apply bind_Some in H. destruct H as (code & g1 & H1 & H).
  apply rd_Some in H1. destruct H1 as [Hcode ->].
  exists merge.
  destruct (decide (code = kCheckpoint)) as [->|].
  - apply bind_Some in H. destruct H as (cc & g1 & H1 & H).
    apply rd_Some in H1. destruct H1 as [_ ->].
    destruct (decide (cc ≠ merge)).
    { apply ret_Some in H. destruct H as [[=] _]. }
    apply bind_Some in H. destruct H as (effect' & g1 & H1 & H).
    apply rd_Some in H1. destruct H1 as [Heffect' ->].
    exists effect', (Some effect). split; [exact Hmerge|]. split; [auto|].
    eapply TryReuseDispatch_from_clones; eauto.
    intros cp [= <-]. eapply opcode_of_node; eauto.
  - exists effect, None. split; [exact Hmerge|]. split; [exact Heffect|].
    eapply TryReuseDispatch_from_clones; eauto. discriminate.
Qed.

Lemma TryReuseDispatch_clones_witness :
  let g := Example.poly_graph 2 3 in
  let nd := mkNode (Example.JSCall UnknownFrequency) [4; 0; 0; 7; 5; 3] false in
  let arrays := mkDispatch (replicate 4 0) (replicate 5 0) [4; 0; 0; 7; 5; 3] in
  exists arrays' g',
    TryReuseDispatch 5 8 4 Example.poly_candidate arrays 6 g = Some ((true, arrays'), g') /\
    forall i, i < 2 -> reused_call 4 3 5 None 6 g nd [4; 0; 0; 7; 5; 3] g' arrays' i.
Proof.
  intros g nd arrays. eexists _, _. split; [vm_compute; reflexivity|].
  assert (Hclosed : closed g) by (unfold closed; simpl; repeat constructor).
  destruct (TryReuseDispatch_clones 5 8 4 Example.poly_candidate arrays 6 g _ _ nd
              Hclosed eq_refl ltac:(lia) ltac:(vm_compute; reflexivity))
    as (merge & effect_phi & checkpoint & Hmerge & Heffect & Hcalls).
  injection Hmerge as <-.
  destruct checkpoint as [cp|].
  - destruct Heffect as (Hcp & Hcode & _). injection Hcp as <-. discriminate Hcode.
  - injection Heffect as <-. exact Hcalls.
Defined.

(** ** The seen-set over the whole pass *)

(** The nodes handed to [Reduce] by a sequence of operations. *)
Definition reduced (operations : list Operation) : gset nat :=
  list_to_set (omap (fun o => match o with
                              | DoReduce _ call => Some call
                              | DoFinalize _ => None
                              end) operations).

(** X23: over every sequence of [Reduce] and [Finalize] operations the
    seen-set only grows, and what it gains are nodes that were handed to
    [Reduce]; the drain and the substitutions add nothing to it. *)
Theorem seen_set_of_run cfg operations : forall h h',
  run cfg operations h = Some (tt, h') ->
  seen_ h ⊆ seen_ h' /\ seen_ h' ⊆ seen_ h ∪ reduced operations.
Proof.
  induction operations as [|o rest IH]; intros h h' H; simpl in H.
  - apply ret_Some in H. destruct H as [_ ->]. split; set_solver.
  - apply bind_Some in H. destruct H as ([] & h1 & H1 & H).
    destruct (IH _ _ H) as [Hgrow Hfrom].
    destruct o as [fuel1 call|fuel1]; simpl in H1.
    + apply bind_Some in H1. destruct H1 as (r & h0 & H0 & H1).
      apply ret_Some in H1. destruct H1 as [_ <-].
      destruct (Reduce_inv _ _ _ _ _ _ H0) as (code & _ & Hcases).
      assert (Hseen : seen_ h ⊆ seen_ h1 /\ seen_ h1 ⊆ seen_ h ∪ {[call]}).
      { destruct (negb (IsInlineeOpcode code) || bool_decide (call ∈ seen_ h)).
        - destruct Hcases as [_ ->]. split; [reflexivity|apply union_subseteq_l].
        - destruct Hcases as [-> _]. split; [apply union_subseteq_r|].
          rewrite (comm_L (∪)). reflexivity. }
      destruct Hseen as [Hseen1 Hseen2].
      unfold reduced in *. simpl. clear - Hgrow Hfrom Hseen1 Hseen2.
      split; [etransitivity; eassumption|].
      etransitivity; [exact Hfrom|]. rewrite (assoc_L (∪)).
      apply union_mono_r. exact Hseen2.
    + rewrite Finalize_unfold in H1.
      destruct (Finalize_loop_Some _ _ _ _ _ H1) as (Hseen & _).
      unfold reduced in *. simpl. rewrite <- Hseen. auto.
Qed.

Lemma seen_set_of_run_witness :
  let cfg := Example.config 5 100000 40 (6 # 5) Example.accepting in
  let operations := [DoReduce 10 6; DoReduce 10 0; DoFinalize 10] in
  exists h',
    run cfg operations (Example.initial Example.two_calls_graph) = Some (tt, h') /\
    seen_ h' ⊆ ∅ ∪ reduced operations /\ seen_ h' = {[6]}.
Proof.
  intros cfg operations. eexists. split; [vm_compute; reflexivity|]. split.
  - exact (proj2 (seen_set_of_run cfg operations (Example.initial Example.two_calls_graph) _
                    ltac:(vm_compute; reflexivity))).
  - reflexivity.
Defined.

(** ** Small functions and inlinable functions *)

(** X24: when the cap on small functions is no more than the cap on
    inlinable functions, a function that [IsSmallInlineFunction] accepts is
    one that [CanInlineFunction] accepts as well, unless it is a built-in or
    is not user code: the two checks that [IsSmallInlineFunction] does not
    make. *)
Theorem small_function_can_be_inlined cfg sh :
  (FLAG_max_inlined_bytecode_size_small cfg <= FLAG_max_inlined_bytecode_size cfg)%Z ->
  IsSmallInlineFunction cfg sh = true ->
  CanInlineFunction cfg sh = negb (HasBuiltinFunctionId sh) && IsUserJavaScript sh.
Proof.
  unfold IsSmallInlineFunction, CanInlineFunction. intros Hcaps Hsmall.
  destruct (bytecode_array sh) as [len|]; [|discriminate].
  apply Z.leb_le in Hsmall.
  destruct (HasBuiltinFunctionId sh); [reflexivity|].
  destruct (IsUserJavaScript sh); [|reflexivity]. simpl.
  destruct (_ >? _)%Z eqn:E; [apply Z.gtb_lt in E; lia|reflexivity].
Qed.

Lemma small_function_can_be_inlined_witness :
  let cfg := Example.config 30 100000 1000 (6 # 5) Example.accepting in
  IsSmallInlineFunction cfg (Example.descriptor 10) = true /\
  CanInlineFunction cfg (Example.descriptor 10) = true /\
  IsSmallInlineFunction cfg (mkSharedFunctionInfo true true (Some 10%N) false) = true /\
  CanInlineFunction cfg (mkSharedFunctionInfo true true (Some 10%N) false) = false.
Proof.
  intros cfg. split; [reflexivity|]. split; [|split; [reflexivity|]].
  - apply (small_function_can_be_inlined cfg (Example.descriptor 10)); [simpl; lia|reflexivity].
  - apply (small_function_can_be_inlined cfg (mkSharedFunctionInfo true true (Some 10%N) false));
      [simpl; lia|reflexivity].
Defined.

(** ** The outcomes of renaming in a frame state *)

(** X25: [DuplicateFrameStateAndRename] has three outcomes.  A frame state
    with more than one use, or whose stack slot does not hold [from], is
    returned as it is, the graph being left alone, whatever its locals hold.
    Otherwise the stack slot is set to [to]: in a clone appended to the
    graph, which is returned, when the mode is [kCloneState], and in the
    frame state itself when the mode is [kChangeInPlace].  No other input is
    ever written. *)
Theorem DuplicateFrameStateAndRename_outcomes fuel frame_state from to mode g result g' :
  DuplicateFrameStateAndRename fuel frame_state from to mode g = Some (result, g') ->
  if decide (1 < UseCount frame_state g) then result = frame_state /\ g' = g
  else
    exists n,
      g !! frame_state = Some n /\
      if decide (inputs n !! kFrameStateStackInput = Some from) then
        let renamed := <[kFrameStateStackInput := to]> (inputs n) in
        match mode with
        | kCloneState => result = length g /\ g' = g ++ [mkNode (op n) renamed false]
        | kChangeInPlace =>
            result = frame_state /\ g' = <[frame_state := mkNode (op n) renamed (dead n)]> g
        end
      else result = frame_state /\ g' = g.
Proof.
  intros H. unfold DuplicateFrameStateAndRename in H.
  apply bind_Some in H. destruct H as (uc & g1 & H1 & H).
  apply gets_Some in H1. destruct H1 as [-> ->].
  destruct (decide (1 < UseCount frame_state g)) as [Hshared|Hown].
  { apply ret_Some in H. destruct H as [-> ->]. auto. }
  apply bind_Some in H. destruct H as (stack & g1 & H1 & H).
  apply rd_Some in H1. destruct H1 as [Hstack ->].
  unfold InputAt in Hstack. destruct (g !! frame_state) as [n|] eqn:En; [|discriminate].
  simpl in Hstack. exists n. split; [reflexivity|].
  apply bind_Some in H. destruct H as (copy1 & g1 & Hcopy & H).
  apply bind_Some in H. destruct H as (locals & g2 & H2 & H).
  apply rd_Some in H2. destruct H2 as [Hlocals ->].
  apply bind_Some in H. destruct H as (new_locals & g2 & H2 & H).
  apply DuplicateStateValuesAndRename_same in H2. destruct H2 as [-> ->].
  apply bind_Some in H. destruct H as (copy2 & g2 & H2 & H).
  destruct (decide (locals ≠ locals)); [congruence|].
  apply ret_Some in H2. destruct H2 as [-> ->].
  apply ret_Some in H. destruct H as [-> ->].
  rewrite Hstack.
  destruct (decide (stack = from)) as [->|Hne].
  - destruct (decide (Some from = Some from)); [|congruence]. cbv zeta.
    apply bind_Some in Hcopy. destruct Hcopy as (c & g2 & Hc & Hcopy).
    apply bind_Some in Hcopy. destruct Hcopy as (u & g3 & Hr & Hcopy).
    apply ret_Some in Hcopy. destruct Hcopy as [-> ->].
    apply ReplaceInput_Some in Hr. destruct Hr as (nc & Hnc & Hlt & ->).
    destruct mode; simpl in Hc.
    + apply CloneNode_Some in Hc. destruct Hc as (original & Ho & -> & ->).
      rewrite En in Ho. injection Ho as <-.
      rewrite lookup_emitted in Hnc. injection Hnc as <-. cbn [op inputs dead] in *.
      split; [reflexivity|].
      rewrite insert_app_r_alt by lia. rewrite Nat.sub_diag. reflexivity.
    + apply ret_Some in Hc. destruct Hc as [-> ->].
      rewrite En in Hnc. injection Hnc as <-. auto.
  - destruct (decide (Some stack = Some from)); [congruence|].
    apply ret_Some in Hcopy. destruct Hcopy as [-> ->].
    destruct mode; auto.
Qed.

Lemma DuplicateFrameStateAndRename_outcomes_witness :
  let g := Example.poly_graph 2 3 in
  DuplicateFrameStateAndRename 5 7 4 1 kCloneState g
  = Some (9, g ++ [mkNode Example.FrameState [0; 6; 1; 0; 0; 0] false]) /\
  InputAt 6 0 g = Some 4.
Proof.
  intros g.
  destruct (DuplicateFrameStateAndRename 5 7 4 1 kCloneState g) as [[result g']|] eqn:E;
    [|vm_compute in E; discriminate E].
  pose proof (DuplicateFrameStateAndRename_outcomes 5 7 4 1 kCloneState g result g' E) as H.
  destruct (decide (1 < UseCount 7 g)) as [Hshared|_];
    [vm_compute in Hshared; lia|].
  destruct H as (n & Hn & H). injection Hn as <-.
  destruct (decide _) as [_|Hne]; [|exfalso; apply Hne; reflexivity].
  destruct H as [-> ->]. split; reflexivity.
Defined.
